(** * dolphin_doc_lib.base.table: cells, tables and directional navigation

    A shallow embedding of [src/dolphin_doc_lib/base/table.py].  Python
    objects live in a heap indexed by object identity; methods are
    computations in a state-and-exception monad over that heap, so that
    aliasing (a [Cell] referenced from a table's [_cells] list and from the
    caller, a [parent] back-reference) is modelled and not copied away. *)

From stdpp Require Import gmap list strings.
From Stdlib Require Import ZArith Lia Sorting.Sorted Sorting.Permutation.

#[local] Set Warnings "-clear-no-such-hyp,-register-all".

Open Scope Z_scope.

(** ** Rectangles *)

(** Modelled from the spec: the class [Rect] of [dolphin_doc_lib.base.rect]
    is imported by the source but is not part of it.  The spec gives its
    fields (left, top, width, height), the derived [right = left+width-1],
    [bottom = top+height-1], [area = width*height], and containment
    "inclusive of the boundary". *)
Record Rect := mkRect { left : Z; top : Z; width : Z; height : Z }.

Definition right (r : Rect) : Z := left r + width r - 1.
Definition bottom (r : Rect) : Z := top r + height r - 1.
Definition area (r : Rect) : Z := width r * height r.

(** Modelled from the spec: [Rect.contains], the argument lies entirely
    within [self], boundary included. *)
Definition contains (self r : Rect) : bool :=
  (left self <=? left r) && (right r <=? right self) &&
  (top self <=? top r) && (bottom r <=? bottom self).

(** Modelled from the spec: [Rect.contains_point], [x] is a column and [y] a
    row. *)
Definition contains_point (self : Rect) (x y : Z) : bool :=
  (left self <=? x) && (x <=? right self) &&
  (top self <=? y) && (y <=? bottom self).

(** The data model of the spec has width and height non-negative. *)
Definition Rect_wf (r : Rect) : Prop := 0 <= width r /\ 0 <= height r.

(** The grid coordinates a rectangle covers: those the two nested [range]
    loops of [add_cell] and [_fill_board] visit. *)
Definition covers (r : Rect) (row col : Z) : bool :=
  (top r <=? row) && (row <=? bottom r) &&
  (left r <=? col) && (col <=? right r).

(** ** Python values used by the module *)

Definition _UNOCCUPIED_CELL : Z := -1.

Inductive Direction := UP | DOWN | LEFT | RIGHT.

(** The messages of the [ValueError]s the module raises; the one of the
    overlap check carries the two numbers it formats. *)
Inductive Message :=
  | paragraph_has_parent (* "Should not append a paragraph that already has a parent" *)
  | cell_not_inside      (* "Cell is not inside the table" *)
  | point_occupied (row col : Z) (* "Point (row = {}, col = {}) already occupied" *)
  | parent_not_table.    (* "The cell parent is not this table" *)

Inductive Exn :=
  | ValueError (msg : Message)
  | AssertionError
  | IndexError
  | NoSuchObject. (* a reference to no object: cannot arise in Python *)

(** [range(a, b)] *)
Definition range (a b : Z) : list Z :=
  (fun i : nat => a + Z.of_nat i) <$> seq 0 (Z.to_nat (b - a)).

(** [enumerate(l)] *)
Definition enumerate {A} (l : list A) : list (Z * A) :=
  imap (fun i x => (Z.of_nat i, x)) l.

(** [l[i]]: a negative index counts from the end, an index out of range
    raises [IndexError]. *)
Definition norm_index {A} (l : list A) (i : Z) : Z :=
  if i <? 0 then i + Z.of_nat (length l) else i.

Definition getitem {A} (l : list A) (i : Z) : Exn + A :=
  let j := norm_index l i in
  if (0 <=? j) && (j <? Z.of_nat (length l)) then
    match l !! Z.to_nat j with
    | Some x => inr x
    | None => inl IndexError
    end
  else inl IndexError.

(** [l[i] = x] *)
Definition setitem {A} (l : list A) (i : Z) (x : A) : Exn + list A :=
  let j := norm_index l i in
  if (0 <=? j) && (j <? Z.of_nat (length l)) then inr (<[Z.to_nat j := x]> l)
  else inl IndexError.

(** [list.sort(key=...)] with keys that are pairs of integers: Python
    compares tuples lexicographically and its sort is stable.  A stable
    sort has one possible result, here computed by insertion. *)
Definition key_lt (a b : Z * Z) : bool :=
  (a.1 <? b.1) || ((a.1 =? b.1) && (a.2 <? b.2)).

Fixpoint insert_by_key {A} (x : (Z * Z) * A) (l : list ((Z * Z) * A))
  : list ((Z * Z) * A) :=
  match l with
  | [] => [x]
  | y :: l' => if key_lt y.1 x.1 then y :: insert_by_key x l' else x :: l
  end.

Fixpoint sort_by_key {A} (l : list ((Z * Z) * A)) : list ((Z * Z) * A) :=
  match l with
  | [] => []
  | x :: l' => insert_by_key x (sort_by_key l')
  end.

(** ** The heap *)

(** A [Cell] is a [Rect] with a [parent] and a list of paragraphs; a
    [TextParagraph] is opaque but for its [parent]. *)
Record CellObj := mkCell {
  cell_rect : Rect;
  parent : option nat;
  _paragraphs : list nat
}.

Record ParagraphObj := mkParagraph { paragraph_parent : option nat }.

Record TableObj := mkTable {
  table_rect : Rect;
  table_parent : option nat;
  _cells : list nat;
  _board : list (list Z);
  _occupied_area : Z
}.

(** [Cell] and [Table] inherit from [Rect]. *)
Coercion cell_rect : CellObj >-> Rect.
Coercion table_rect : TableObj >-> Rect.

Record Heap := mkHeap {
  cells : gmap nat CellObj;
  tables : gmap nat TableObj;
  paragraphs : gmap nat ParagraphObj
}.

Definition empty_heap : Heap := mkHeap ∅ ∅ ∅.

Definition set_parent (c : CellObj) (p : option nat) : CellObj :=
  mkCell (cell_rect c) p (_paragraphs c).
Definition set_paragraphs (c : CellObj) (ps : list nat) : CellObj :=
  mkCell (cell_rect c) (parent c) ps.
Definition set_cells (t : TableObj) (cs : list nat) : TableObj :=
  mkTable (table_rect t) (table_parent t) cs (_board t) (_occupied_area t).
Definition set_board (t : TableObj) (b : list (list Z)) : TableObj :=
  mkTable (table_rect t) (table_parent t) (_cells t) b (_occupied_area t).
Definition set_occupied_area (t : TableObj) (a : Z) : TableObj :=
  mkTable (table_rect t) (table_parent t) (_cells t) (_board t) a.

Definition upd_cell (h : Heap) (r : nat) (c : CellObj) : Heap :=
  mkHeap (<[r := c]> (cells h)) (tables h) (paragraphs h).
Definition upd_table (h : Heap) (r : nat) (t : TableObj) : Heap :=
  mkHeap (cells h) (<[r := t]> (tables h)) (paragraphs h).
Definition upd_paragraph (h : Heap) (r : nat) (p : ParagraphObj) : Heap :=
  mkHeap (cells h) (tables h) (<[r := p]> (paragraphs h)).

(** ** The monad of methods: heap state and exceptions *)

Definition M (A : Type) : Type := Heap -> Heap * (Exn + A).

Definition ret {A} (a : A) : M A := fun h => (h, inr a).

Definition bind {A B} (m : M A) (f : A -> M B) : M B := fun h =>
  match m h with
  | (h', inr a) => f a h'
  | (h', inl e) => (h', inl e)
  end.

Declare Scope M_scope.
Delimit Scope M_scope with M.
Bind Scope M_scope with M.
Notation "x ← y ; z" := (bind y (fun x => z))
  (at level 20, y at level 100, z at level 200, only parsing) : M_scope.
Notation "' x ← y ; z" := (bind y (fun x => z))
  (at level 20, x pattern, y at level 100, z at level 200, only parsing)
  : M_scope.
Notation "x ;; z" := (bind x (fun _ => z))
  (at level 100, z at level 200, only parsing, right associativity) : M_scope.
Open Scope M_scope.

Definition raise {A} (e : Exn) : M A := fun h => (h, inl e).

(** A computation that does not touch the heap. *)
Definition lift {A} (r : Exn + A) : M A := fun h => (h, r).

Definition get_cell (r : nat) : M CellObj := fun h =>
  match cells h !! r with
  | Some c => (h, inr c)
  | None => (h, inl NoSuchObject)
  end.
Definition get_table (r : nat) : M TableObj := fun h =>
  match tables h !! r with
  | Some t => (h, inr t)
  | None => (h, inl NoSuchObject)
  end.
Definition get_paragraph (r : nat) : M ParagraphObj := fun h =>
  match paragraphs h !! r with
  | Some p => (h, inr p)
  | None => (h, inl NoSuchObject)
  end.

Definition put_cell (r : nat) (c : CellObj) : M unit :=
  fun h => (upd_cell h r c, inr ()).
Definition put_table (r : nat) (t : TableObj) : M unit :=
  fun h => (upd_table h r t, inr ()).
Definition put_paragraph (r : nat) (p : ParagraphObj) : M unit :=
  fun h => (upd_paragraph h r p, inr ()).

(** [for x in l: body(x)] *)
Fixpoint for_in {A} (l : list A) (body : A -> M unit) : M unit :=
  match l with
  | [] => ret ()
  | x :: l' => body x ;; for_in l' body
  end.

(** The keys of a [sort(key=...)] are computed for every element first. *)
Fixpoint map_M {A B} (f : A -> M B) (l : list A) : M (list B) :=
  match l with
  | [] => ret []
  | x :: l' => y ← f x; ys ← map_M f l'; ret (y :: ys)
  end.

Definition list_sort {A} (key : A -> M (Z * Z)) (l : list A) : M (list A) :=
  keys ← map_M key l;
  ret ((sort_by_key (zip keys l)).*2).

(** Truth value of an optional reference: [None] is false, an object is
    true. *)
Definition truthy {A} (o : option A) : bool :=
  match o with Some _ => true | None => false end.

(** ** class Table *)

Module Table.

Definition __init__ (self : nat) (row_num col_num : Z) : M unit :=
  put_table self
    {| table_rect := mkRect 0 0 col_num row_num;
       table_parent := None;
       _cells := [];
       _occupied_area := 0;
       _board := (fun y => (fun x => _UNOCCUPIED_CELL) <$> range 0 col_num)
                   <$> range 0 row_num |}.

(** [self._board[row][col]] *)
Definition board_getitem (self : nat) (row col : Z) : M Z :=
  t ← get_table self;
  r ← lift (getitem (_board t) row);
  lift (getitem r col).

(** [self._board[row][col] = v]: the row is a list of its own, updated in
    place. *)
Definition board_setitem (self : nat) (row col v : Z) : M unit :=
  t ← get_table self;
  r ← lift (getitem (_board t) row);
  r' ← lift (setitem r col v);
  b' ← lift (setitem (_board t) row r');
  put_table self (set_board t b').

Definition _fill_board (self cell : nat) (idx : Z) : M unit :=
  c ← get_cell cell;
  for_in (range (top c) (bottom c + 1)) (fun row =>
    for_in (range (left c) (right c + 1)) (fun col =>
      board_setitem self row col idx));;
  t ← get_table self;
  put_table self (set_occupied_area t (_occupied_area t + area c)).

Definition add_cell (self cell : nat) : M nat :=
  t ← get_table self;
  c ← get_cell cell;
  if negb (contains t c) then raise (ValueError cell_not_inside) else
  for_in (range (top c) (bottom c + 1)) (fun row =>
    for_in (range (left c) (right c + 1)) (fun col =>
      v ← board_getitem self row col;
      if bool_decide (v ≠ _UNOCCUPIED_CELL)
      then raise (ValueError (point_occupied row col))
      else ret ()));;
  put_cell cell (set_parent c (Some self));;
  t ← get_table self;
  put_table self (set_cells t (_cells t ++ [cell]));;
  t ← get_table self;
  sorted ← list_sort (fun cell => c ← get_cell cell; ret (top c, left c))
                     (_cells t);
  put_table self (set_cells t sorted);;
  t ← get_table self;
  put_table self (set_occupied_area t 0);;
  t ← get_table self;
  for_in (enumerate (_cells t)) (fun '(i, _cell) =>
    _fill_board self _cell i);;
  ret self.

Definition ready_to_move (self : nat) : M bool :=
  t ← get_table self;
  ret (bool_decide (_occupied_area t = area t)).

(** The coordinate [(x, y)] that [move] looks at. *)
Definition probe (c : Rect) (direction : Direction) : Z * Z :=
  match direction with
  | UP => (left c, top c - 1)
  | DOWN => (left c, bottom c + 1)
  | LEFT => (left c - 1, top c)
  | RIGHT => (right c + 1, top c)
  end.

Definition move (self cell : nat) (direction : Direction) : M (option nat) :=
  ready ← ready_to_move self;
  if negb ready then raise AssertionError else
  c ← get_cell cell;
  if bool_decide (parent c ≠ Some self)
  then raise (ValueError parent_not_table) else
  let '(x, y) := probe c direction in
  t ← get_table self;
  if contains_point t x y then
    r ← lift (getitem (_board t) y);
    i ← lift (getitem r x);
    res ← lift (getitem (_cells t) i);
    ret (Some res)
  else ret None.

End Table.

(** ** class Cell *)

Module Cell.

Definition __init__ (self : nat) (rect : Rect) : M unit :=
  put_cell self
    {| parent := None;
       _paragraphs := [];
       cell_rect := mkRect (left rect) (top rect) (width rect) (height rect) |}.

(** The first line is the look-up of the receiver, which a method call
    starts with. *)
Definition append_paragraph (self paragraph : nat) : M nat :=
  c ← get_cell self;
  p ← get_paragraph paragraph;
  if truthy (paragraph_parent p)
  then raise (ValueError paragraph_has_parent) else
  put_paragraph paragraph {| paragraph_parent := Some self |};;
  c ← get_cell self;
  put_cell self (set_paragraphs c (_paragraphs c ++ [paragraph]));;
  ret self.

Definition move (self : nat) (direction : Direction) : M (option nat) :=
  c ← get_cell self;
  match parent c with
  | None => raise AssertionError
  | Some p => Table.move p self direction
  end.

End Cell.

(** [TextParagraph()]: only the [parent] attribute matters here. *)
Definition TextParagraph__init__ (self : nat) : M unit :=
  put_paragraph self {| paragraph_parent := None |}.

(** ** [to_dict] *)

(** The values [to_dict] builds: strings, lists, and dicts with string
    keys, in the order of insertion. *)
Inductive PyVal :=
  | PyStr (s : string)
  | PyList (l : list PyVal)
  | PyDict (d : list (string * PyVal)).

(** [Cell.to_dict].  Modelled from the spec: [Rect.to_dict] (the
    [super().to_dict()] of the source) and [TextParagraph.to_dict] are not
    in the source; the spec has their records opaque, and they are the
    parameters [Rect_to_dict] and [Paragraph_to_dict] here. *)
Definition Cell_to_dict (Rect_to_dict : Rect -> PyVal)
    (Paragraph_to_dict : nat -> PyVal) (self : nat) : M PyVal :=
  c ← get_cell self;
  ps ← map_M (fun p => _ ← get_paragraph p; ret (Paragraph_to_dict p))
             (_paragraphs c);
  ret (PyDict [("type", PyStr "cell");
               ("rect", Rect_to_dict c);
               ("paragraphs", PyList ps)]%string).

(** [Table.to_dict] *)
Definition Table_to_dict (Rect_to_dict : Rect -> PyVal)
    (Paragraph_to_dict : nat -> PyVal) (self : nat) : M PyVal :=
  t ← get_table self;
  cs ← map_M (Cell_to_dict Rect_to_dict Paragraph_to_dict) (_cells t);
  ret (PyDict [("type", PyStr "table"); ("cells", PyList cs)]%string).

(** The record of a cell. *)
Definition cell_record (Rect_to_dict : Rect -> PyVal)
    (Paragraph_to_dict : nat -> PyVal) (c : CellObj) : PyVal :=
  PyDict [("type", PyStr "cell");
          ("rect", Rect_to_dict c);
          ("paragraphs", PyList (Paragraph_to_dict <$> _paragraphs c))]%string.

(** ** Calls of the public interface and the heaps they reach *)

Inductive Call :=
  | new_Cell (self : nat) (rect : Rect)           (* Cell(rect) *)
  | new_TextParagraph (self : nat)                (* TextParagraph() *)
  | new_Table (self : nat) (row_num col_num : Z)  (* Table(row_num, col_num) *)
  | do_add_cell (self cell : nat)
  | do_append_paragraph (self paragraph : nat)
  | do_ready_to_move (self : nat)
  | do_Table_move (self cell : nat) (direction : Direction)
  | do_Cell_move (self : nat) (direction : Direction).

(** The heap after a computation, and what it returned or raised. *)
Definition run {A} (m : M A) (h : Heap) : Heap := (m h).1.
Definition result {A} (m : M A) (h : Heap) : Exn + A := (m h).2.

(** A caller that goes on after an exception. *)
Definition exec (c : Call) (h : Heap) : Heap :=
  match c with
  | new_Cell self rect => run (Cell.__init__ self rect) h
  | new_TextParagraph self => run (TextParagraph__init__ self) h
  | new_Table self row_num col_num => run (Table.__init__ self row_num col_num) h
  | do_add_cell self cell => run (Table.add_cell self cell) h
  | do_append_paragraph self paragraph =>
      run (Cell.append_paragraph self paragraph) h
  | do_ready_to_move self => run (Table.ready_to_move self) h
  | do_Table_move self cell direction => run (Table.move self cell direction) h
  | do_Cell_move self direction => run (Cell.move self direction) h
  end.

(** A constructor initialises a new object, with arguments in the ranges of
    the data model: sizes are not negative. *)
Definition valid_call (h : Heap) (c : Call) : bool :=
  match c with
  | new_Cell self rect =>
      bool_decide (cells h !! self = None) &&
      (0 <=? width rect) && (0 <=? height rect)
  | new_TextParagraph self => bool_decide (paragraphs h !! self = None)
  | new_Table self row_num col_num =>
      bool_decide (tables h !! self = None) &&
      (0 <=? row_num) && (0 <=? col_num)
  | _ => true
  end.

Inductive reachable : Heap -> Prop :=
  | reachable_empty : reachable empty_heap
  | reachable_step h c :
      reachable h -> valid_call h c = true -> reachable (exec c h).

Fixpoint exec_all (cs : list Call) (h : Heap) : Heap :=
  match cs with
  | [] => h
  | c :: cs' => exec_all cs' (exec c h)
  end.

Fixpoint valid_calls (cs : list Call) (h : Heap) : bool :=
  match cs with
  | [] => true
  | c :: cs' => valid_call h c && valid_calls cs' (exec c h)
  end.

(** ** What the board should hold *)

(** The entry of a board at a coordinate of the grid. *)
Definition board_at (b : list (list Z)) (row col : Z) : option Z :=
  match b !! Z.to_nat row with
  | Some r => r !! Z.to_nat col
  | None => None
  end.

(** A board of [rows] rows of [cols] entries. *)
Definition board_dims (b : list (list Z)) (rows cols : nat) : Prop :=
  length b = rows /\ Forall (fun r => length r = cols) b.

Definition set_at (b : list (list Z)) (row col v : Z) : list (list Z) :=
  match b !! Z.to_nat row with
  | Some r => <[Z.to_nat row := <[Z.to_nat col := v]> r]> b
  | None => b
  end.

(** The board after the loops of [_fill_board]. *)
Definition fill_row (b : list (list Z)) (row : Z) (cols : list Z) (v : Z) :=
  foldl (fun b col => set_at b row col v) b cols.
Definition fill_rows (b : list (list Z)) (rows cols : list Z) (v : Z) :=
  foldl (fun b row => fill_row b row cols v) b rows.
Definition fill_rect (b : list (list Z)) (r : Rect) (v : Z) :=
  fill_rows b (range (top r) (bottom r + 1)) (range (left r) (right r + 1)) v.

(** The board after the loop of [add_cell] over [enumerate(self._cells)],
    the first index being [i]. *)
Fixpoint fill_all (b : list (list Z)) (i : nat) (rs : list Rect) :=
  match rs with
  | [] => b
  | r :: rs' => fill_all (fill_rect b r (Z.of_nat i)) (S i) rs'
  end.

(** The first occupied coordinate in row-major order, as the overlap check
    of [add_cell] scans. *)
Definition occupied (b : list (list Z)) (row col : Z) : bool :=
  bool_decide (board_at b row col ≠ Some _UNOCCUPIED_CELL).

Fixpoint scan (b : list (list Z)) (rows cols : list Z) : option (Z * Z) :=
  match rows with
  | [] => None
  | row :: rows' =>
      match find (occupied b row) cols with
      | Some col => Some (row, col)
      | None => scan b rows' cols
      end
  end.

Definition scan_rect (b : list (list Z)) (r : Rect) : option (Z * Z) :=
  scan b (range (top r) (bottom r + 1)) (range (left r) (right r + 1)).

Definition scan_result (o : option (Z * Z)) : Exn + unit :=
  match o with
  | Some (row, col) => inl (ValueError (point_occupied row col))
  | None => inr ()
  end.

(** A rectangle with [left = top = 0] and its grid. *)
Definition grid_of (t : Rect) (rows cols : nat) : Prop :=
  left t = 0 /\ top t = 0 /\
  width t = Z.of_nat cols /\ height t = Z.of_nat rows.

(** The index of the first rectangle of a list that covers a coordinate, or
    the unoccupied marker. *)
Definition owner (rs : list Rect) (row col : Z) : Z :=
  match list_find (fun r => covers r row col = true) rs with
  | Some (i, _) => Z.of_nat i
  | None => _UNOCCUPIED_CELL
  end.

Definition disjoint (r1 r2 : Rect) : Prop :=
  forall row col, ~ (covers r1 row col = true /\ covers r2 row col = true).

Definition key (r : Rect) : Z * Z := (top r, left r).
Definition key_le (a b : Z * Z) : Prop := key_lt b a = false.

(** The cells of a table next to their rectangles, under their keys. *)
Definition decorated (cs : list nat) (rs : list Rect)
  : list ((Z * Z) * (nat * Rect)) :=
  (fun p => (key p.2, p)) <$> zip cs rs.

(** Ascending order of (top, left). *)
Definition lex_le (r1 r2 : Rect) : Prop :=
  top r1 < top r2 \/ (top r1 = top r2 /\ left r1 <= left r2).

(** The rectangle of a cell of the heap. *)
Definition rect_of (h : Heap) (cell : nat) : option Rect :=
  cell_rect <$> cells h !! cell.

(** Insertion behind the elements of smaller or equal key: what a stable
    sort does with an element appended to a sorted list. *)
Fixpoint insert_last {A} (x : (Z * Z) * A) (l : list ((Z * Z) * A))
  : list ((Z * Z) * A) :=
  match l with
  | [] => [x]
  | y :: l' => if key_lt x.1 y.1 then x :: l else y :: insert_last x l'
  end.

(** The key of a cell of the heap, and the cell under its key. *)
Definition cell_key (h : Heap) (cell : nat) : Z * Z :=
  match rect_of h cell with
  | Some r => key r
  | None => (0, 0)
  end.

Definition keyed (h : Heap) (cell : nat) : (Z * Z) * nat :=
  (cell_key h cell, cell).

(** ** The invariant of a table *)

Record table_inv (h : Heap) (t : TableObj) (rs : list Rect) : Prop := {
  inv_left : left t = 0;
  inv_top : top t = 0;
  inv_width : 0 <= width t;
  inv_height : 0 <= height t;
  inv_rows : length (_board t) = Z.to_nat (height t);
  inv_cols : Forall (fun r => length r = Z.to_nat (width t)) (_board t);
  inv_rects : Forall2 (fun cell r => rect_of h cell = Some r) (_cells t) rs;
  inv_wf : Forall Rect_wf rs;
  inv_inside : Forall (fun r => contains t r = true) rs;
  inv_disjoint : ForallOrdPairs disjoint rs;
  inv_sorted : Sorted (fun r1 r2 => key_le (key r1) (key r2)) rs;
  inv_board : forall row col,
      0 <= row < height t -> 0 <= col < width t ->
      board_at (_board t) row col = Some (owner rs row col);
  inv_area : _occupied_area t = foldr (fun r a => area r + a) 0 rs
}.

Definition heap_inv (h : Heap) : Prop :=
  (forall self t, tables h !! self = Some t -> exists rs, table_inv h t rs) /\
  (forall cell c, cells h !! cell = Some c -> Rect_wf (cell_rect c)).

(** What a call of [add_cell] can do in a heap. *)
Inductive add_cell_outcome (h : Heap) (self cell : nat)
  : Heap * (Exn + nat) -> Prop :=
  | add_no_table :
      tables h !! self = None ->
      add_cell_outcome h self cell (h, inl NoSuchObject)
  | add_no_cell :
      cells h !! cell = None ->
      add_cell_outcome h self cell (h, inl NoSuchObject)
  | add_not_inside (t : TableObj) (c : CellObj) :
      tables h !! self = Some t -> cells h !! cell = Some c ->
      contains t c = false ->
      add_cell_outcome h self cell (h, inl (ValueError cell_not_inside))
  | add_occupied (t : TableObj) (c : CellObj) rs row col :
      tables h !! self = Some t -> cells h !! cell = Some c ->
      table_inv h t rs ->
      contains t c = true ->
      scan_rect (_board t) c = Some (row, col) ->
      add_cell_outcome h self cell
        (h, inl (ValueError (point_occupied row col)))
  | add_done (t : TableObj) (c : CellObj) rs t' rs' :
      tables h !! self = Some t -> cells h !! cell = Some c ->
      table_inv h t rs ->
      contains t c = true ->
      scan_rect (_board t) c = None ->
      table_inv (upd_table (upd_cell h cell (set_parent c (Some self))) self t')
                t' rs' ->
      rs' ≡ₚ rs ++ [cell_rect c] ->
      table_rect t' = table_rect t ->
      _cells t' ≡ₚ _cells t ++ [cell] ->
      add_cell_outcome h self cell
        (upd_table (upd_cell h cell (set_parent c (Some self))) self t',
         inr self).

(** ** Counting covered coordinates *)

Fixpoint sum_upto (n : nat) (f : nat -> Z) : Z :=
  match n with
  | O => 0
  | S n' => sum_upto n' f + f n'
  end.

Definition grid_count (rows cols : nat) (P : Z -> Z -> bool) : Z :=
  sum_upto rows (fun r =>
    sum_upto cols (fun c => if P (Z.of_nat r) (Z.of_nat c) then 1 else 0)).

Definition covered (rs : list Rect) (row col : Z) : bool :=
  existsb (fun r => covers r row col) rs.

(** ** What one call does to the heap *)

(** The heap after a call of the interface: the same heap (a query, or a
    call that raised), a new object, a cell inserted, or a paragraph
    appended. *)
Inductive effect (h : Heap) : Heap -> Prop :=
  | effect_none : effect h h
  | effect_new_Cell self rect :
      cells h !! self = None -> Rect_wf rect ->
      effect h
        (upd_cell h self
           (mkCell (mkRect (left rect) (top rect) (width rect) (height rect))
                   None []))
  | effect_new_TextParagraph self :
      paragraphs h !! self = None ->
      effect h (upd_paragraph h self (mkParagraph None))
  | effect_new_Table self (t : TableObj) :
      tables h !! self = None -> _cells t = [] -> table_inv h t [] ->
      effect h (upd_table h self t)
  | effect_add_cell self cell (t : TableObj) (c : CellObj) rs t' rs' :
      tables h !! self = Some t -> cells h !! cell = Some c ->
      table_inv h t rs ->
      contains t c = true ->
      scan_rect (_board t) c = None ->
      table_inv (upd_table (upd_cell h cell (set_parent c (Some self))) self t')
                t' rs' ->
      rs' ≡ₚ rs ++ [cell_rect c] ->
      table_rect t' = table_rect t ->
      _cells t' ≡ₚ _cells t ++ [cell] ->
      effect h (upd_table (upd_cell h cell (set_parent c (Some self))) self t')
  | effect_append_paragraph self paragraph (c : CellObj) p :
      cells h !! self = Some c -> paragraphs h !! paragraph = Some p ->
      paragraph_parent p = None ->
      effect h
        (upd_cell (upd_paragraph h paragraph (mkParagraph (Some self))) self
           (set_paragraphs c (_paragraphs c ++ [paragraph]))).

(** ** Ownership *)

(** The back-references agree with the lists: the parent of a cell is a
    table that lists the cell, the paragraphs of a cell have the cell as
    parent and occur once, and the parent of a paragraph is a cell that
    lists the paragraph. *)
Record own_inv (h : Heap) : Prop := {
  own_cell_parent : forall cell (c : CellObj) p,
      cells h !! cell = Some c -> parent c = Some p ->
      exists t : TableObj, tables h !! p = Some t /\ cell ∈ _cells t;
  own_paragraphs : forall cell (c : CellObj) q,
      cells h !! cell = Some c -> q ∈ _paragraphs c ->
      paragraphs h !! q = Some (mkParagraph (Some cell));
  own_NoDup : forall cell (c : CellObj),
      cells h !! cell = Some c -> NoDup (_paragraphs c);
  own_paragraph_parent : forall q po cell,
      paragraphs h !! q = Some po -> paragraph_parent po = Some cell ->
      exists c : CellObj, cells h !! cell = Some c /\ q ∈ _paragraphs c
}.

(** The direction back. *)
Definition opposite (d : Direction) : Direction :=
  match d with
  | UP => DOWN
  | DOWN => UP
  | LEFT => RIGHT
  | RIGHT => LEFT
  end.

(** ** A small scenario: the merged-cell table of the spec *)

(** Table 0 has two rows and two columns; cell 0 is the merged first row,
    cells 1 and 2 are the second row. *)
Definition merged_calls : list Call :=
  [ new_Table 0 2 2;
    new_Cell 0 (mkRect 0 0 2 1);
    new_Cell 1 (mkRect 0 1 1 1);
    new_Cell 2 (mkRect 1 1 1 1);
    do_add_cell 0 2;
    do_add_cell 0 0;
    do_add_cell 0 1 ].

Definition merged_table : Heap := exec_all merged_calls empty_heap.

(** The table of the merged-cell scenario after its three insertions. *)
Definition merged_table_obj : TableObj :=
  mkTable (mkRect 0 0 2 2) None [0; 1; 2]%nat [[0; 0]; [1; 2]] 4.

(** A table with two cells on a diagonal, and a cell over the whole grid:
    (0, 0) is free, (0, 1) and (1, 0) are occupied, and the error names
    (0, 1). *)
Definition overlap_calls : list Call :=
  [ new_Table 0 2 2;
    new_Cell 0 (mkRect 0 1 1 1);
    new_Cell 1 (mkRect 1 0 1 1);
    new_Cell 2 (mkRect 0 0 2 2);
    do_add_cell 0 0;
    do_add_cell 0 1 ].

Definition overlap_table : Heap := exec_all overlap_calls empty_heap.

Definition overlap_table_obj : TableObj :=
  mkTable (mkRect 0 0 2 2) None [1; 0]%nat [[-1; 0]; [1; -1]] 2.

(** A cell that was never inserted is foreign to the merged-cell table. *)
Definition foreign_calls : list Call :=
  merged_calls ++ [new_Cell 3 (mkRect 0 0 1 1)].

Definition foreign_heap : Heap := exec_all foreign_calls empty_heap.

(** A paragraph appended to cell 0 is refused by cell 1. *)
Definition paragraph_calls : list Call :=
  [ new_Cell 0 (mkRect 0 0 1 1);
    new_Cell 1 (mkRect 1 0 1 1);
    new_TextParagraph 0;
    do_append_paragraph 0 0 ].

Definition paragraph_heap : Heap := exec_all paragraph_calls empty_heap.

(** Two tables of one row and one column, and one cell inserted into the
    first. *)
Definition reparent_calls : list Call :=
  [ new_Table 0 1 1;
    new_Table 1 1 1;
    new_Cell 0 (mkRect 0 0 1 1);
    do_add_cell 0 0 ].

Definition reparent_heap : Heap := exec_all reparent_calls empty_heap.

(** Table 0 has two rows and two columns and four cells of one coordinate
    each; cell [2 * row + col] is at [(row, col)]. *)
Definition square_calls : list Call :=
  [ new_Table 0 2 2;
    new_Cell 0 (mkRect 0 0 1 1);
    new_Cell 1 (mkRect 1 0 1 1);
    new_Cell 2 (mkRect 0 1 1 1);
    new_Cell 3 (mkRect 1 1 1 1);
    do_add_cell 0 3;
    do_add_cell 0 0;
    do_add_cell 0 2;
    do_add_cell 0 1 ].

Definition square_table : Heap := exec_all square_calls empty_heap.

(** The heap of the merged-cell scenario with cell 2 inserted only. *)
Definition merged_start : Heap :=
  exec_all [ new_Table 0 2 2;
             new_Cell 0 (mkRect 0 0 2 1);
             new_Cell 1 (mkRect 0 1 1 1);
             new_Cell 2 (mkRect 1 1 1 1);
             do_add_cell 0 2 ] empty_heap.

(** The last insertion of the merged-cell scenario, seen from the heap
    before it. *)
Definition merged_before : Heap :=
  exec_all [ new_Table 0 2 2;
             new_Cell 0 (mkRect 0 0 2 1);
             new_Cell 1 (mkRect 0 1 1 1);
             new_Cell 2 (mkRect 1 1 1 1);
             do_add_cell 0 2;
             do_add_cell 0 0 ] empty_heap.

Definition merged_before_obj : TableObj :=
  mkTable (mkRect 0 0 2 2) None [0; 2]%nat [[0; 0]; [-1; 1]] 3.

(** * Proofs *)

(** ** The model at work *)

Example range_example : range 2 5 = [2; 3; 4] /\ range 3 3 = [] /\ range 3 1 = [].
Proof. repeat split; reflexivity. Qed.

Example getitem_negative :
  getitem [10; 20; 30] (-1) = inr 30 /\ getitem [10; 20; 30] 3 = inl IndexError /\
  getitem [10; 20; 30] (-4) = inl IndexError.
Proof. repeat split; reflexivity. Qed.

Example setitem_negative :
  setitem [10; 20; 30] (-3) 7 = inr [7; 20; 30] /\
  setitem [10; 20; 30] 3 7 = inl IndexError.
Proof. repeat split; reflexivity. Qed.

(** Equal keys keep their order. *)
Example sort_by_key_stable :
  (sort_by_key [((1, 0), 1%nat); ((0, 5), 2%nat); ((1, 0), 3%nat);
                ((0, 2), 4%nat)]).*2
  = [4; 2; 1; 3]%nat.
Proof. reflexivity. Qed.

Example square_table_moves :
  result (Table.ready_to_move 0) square_table = inr true /\
  result (Table.move 0 0 RIGHT) square_table = inr (Some 1%nat) /\
  result (Table.move 0 0 DOWN) square_table = inr (Some 2%nat) /\
  result (Table.move 0 0 UP) square_table = inr None /\
  result (Table.move 0 0 LEFT) square_table = inr None /\
  result (Cell.move 3 UP) square_table = inr (Some 1%nat).
Proof. vm_compute. repeat split; reflexivity. Qed.

(** [move] before the table is full fails its assertion. *)
Example overlap_table_not_ready :
  result (Table.ready_to_move 0) overlap_table = inr false /\
  result (Table.move 0 0 UP) overlap_table = inl AssertionError.
Proof. vm_compute. split; reflexivity. Qed.

Example merged_table_board :
  (_board <$> tables merged_table !! 0%nat) = Some [[0; 0]; [1; 2]] /\
  (_cells <$> tables merged_table !! 0%nat) = Some [0; 1; 2]%nat.
Proof. vm_compute. split; reflexivity. Qed.

Example merged_table_down :
  result (Table.move 0 0 DOWN) merged_table = inr (Some 1%nat).
Proof. vm_compute. reflexivity. Qed.

(** ** Ranges and indexing *)

Lemma range_lookup a b (i : nat) x :
  range a b !! i = Some x <-> x = a + Z.of_nat i /\ (i < Z.to_nat (b - a))%nat.
Proof.
  unfold range. rewrite list_lookup_fmap. split.
  - destruct (seq 0 (Z.to_nat (b - a)) !! i) as [k|] eqn:E; simpl; [|done].
    apply lookup_seq in E as [-> ?]. intros [= <-]. split; [f_equal|]; lia.
  - intros [-> Hi]. by rewrite (lookup_seq_lt _ _ _ Hi).
Qed.

Lemma elem_of_range a b x : x ∈ range a b <-> a <= x < b.
Proof.
  rewrite list_elem_of_lookup. split.
  - intros [i [-> Hi]%range_lookup]. lia.
  - intros Hx. exists (Z.to_nat (x - a)). apply range_lookup. lia.
Qed.

Lemma getitem_lookup {A} (l : list A) i x :
  0 <= i -> l !! Z.to_nat i = Some x -> getitem l i = inr x.
Proof.
  intros Hi Hl. pose proof (lookup_lt_Some _ _ _ Hl) as Hlen.
  unfold getitem, norm_index.
  destruct (Z.ltb_spec i 0); [lia|].
  destruct (Z.leb_spec 0 i); [|lia].
  destruct (Z.ltb_spec i (Z.of_nat (length l))); [|lia].
  simpl. by rewrite Hl.
Qed.

Lemma setitem_insert {A} (l : list A) i x :
  0 <= i < Z.of_nat (length l) -> setitem l i x = inr (<[Z.to_nat i := x]> l).
Proof.
  intros Hi. unfold setitem, norm_index.
  destruct (Z.ltb_spec i 0); [lia|].
  destruct (Z.leb_spec 0 i); [|lia].
  destruct (Z.ltb_spec i (Z.of_nat (length l))); [|lia].
  done.
Qed.

(** ** Boards *)

Lemma board_at_is_Some b rows cols row col :
  board_dims b rows cols ->
  0 <= row < Z.of_nat rows -> 0 <= col < Z.of_nat cols ->
  exists r v, b !! Z.to_nat row = Some r /\ r !! Z.to_nat col = Some v /\
              length r = cols /\ board_at b row col = Some v.
Proof.
  intros [Hlen Hall] Hrow Hcol. unfold board_at.
  destruct (lookup_lt_is_Some_2 b (Z.to_nat row)) as [r Hr]; [lia|].
  assert (length r = cols) as Hr'.
  { by apply (Forall_lookup_1 _ _ _ _ Hall Hr). }
  destruct (lookup_lt_is_Some_2 r (Z.to_nat col)) as [v Hv]; [lia|].
  exists r, v. by rewrite Hr.
Qed.

Lemma set_at_dims b rows cols row col v :
  board_dims b rows cols -> board_dims (set_at b row col v) rows cols.
Proof.
  intros [Hlen Hall]. unfold set_at.
  destruct (b !! Z.to_nat row) as [r|] eqn:Hr; [|done].
  split; [by rewrite length_insert|].
  apply Forall_insert; [done|]. rewrite length_insert.
  by apply (Forall_lookup_1 _ _ _ _ Hall Hr).
Qed.

Lemma board_at_set_at b rows cols row col v row' col' :
  board_dims b rows cols ->
  0 <= row < Z.of_nat rows -> 0 <= col < Z.of_nat cols ->
  0 <= row' -> 0 <= col' ->
  board_at (set_at b row col v) row' col' =
    if decide (row' = row /\ col' = col) then Some v else board_at b row' col'.
Proof.
  intros Hd Hrow Hcol Hrow' Hcol'.
  destruct (board_at_is_Some _ _ _ _ _ Hd Hrow Hcol) as (r & w & Hr & Hw & Hlr & _).
  unfold set_at, board_at. rewrite Hr.
  destruct (decide (Z.to_nat row' = Z.to_nat row)) as [E|E].
  - rewrite E, list_lookup_insert_eq by (destruct Hd; lia). rewrite Hr.
    destruct (decide (Z.to_nat col' = Z.to_nat col)) as [E'|E'].
    + rewrite E', list_lookup_insert_eq by lia.
      rewrite decide_True; [done|lia].
    + rewrite list_lookup_insert_ne by done.
      rewrite decide_False; [done|lia].
  - rewrite list_lookup_insert_ne by done.
    rewrite decide_False; [done|lia].
Qed.

Lemma fill_row_dims b rows cols row cs v :
  board_dims b rows cols -> board_dims (fill_row b row cs v) rows cols.
Proof.
  unfold fill_row. revert b.
  induction cs as [|c cs IH]; intros b Hd; simpl; [done|].
  apply IH. by apply set_at_dims.
Qed.

Lemma board_at_fill_row b rows cols row cs v row' col' :
  board_dims b rows cols ->
  0 <= row < Z.of_nat rows -> Forall (fun c => 0 <= c < Z.of_nat cols) cs ->
  0 <= row' -> 0 <= col' ->
  board_at (fill_row b row cs v) row' col' =
    if decide (row' = row /\ col' ∈ cs) then Some v else board_at b row' col'.
Proof.
  intros Hd Hrow Hcs Hrow' Hcol'. unfold fill_row. revert b Hd.
  induction Hcs as [|c cs Hc Hcs IH]; intros b Hd; cbn [foldl].
  - case_decide as H; [|done]. by destruct H as [_ ?%elem_of_nil].
  - rewrite IH by (by apply set_at_dims).
    rewrite (board_at_set_at _ rows cols) by done.
    repeat case_decide; try done; exfalso; set_unfold; naive_solver.
Qed.

Lemma fill_rows_dims b rows cols rs cs v :
  board_dims b rows cols -> board_dims (fill_rows b rs cs v) rows cols.
Proof.
  unfold fill_rows. revert b.
  induction rs as [|r rs IH]; intros b Hd; simpl; [done|].
  apply IH. by apply fill_row_dims.
Qed.

Lemma board_at_fill_rows b rows cols rs cs v row' col' :
  board_dims b rows cols ->
  Forall (fun r => 0 <= r < Z.of_nat rows) rs ->
  Forall (fun c => 0 <= c < Z.of_nat cols) cs ->
  0 <= row' -> 0 <= col' ->
  board_at (fill_rows b rs cs v) row' col' =
    if decide (row' ∈ rs /\ col' ∈ cs) then Some v else board_at b row' col'.
Proof.
  intros Hd Hrs Hcs Hrow' Hcol'. unfold fill_rows. revert b Hd.
  induction Hrs as [|r rs Hr Hrs IH]; intros b Hd; cbn [foldl].
  - case_decide as H; [|done]. by destruct H as [?%elem_of_nil _].
  - rewrite IH by (by apply fill_row_dims).
    rewrite (board_at_fill_row _ rows cols) by done.
    repeat case_decide; try done; exfalso; set_unfold; naive_solver.
Qed.

(** ** Running computations *)

Lemma bind_inr {A B} (m : M A) (f : A -> M B) h h' a :
  m h = (h', inr a) -> bind m f h = f a h'.
Proof. intros E. unfold bind. by rewrite E. Qed.

Lemma bind_inl {A B} (m : M A) (f : A -> M B) h h' e :
  m h = (h', inl e) -> bind m f h = (h', inl e).
Proof. intros E. unfold bind. by rewrite E. Qed.

Lemma get_table_Some h self t :
  tables h !! self = Some t -> get_table self h = (h, inr t).
Proof. intros E. unfold get_table. by rewrite E. Qed.

Lemma get_cell_Some h cell c :
  cells h !! cell = Some c -> get_cell cell h = (h, inr c).
Proof. intros E. unfold get_cell. by rewrite E. Qed.

Lemma upd_table_lookup h self t : tables (upd_table h self t) !! self = Some t.
Proof. apply lookup_insert_eq. Qed.

Lemma upd_table_upd_table h self t t' :
  upd_table (upd_table h self t) self t' = upd_table h self t'.
Proof. unfold upd_table. simpl. by rewrite insert_insert_eq. Qed.

Lemma upd_table_id h self t : tables h !! self = Some t -> upd_table h self t = h.
Proof. intros E. destruct h. unfold upd_table. simpl in *. by rewrite insert_id. Qed.

Lemma set_board_id t : set_board t (_board t) = t.
Proof. by destruct t. Qed.

(** ** The overlap check of [add_cell] *)

Lemma board_getitem_at h self t rows cols row col :
  tables h !! self = Some t ->
  board_dims (_board t) rows cols ->
  0 <= row < Z.of_nat rows -> 0 <= col < Z.of_nat cols ->
  exists v, board_at (_board t) row col = Some v /\
            Table.board_getitem self row col h = (h, inr v).
Proof.
  intros Ht Hd Hrow Hcol.
  destruct (board_at_is_Some _ _ _ _ _ Hd Hrow Hcol) as (r & v & Hr & Hv & _ & Hat).
  exists v. split; [done|]. unfold Table.board_getitem.
  rewrite (bind_inr _ _ _ _ _ (get_table_Some _ _ _ Ht)).
  unfold bind, lift.
  rewrite (getitem_lookup _ _ _ (proj1 Hrow) Hr).
  by rewrite (getitem_lookup _ _ _ (proj1 Hcol) Hv).
Qed.

Lemma check_cols h self t rows cols row cs :
  tables h !! self = Some t ->
  board_dims (_board t) rows cols ->
  0 <= row < Z.of_nat rows -> Forall (fun c => 0 <= c < Z.of_nat cols) cs ->
  for_in cs (fun col =>
    v ← Table.board_getitem self row col;
    if bool_decide (v ≠ _UNOCCUPIED_CELL)
    then raise (ValueError (point_occupied row col))
    else ret ()) h
  = (h, scan_result (pair row <$> find (occupied (_board t) row) cs)).
Proof.
  intros Ht Hd Hrow Hcs.
  induction Hcs as [|c cs Hc Hcs IH]; [done|].
  cbn [for_in find].
  destruct (board_getitem_at _ _ _ _ _ _ _ Ht Hd Hrow Hc) as (v & Hat & Hget).
  unfold occupied at 1. rewrite Hat.
  unfold bind at 1. unfold bind at 1. rewrite Hget.
  assert (bool_decide (Some v ≠ Some _UNOCCUPIED_CELL)
          = bool_decide (v ≠ _UNOCCUPIED_CELL)) as ->.
  { apply bool_decide_ext. split; congruence. }
  destruct (bool_decide (v ≠ _UNOCCUPIED_CELL)); [done|].
  unfold ret at 1. apply IH.
Qed.

Lemma check_rows h self t rows cols rs cs :
  tables h !! self = Some t ->
  board_dims (_board t) rows cols ->
  Forall (fun r => 0 <= r < Z.of_nat rows) rs ->
  Forall (fun c => 0 <= c < Z.of_nat cols) cs ->
  for_in rs (fun row =>
    for_in cs (fun col =>
      v ← Table.board_getitem self row col;
      if bool_decide (v ≠ _UNOCCUPIED_CELL)
      then raise (ValueError (point_occupied row col))
      else ret ())) h
  = (h, scan_result (scan (_board t) rs cs)).
Proof.
  intros Ht Hd Hrs Hcs.
  induction Hrs as [|r rs Hr Hrs IH]; [done|].
  cbn [for_in scan]. unfold bind at 1.
  rewrite (check_cols _ _ _ _ _ _ _ Ht Hd Hr Hcs).
  destruct (find (occupied (_board t) r) cs) as [c|]; [done|].
  apply IH.
Qed.

(** ** The loops of [_fill_board] *)

Lemma board_setitem_at h self t rows cols row col v :
  tables h !! self = Some t ->
  board_dims (_board t) rows cols ->
  0 <= row < Z.of_nat rows -> 0 <= col < Z.of_nat cols ->
  Table.board_setitem self row col v h
  = (upd_table h self (set_board t (set_at (_board t) row col v)), inr ()).
Proof.
  intros Ht Hd Hrow Hcol.
  destruct (board_at_is_Some _ _ _ _ _ Hd Hrow Hcol) as (r & w & Hr & Hw & Hlr & _).
  unfold Table.board_setitem.
  rewrite (bind_inr _ _ _ _ _ (get_table_Some _ _ _ Ht)).
  unfold bind, lift.
  rewrite (getitem_lookup _ _ _ (proj1 Hrow) Hr).
  rewrite setitem_insert by lia.
  rewrite setitem_insert by (destruct Hd; lia).
  unfold put_table, set_at. by rewrite Hr.
Qed.

Lemma fill_cols_loop self rows cols row v cs h t :
  tables h !! self = Some t ->
  board_dims (_board t) rows cols ->
  0 <= row < Z.of_nat rows -> Forall (fun c => 0 <= c < Z.of_nat cols) cs ->
  for_in cs (fun col => Table.board_setitem self row col v) h
  = (upd_table h self (set_board t (fill_row (_board t) row cs v)), inr ()).
Proof.
  intros Ht Hd Hrow Hcs. revert h t Ht Hd.
  induction Hcs as [|c cs Hc Hcs IH]; intros h t Ht Hd.
  - cbn. by rewrite set_board_id, upd_table_id.
  - cbn [for_in]. unfold bind.
    rewrite (board_setitem_at _ _ _ _ _ _ _ _ Ht Hd Hrow Hc).
    rewrite (IH _ _ (upd_table_lookup _ _ _)) by (by apply set_at_dims).
    by rewrite upd_table_upd_table.
Qed.

Lemma fill_rows_loop self rows cols v rs cs h t :
  tables h !! self = Some t ->
  board_dims (_board t) rows cols ->
  Forall (fun r => 0 <= r < Z.of_nat rows) rs ->
  Forall (fun c => 0 <= c < Z.of_nat cols) cs ->
  for_in rs (fun row =>
    for_in cs (fun col => Table.board_setitem self row col v)) h
  = (upd_table h self (set_board t (fill_rows (_board t) rs cs v)), inr ()).
Proof.
  intros Ht Hd Hrs Hcs. revert h t Ht Hd.
  induction Hrs as [|r rs Hr Hrs IH]; intros h t Ht Hd.
  - cbn. by rewrite set_board_id, upd_table_id.
  - cbn [for_in]. unfold bind.
    rewrite (fill_cols_loop _ _ _ _ _ _ _ _ Ht Hd Hr Hcs).
    rewrite (IH _ _ (upd_table_lookup _ _ _)) by (by apply fill_row_dims).
    by rewrite upd_table_upd_table.
Qed.

(** A rectangle inside a grid has its rows and columns inside it. *)
Lemma range_inside lo hi (n : nat) :
  0 <= lo -> hi <= Z.of_nat n - 1 ->
  Forall (fun x => 0 <= x < Z.of_nat n) (range lo (hi + 1)).
Proof.
  intros Hlo Hhi. apply Forall_forall. intros x Hx%elem_of_range. lia.
Qed.

Lemma contains_inside t rows cols r :
  grid_of t rows cols -> contains t r = true ->
  0 <= top r /\ bottom r <= Z.of_nat rows - 1 /\
  0 <= left r /\ right r <= Z.of_nat cols - 1.
Proof.
  intros (Hl & Ht & Hw & Hh). unfold contains, right, bottom.
  rewrite !andb_true_iff, !Z.leb_le. lia.
Qed.

Lemma fill_board_run self cell idx h t (c : CellObj) rows cols :
  tables h !! self = Some t -> cells h !! cell = Some c ->
  board_dims (_board t) rows cols -> grid_of t rows cols ->
  contains t c = true ->
  Table._fill_board self cell idx h
  = (upd_table h self
       (mkTable (table_rect t) (table_parent t) (_cells t)
                (fill_rect (_board t) c idx) (_occupied_area t + area c)),
     inr ()).
Proof.
  intros Ht Hc Hd Hg Hin.
  destruct (contains_inside _ _ _ _ Hg Hin) as (H1 & H2 & H3 & H4).
  unfold Table._fill_board.
  rewrite (bind_inr _ _ _ _ _ (get_cell_Some _ _ _ Hc)).
  unfold bind at 1.
  rewrite (fill_rows_loop _ rows cols _ _ _ _ _ Ht Hd)
    by (by apply range_inside).
  rewrite (bind_inr _ _ _ _ _ (get_table_Some _ _ _ (upd_table_lookup _ _ _))).
  unfold put_table. by rewrite upd_table_upd_table.
Qed.

Lemma fill_rect_dims b rows cols r v :
  board_dims b rows cols -> board_dims (fill_rect b r v) rows cols.
Proof. apply fill_rows_dims. Qed.

Lemma board_at_fill_rect b rows cols t r v row col :
  board_dims b rows cols -> grid_of t rows cols -> contains t r = true ->
  0 <= row -> 0 <= col ->
  board_at (fill_rect b r v) row col =
    if covers r row col then Some v else board_at b row col.
Proof.
  intros Hd Hg Hin Hrow Hcol.
  destruct (contains_inside _ _ _ _ Hg Hin) as (H1 & H2 & H3 & H4).
  unfold fill_rect.
  rewrite (board_at_fill_rows _ rows cols) by (done || by apply range_inside).
  unfold covers.
  case_decide as H; rewrite !elem_of_range in H.
  - destruct H as [[??] [??]].
    repeat (rewrite (proj2 (Z.leb_le _ _)) by lia). done.
  - destruct (_ && _) eqn:E; [|done]. exfalso. apply H.
    rewrite !andb_true_iff, !Z.leb_le in E. lia.
Qed.

(** ** The loop of [add_cell] over [enumerate(self._cells)] *)

Lemma rect_of_upd_table h self t cell :
  rect_of (upd_table h self t) cell = rect_of h cell.
Proof. done. Qed.

Lemma rect_of_Some h cell r :
  rect_of h cell = Some r ->
  exists c : CellObj, cells h !! cell = Some c /\ cell_rect c = r.
Proof.
  unfold rect_of. destruct (cells h !! cell) as [c|]; [|done].
  intros [= <-]. eauto.
Qed.

Lemma fill_all_loop self rows cols h0 cs rs :
  Forall2 (fun cell r => rect_of h0 cell = Some r) cs rs ->
  forall k h t,
  cells h = cells h0 ->
  tables h !! self = Some t ->
  board_dims (_board t) rows cols -> grid_of t rows cols ->
  Forall (fun r => contains t r = true) rs ->
  for_in (imap (fun i x => (Z.of_nat (k + i), x)) cs)
         (fun '(i, _cell) => Table._fill_board self _cell i) h
  = (upd_table h self
       (mkTable (table_rect t) (table_parent t) (_cells t)
                (fill_all (_board t) k rs)
                (_occupied_area t + foldr (fun r a => area r + a) 0 rs)),
     inr ()).
Proof.
  induction 1 as [|cell r cs rs Hr _ IH]; intros k h t Hh Ht Hd Hg Hin.
  - cbn. rewrite Z.add_0_r.
    replace (mkTable _ _ _ _ _) with t by (by destruct t).
    by rewrite upd_table_id.
  - apply Forall_cons in Hin as [Hi Hin].
    destruct (rect_of_Some _ _ _ Hr) as (c & Hc & <-). rewrite <- Hh in Hc.
    cbn [imap for_in]. unfold bind.
    rewrite (fill_board_run _ _ _ _ _ _ rows cols Ht Hc Hd Hg Hi).
    erewrite (imap_ext _ (fun i x => (Z.of_nat (S k + i), x)));
      [|intros i x _; simpl; do 2 f_equal; lia].
    rewrite (IH (S k) (upd_table h self _) _ Hh (upd_table_lookup _ _ _));
      [|by apply fill_rect_dims|done|done].
    rewrite upd_table_upd_table. simpl. rewrite Nat.add_0_r.
    do 3 f_equal. lia.
Qed.

(** ** Sorting by key *)

Lemma key_lt_asym a b : key_lt a b = true -> key_lt b a = false.
Proof.
  unfold key_lt. rewrite orb_true_iff, orb_false_iff, !andb_true_iff,
    !andb_false_iff, !Z.ltb_lt, !Z.ltb_ge, !Z.eqb_eq, Z.eqb_neq. lia.
Qed.

Section Sorting.
Context {A : Type}.
Implicit Types (x : (Z * Z) * A) (l : list ((Z * Z) * A)).

Lemma insert_by_key_perm (x : (Z * Z) * A) l : insert_by_key x l ≡ₚ x :: l.
Proof.
  induction l as [|y l IH]; simpl; [done|].
  destruct (key_lt y.1 x.1); [|done].
  rewrite IH. apply Permutation_swap.
Qed.

Lemma sort_by_key_perm (l : list ((Z * Z) * A)) : sort_by_key l ≡ₚ l.
Proof.
  induction l as [|x l IH]; simpl; [done|].
  by rewrite insert_by_key_perm, IH.
Qed.

Lemma insert_by_key_sorted (x : (Z * Z) * A) l :
  Sorted (fun a b => key_le a.1 b.1) l ->
  Sorted (fun a b => key_le a.1 b.1) (insert_by_key x l).
Proof.
  induction 1 as [|y l Hs IH Hhd]; simpl.
  - by repeat constructor.
  - destruct (key_lt y.1 x.1) eqn:E.
    + constructor; [done|].
      destruct l as [|z l]; simpl in *.
      * constructor. by apply key_lt_asym.
      * destruct (key_lt z.1 x.1).
        -- constructor. by inversion Hhd.
        -- constructor. by apply key_lt_asym.
    + constructor; [by constructor|]. by constructor.
Qed.

Lemma sort_by_key_sorted (l : list ((Z * Z) * A)) :
  Sorted (fun a b => key_le a.1 b.1) (sort_by_key l).
Proof.
  induction l as [|x l IH]; simpl; [constructor|].
  by apply insert_by_key_sorted.
Qed.

End Sorting.

Lemma insert_by_key_fmap {A B} (g : A -> B) x l :
  insert_by_key (prod_map id g x) (prod_map id g <$> l)
  = prod_map id g <$> insert_by_key x l.
Proof.
  induction l as [|y l IH]; simpl; [done|].
  destruct (key_lt y.1 x.1); simpl; [|done]. f_equal. apply IH.
Qed.

Lemma sort_by_key_fmap {A B} (g : A -> B) l :
  sort_by_key (prod_map id g <$> l) = prod_map id g <$> sort_by_key l.
Proof.
  induction l as [|x l IH]; [done|].
  rewrite fmap_cons. cbn [sort_by_key]. rewrite IH. apply insert_by_key_fmap.
Qed.

Lemma decorated_cells h cs rs :
  Forall2 (fun cell r => rect_of h cell = Some r) cs rs ->
  zip (key <$> rs) cs = prod_map id fst <$> decorated cs rs.
Proof. unfold decorated. induction 1; simpl; [done|]. by f_equal. Qed.

Lemma decorated_rects h cs rs :
  Forall2 (fun cell r => rect_of h cell = Some r) cs rs ->
  (decorated cs rs).*2.*2 = rs.
Proof. unfold decorated. induction 1; simpl; [done|]. by f_equal. Qed.

Lemma decorated_Forall h cs rs :
  Forall2 (fun cell r => rect_of h cell = Some r) cs rs ->
  Forall (fun x => x.1 = key x.2.2 /\ rect_of h x.2.1 = Some x.2.2)
         (decorated cs rs).
Proof. unfold decorated. induction 1; simpl; constructor; done. Qed.

Lemma Sorted_keys (l : list ((Z * Z) * (nat * Rect))) :
  Forall (fun x => x.1 = key x.2.2) l ->
  Sorted (fun a b => key_le a.1 b.1) l ->
  Sorted (fun r1 r2 => key_le (key r1) (key r2)) l.*2.*2.
Proof.
  intros Hk. induction 1 as [|x l Hs IH Hhd]; simpl; [constructor|].
  apply Forall_cons in Hk as [Hx Hk].
  constructor; [by apply IH|].
  destruct Hhd as [|y l Hxy]; simpl; constructor.
  apply Forall_cons in Hk as [Hy _]. by rewrite <- Hx, <- Hy.
Qed.

Lemma sorted_rects h cs rs :
  Forall2 (fun cell r => rect_of h cell = Some r) cs rs ->
  exists rs',
    Forall2 (fun cell r => rect_of h cell = Some r)
            (sort_by_key (zip (key <$> rs) cs)).*2 rs' /\
    rs' ≡ₚ rs /\
    Sorted (fun r1 r2 => key_le (key r1) (key r2)) rs'.
Proof.
  intros Hrs. exists (sort_by_key (decorated cs rs)).*2.*2.
  pose proof (decorated_Forall _ _ _ Hrs) as Hd.
  rewrite <- (sort_by_key_perm (decorated cs rs)) in Hd.
  split; [|split].
  - rewrite (decorated_cells _ _ _ Hrs), sort_by_key_fmap.
    rewrite <- list_fmap_compose.
    rewrite <- (list_fmap_compose snd snd).
    apply Forall2_fmap, Forall_Forall2_diag.
    eapply Forall_impl; [exact Hd|]. by intros [k [cell r]] [_ ?].
  - rewrite sort_by_key_perm. by rewrite (decorated_rects _ _ _ Hrs).
  - apply Sorted_keys; [|apply sort_by_key_sorted].
    eapply Forall_impl; [exact Hd|]. by intros ? [? _].
Qed.

Lemma map_M_keys h cs rs :
  Forall2 (fun cell r => rect_of h cell = Some r) cs rs ->
  map_M (fun cell => c ← get_cell cell; ret (top c, left c)) cs h
  = (h, inr (key <$> rs)).
Proof.
  induction 1 as [|cell r cs rs Hr _ IH]; [done|].
  destruct (rect_of_Some _ _ _ Hr) as (c & Hc & <-).
  cbn [map_M]. unfold bind at 1. unfold bind at 1.
  rewrite (get_cell_Some _ _ _ Hc). unfold ret at 1.
  unfold bind at 1. by rewrite IH.
Qed.

Lemma list_sort_run h cs rs :
  Forall2 (fun cell r => rect_of h cell = Some r) cs rs ->
  list_sort (fun cell => c ← get_cell cell; ret (top c, left c)) cs h
  = (h, inr (sort_by_key (zip (key <$> rs) cs)).*2).
Proof.
  intros Hrs. unfold list_sort.
  by rewrite (bind_inr _ _ _ _ _ (map_M_keys _ _ _ Hrs)).
Qed.

(** ** The board after a rebuild *)

Lemma fill_all_dims rows cols rs : forall b k,
  board_dims b rows cols -> board_dims (fill_all b k rs) rows cols.
Proof.
  induction rs as [|r rs IH]; intros b k Hd; simpl; [done|].
  apply IH. by apply fill_rect_dims.
Qed.

Lemma board_at_fill_all rows cols t rs row col :
  grid_of t rows cols ->
  Forall (fun r => contains t r = true) rs ->
  ForallOrdPairs disjoint rs ->
  0 <= row -> 0 <= col ->
  forall b k, board_dims b rows cols ->
  board_at (fill_all b k rs) row col =
    match list_find (fun r => covers r row col = true) rs with
    | Some (i, _) => Some (Z.of_nat (k + i))
    | None => board_at b row col
    end.
Proof.
  intros Hg Hin Hdis Hrow Hcol.
  induction Hdis as [|r rs Hr Hdis IH]; intros b k Hd; [done|].
  apply Forall_cons in Hin as [Hi Hin].
  cbn [fill_all list_find]. rewrite (IH Hin) by (by apply fill_rect_dims).
  rewrite (board_at_fill_rect _ rows cols t) by done.
  case_decide as Hc.
  - rewrite Hc.
    assert (list_find (fun r => covers r row col = true) rs = None) as ->.
    { apply list_find_None. eapply Forall_impl; [exact Hr|].
      intros r' Hd' Hc'. by apply (Hd' row col). }
    simpl. do 2 f_equal. lia.
  - destruct (covers r row col); [done|].
    destruct (list_find _ rs) as [[i r']|]; simpl; [|done].
    do 2 f_equal. lia.
Qed.

Lemma owner_None rs row col :
  owner rs row col = _UNOCCUPIED_CELL <->
  Forall (fun r => covers r row col = false) rs.
Proof.
  unfold owner, _UNOCCUPIED_CELL.
  destruct (list_find _ rs) as [[i r]|] eqn:E.
  - split; [lia|]. intros Hall. exfalso.
    apply list_find_Some in E as (Hl & Hc & _).
    apply (Forall_lookup_1 _ _ _ _ Hall) in Hl. congruence.
  - split; [|done]. intros _. apply list_find_None in E.
    eapply Forall_impl; [exact E|]. intros r. apply not_true_is_false.
Qed.

Lemma owner_Some rs row col (i : nat) :
  owner rs row col = Z.of_nat i ->
  exists r, rs !! i = Some r /\ covers r row col = true.
Proof.
  unfold owner, _UNOCCUPIED_CELL.
  destruct (list_find _ rs) as [[j r]|] eqn:E; [|lia].
  intros ->%Nat2Z.inj. apply list_find_Some in E as (Hl & Hc & _). eauto.
Qed.

Lemma owner_cases rs row col :
  owner rs row col = _UNOCCUPIED_CELL \/
  exists i : nat, owner rs row col = Z.of_nat i.
Proof.
  unfold owner. destruct (list_find _ rs) as [[j r]|]; eauto.
Qed.

(** With disjoint rectangles, the owner is the only one that covers. *)
Lemma owner_unique rs row col (i : nat) r :
  ForallOrdPairs disjoint rs ->
  rs !! i = Some r -> covers r row col = true ->
  owner rs row col = Z.of_nat i.
Proof.
  intros Hdis. revert i.
  induction Hdis as [|r0 rs Hr Hdis IH]; intros i Hl Hc; [done|].
  unfold owner. cbn [list_find]. destruct i as [|i]; simpl in Hl.
  - injection Hl as ->. by rewrite decide_True.
  - rewrite decide_False.
    + specialize (IH i Hl Hc). unfold owner in IH.
      destruct (list_find _ rs) as [[j r']|]; simpl.
      * f_equal. lia.
      * unfold _UNOCCUPIED_CELL in IH. lia.
    + intros Hc0. apply (Forall_lookup_1 _ _ _ _ Hr) in Hl.
      by apply (Hl row col).
Qed.

Lemma ForallOrdPairs_perm {A} (R : A -> A -> Prop) l l' :
  (forall x y, R x y -> R y x) ->
  l ≡ₚ l' -> ForallOrdPairs R l -> ForallOrdPairs R l'.
Proof.
  intros Hsym. induction 1 as [|x l l' Hp IH|x y l|l l' l'' _ IH1 _ IH2].
  - done.
  - intros H. inversion H as [|? ? Hx Hl]; subst.
    constructor; [by rewrite <- Hp|by apply IH].
  - intros H. inversion H as [|? ? Hy Hl]; subst.
    inversion Hl as [|? ? Hx Hl']; subst.
    apply Forall_cons in Hy as [Hyx Hy].
    constructor; [constructor; [by apply Hsym|done]|by constructor].
  - intros H. by apply IH2, IH1.
Qed.

Lemma ForallOrdPairs_snoc {A} (R : A -> A -> Prop) l x :
  ForallOrdPairs R l -> Forall (fun y => R y x) l ->
  ForallOrdPairs R (l ++ [x]).
Proof.
  induction 1 as [|y l Hy Hl IH]; intros Hx; simpl.
  - repeat constructor.
  - apply Forall_cons in Hx as [Hyx Hx].
    constructor; [|by apply IH].
    apply Forall_app. split; [done|by constructor].
Qed.

Lemma disjoint_sym r1 r2 : disjoint r1 r2 -> disjoint r2 r1.
Proof. intros H row col [??]. by apply (H row col). Qed.

(** ** The scan of the overlap check *)

Lemma find_first {A} (f : A -> bool) l x :
  find f l = Some x ->
  exists j : nat, l !! j = Some x /\ f x = true /\
    forall (j' : nat) y, (j' < j)%nat -> l !! j' = Some y -> f y = false.
Proof.
  induction l as [|y l IH]; simpl; [done|].
  destruct (f y) eqn:E.
  - intros [= ->]. exists 0%nat. repeat split; [done|]. intros; lia.
  - intros (j & Hj & Hx & Hfirst)%IH. exists (S j). repeat split; [done..|].
    intros [|j'] z Hlt; simpl; [congruence|]. apply Hfirst. lia.
Qed.

Lemma find_None {A} (f : A -> bool) l :
  find f l = None -> Forall (fun y => f y = false) l.
Proof.
  induction l as [|y l IH]; simpl; [constructor|].
  destruct (f y) eqn:E; [done|]. intros ?%IH. by constructor.
Qed.

Lemma scan_Some b rows cols row col :
  scan b rows cols = Some (row, col) ->
  exists i j : nat, rows !! i = Some row /\ cols !! j = Some col /\
    occupied b row col = true /\
    forall (i' j' : nat) row' col',
      rows !! i' = Some row' -> cols !! j' = Some col' ->
      (i' < i \/ i' = i /\ j' < j)%nat -> occupied b row' col' = false.
Proof.
  induction rows as [|r rows IH]; simpl; [done|].
  destruct (find (occupied b r) cols) as [c|] eqn:E.
  - intros [= -> ->]. apply find_first in E as (j & Hj & Hc & Hfirst).
    exists 0%nat, j. repeat split; [done..|].
    intros [|i'] j' row' col' Hi' Hj' Hlt; [|lia].
    injection Hi' as <-. apply (Hfirst j'); [lia|done].
  - intros (i & j & Hi & Hj & Hc & Hfirst)%IH.
    exists (S i), j. repeat split; [done..|].
    intros [|i'] j' row' col' Hi' Hj' Hlt; simpl in Hi'.
    + injection Hi' as <-. apply find_None in E.
      by apply (Forall_lookup_1 _ _ _ _ E Hj').
    + apply (Hfirst i' j'); [done..|lia].
Qed.

Lemma scan_None b rows cols row col :
  scan b rows cols = None -> row ∈ rows -> col ∈ cols ->
  occupied b row col = false.
Proof.
  induction rows as [|r rows IH]; simpl; [by intros _ ?%elem_of_nil|].
  destruct (find (occupied b r) cols) as [c|] eqn:E; [done|].
  intros Hs [->|Hrow]%elem_of_cons Hcol; [|by apply IH].
  apply find_None in E. rewrite Forall_forall in E. by apply E.
Qed.

(** ** [add_cell], step by step *)

Lemma bind_get_table {B} h self t (f : TableObj -> M B) :
  tables h !! self = Some t -> bind (get_table self) f h = f t h.
Proof. intros E. by rewrite (bind_inr _ _ _ _ _ (get_table_Some _ _ _ E)). Qed.

Lemma bind_get_cell {B} h cell c (f : CellObj -> M B) :
  cells h !! cell = Some c -> bind (get_cell cell) f h = f c h.
Proof. intros E. by rewrite (bind_inr _ _ _ _ _ (get_cell_Some _ _ _ E)). Qed.

Lemma bind_put_table {B} h self t (f : unit -> M B) :
  bind (put_table self t) f h = f () (upd_table h self t).
Proof. done. Qed.

Lemma bind_put_cell {B} h cell c (f : unit -> M B) :
  bind (put_cell cell c) f h = f () (upd_cell h cell c).
Proof. done. Qed.

Lemma inv_grid h t rs :
  table_inv h t rs ->
  grid_of t (Z.to_nat (height t)) (Z.to_nat (width t)) /\
  board_dims (_board t) (Z.to_nat (height t)) (Z.to_nat (width t)).
Proof.
  intros []. repeat split; try done; lia.
Qed.

Lemma add_cell_not_inside h self cell (t : TableObj) (c : CellObj) :
  tables h !! self = Some t -> cells h !! cell = Some c ->
  contains t c = false ->
  Table.add_cell self cell h = (h, inl (ValueError cell_not_inside)).
Proof.
  intros Ht Hc Hin. unfold Table.add_cell.
  rewrite (bind_get_table _ _ _ _ Ht), (bind_get_cell _ _ _ _ Hc).
  by rewrite Hin.
Qed.

Lemma add_cell_check h self (t : TableObj) (c : Rect) rs :
  tables h !! self = Some t -> table_inv h t rs -> contains t c = true ->
  for_in (range (top c) (bottom c + 1)) (fun row =>
    for_in (range (left c) (right c + 1)) (fun col =>
      v ← Table.board_getitem self row col;
      if bool_decide (v ≠ _UNOCCUPIED_CELL)
      then raise (ValueError (point_occupied row col))
      else ret ())) h
  = (h, scan_result (scan_rect (_board t) c)).
Proof.
  intros Ht [Hg Hd]%inv_grid Hin.
  destruct (contains_inside _ _ _ _ Hg Hin) as (H1 & H2 & H3 & H4).
  apply (check_rows _ _ _ _ _ _ _ Ht Hd); by apply range_inside.
Qed.

Lemma add_cell_occupied h self cell (t : TableObj) (c : CellObj) rs row col :
  tables h !! self = Some t -> cells h !! cell = Some c ->
  table_inv h t rs -> contains t c = true ->
  scan_rect (_board t) c = Some (row, col) ->
  Table.add_cell self cell h = (h, inl (ValueError (point_occupied row col))).
Proof.
  intros Ht Hc Hinv Hin Hscan. unfold Table.add_cell.
  rewrite (bind_get_table _ _ _ _ Ht), (bind_get_cell _ _ _ _ Hc).
  rewrite Hin. cbn [negb].
  pose proof (add_cell_check _ _ _ _ _ Ht Hinv Hin) as E.
  rewrite Hscan in E. by rewrite (bind_inl _ _ _ _ _ E).
Qed.

Lemma rect_of_set_parent h cell (c : CellObj) p x :
  cells h !! cell = Some c ->
  rect_of (upd_cell h cell (set_parent c p)) x = rect_of h x.
Proof.
  intros Hc. unfold rect_of, upd_cell. simpl.
  destruct (decide (cell = x)) as [->|Hne].
  - by rewrite lookup_insert_eq, Hc.
  - by rewrite lookup_insert_ne.
Qed.

(** The new cell overlaps no cell of the table when the scan finds no
    occupied coordinate. *)
Lemma scan_disjoint h t rs (c : Rect) :
  table_inv h t rs -> contains t c = true ->
  scan_rect (_board t) c = None ->
  Forall (fun r => disjoint r c) rs.
Proof.
  intros Hinv Hin Hscan. pose proof (inv_grid _ _ _ Hinv) as [Hg _].
  destruct (contains_inside _ _ _ _ Hg Hin) as (H1 & H2 & H3 & H4).
  assert (forall row col, covers c row col = true ->
            Forall (fun r => covers r row col = false) rs) as Hfree.
  { intros row col Hc. unfold covers in Hc.
    rewrite !andb_true_iff, !Z.leb_le in Hc.
    assert (occupied (_board t) row col = false) as Hocc.
    { apply (scan_None _ _ _ _ _ Hscan); apply elem_of_range; lia. }
    unfold occupied in Hocc. apply bool_decide_eq_false in Hocc.
    apply dec_stable in Hocc.
    rewrite (inv_board _ _ _ Hinv) in Hocc
      by (pose proof (inv_height _ _ _ Hinv); pose proof (inv_width _ _ _ Hinv);
          lia).
    apply owner_None. congruence. }
  apply Forall_forall. intros r Hr row col [Hcr Hcc].
  specialize (Hfree row col Hcc). rewrite Forall_forall in Hfree.
  specialize (Hfree r Hr). congruence.
Qed.

Lemma add_cell_success h self cell (t : TableObj) (c : CellObj) rs :
  tables h !! self = Some t -> cells h !! cell = Some c ->
  table_inv h t rs -> Rect_wf c ->
  contains t c = true -> scan_rect (_board t) c = None ->
  exists t' rs',
    Table.add_cell self cell h
    = (upd_table (upd_cell h cell (set_parent c (Some self))) self t',
       inr self) /\
    table_inv (upd_table (upd_cell h cell (set_parent c (Some self))) self t')
              t' rs' /\
    rs' ≡ₚ rs ++ [cell_rect c] /\
    table_rect t' = table_rect t /\
    _cells t' ≡ₚ _cells t ++ [cell].
Proof.
  intros Ht Hc Hinv Hwf Hin Hscan.
  pose proof (inv_grid _ _ _ Hinv) as [Hg Hd].
  set (h1 := upd_cell h cell (set_parent c (Some self))).
  assert (Forall2 (fun cell r => rect_of h1 cell = Some r)
                  (_cells t ++ [cell]) (rs ++ [cell_rect c])) as Hrs1.
  { apply Forall2_app.
    - eapply Forall2_impl; [exact (inv_rects _ _ _ Hinv)|].
      intros x r Hx. unfold h1. by rewrite rect_of_set_parent.
    - constructor; [|constructor]. unfold h1.
      rewrite rect_of_set_parent by done. unfold rect_of. by rewrite Hc. }
  destruct (sorted_rects _ _ _ Hrs1) as (rs' & Hrs' & Hperm & Hsorted).
  set (sorted := (sort_by_key (zip (key <$> rs ++ [cell_rect c])
                                   (_cells t ++ [cell]))).*2) in *.
  assert (Forall (fun r => contains t r = true) rs') as Hin'.
  { rewrite Hperm. apply Forall_app. split; [exact (inv_inside _ _ _ Hinv)|].
    by constructor. }
  assert (ForallOrdPairs disjoint rs') as Hdis'.
  { apply (ForallOrdPairs_perm _ (rs ++ [cell_rect c]));
      [apply disjoint_sym|done|].
    apply ForallOrdPairs_snoc; [exact (inv_disjoint _ _ _ Hinv)|].
    by apply (scan_disjoint h t). }
  exists (mkTable (table_rect t) (table_parent t) sorted
                  (fill_all (_board t) 0 rs')
                  (0 + foldr (fun r a => area r + a) 0 rs')), rs'.
  split; [|split; [|split; [|split]]].
  - unfold Table.add_cell.
    rewrite (bind_get_table _ _ _ _ Ht), (bind_get_cell _ _ _ _ Hc).
    rewrite Hin. cbn [negb].
    pose proof (add_cell_check _ _ _ _ _ Ht Hinv Hin) as E.
    rewrite Hscan in E. rewrite (bind_inr _ _ _ _ _ E). clear E.
    rewrite bind_put_cell. fold h1.
    rewrite (bind_get_table h1 self t) by done.
    rewrite bind_put_table.
    rewrite (bind_get_table _ _ _ _ (upd_table_lookup _ _ _)).
    cbn [_cells set_cells].
    rewrite (bind_inr _ _ _ _ _
               (list_sort_run (upd_table h1 self _) _ _ Hrs1)). fold sorted.
    rewrite bind_put_table, upd_table_upd_table.
    rewrite (bind_get_table _ _ _ _ (upd_table_lookup _ _ _)).
    rewrite bind_put_table, upd_table_upd_table.
    rewrite (bind_get_table _ _ _ _ (upd_table_lookup _ _ _)).
    pose proof (fill_all_loop self _ _ h1 sorted rs' Hrs' 0%nat
                  (upd_table h1 self
                     (set_occupied_area
                        (set_cells (set_cells t (_cells t ++ [cell])) sorted) 0))
                  _ eq_refl (upd_table_lookup _ _ _) Hd Hg Hin') as E.
    cbn [Nat.add] in E. unfold enumerate.
    rewrite (bind_inr _ _ _ _ _ E). by rewrite upd_table_upd_table.
  - split; cbn [table_rect _board _cells _occupied_area];
      try apply Hinv.
    + apply (fill_all_dims _ _ _ _ _ Hd).
    + apply (fill_all_dims _ _ _ _ _ Hd).
    + done.
    + rewrite Hperm. apply Forall_app. split; [apply Hinv|by constructor].
    + done.
    + done.
    + done.
    + intros row col Hrow Hcol.
      rewrite (board_at_fill_all _ _ t rs' row col Hg Hin' Hdis') by (lia || done).
      unfold owner.
      destruct (list_find _ rs') as [[i r]|] eqn:E; [done|].
      rewrite (inv_board _ _ _ Hinv) by done. f_equal.
      apply owner_None. apply list_find_None in E.
      rewrite Hperm in E. apply Forall_app in E as [E _].
      eapply Forall_impl; [exact E|]. intros r. apply not_true_is_false.
    + lia.
  - done.
  - done.
  - unfold sorted. cbn [_cells].
    rewrite sort_by_key_perm. rewrite snd_zip; [done|].
    rewrite length_fmap. by rewrite (Forall2_length _ _ _ Hrs1).
Qed.

(** ** The invariant holds in every reachable heap *)

Lemma table_inv_mono h h' t rs :
  (forall x r, rect_of h x = Some r -> rect_of h' x = Some r) ->
  table_inv h t rs -> table_inv h' t rs.
Proof.
  intros Hmono []. split; try done.
  eapply Forall2_impl; [eassumption|]. intros x r. apply Hmono.
Qed.

Lemma heap_inv_frame h h' :
  heap_inv h -> tables h' = tables h ->
  (forall x r, rect_of h x = Some r -> rect_of h' x = Some r) ->
  (forall cell c, cells h' !! cell = Some c -> Rect_wf (cell_rect c)) ->
  heap_inv h'.
Proof.
  intros [Htab _] Heq Hmono Hwf. split; [|done].
  intros self t Ht. rewrite Heq in Ht.
  destruct (Htab _ _ Ht) as [rs Hinv]. exists rs.
  by apply (table_inv_mono h).
Qed.

Lemma heap_inv_empty : heap_inv empty_heap.
Proof. split; intros ? ? H; simpl in H; by rewrite lookup_empty in H. Qed.

Lemma heap_inv_new_Cell h self rect :
  heap_inv h -> valid_call h (new_Cell self rect) = true ->
  heap_inv (exec (new_Cell self rect) h).
Proof.
  intros Hinv Hv. simpl in Hv.
  rewrite !andb_true_iff, bool_decide_eq_true, !Z.leb_le in Hv.
  destruct Hv as [[Hfresh Hw] Hh].
  apply (heap_inv_frame h); [done|done| |].
  - intros x r. unfold rect_of. cbn.
    destruct (decide (self = x)) as [<-|Hne].
    + by rewrite Hfresh.
    + by rewrite lookup_insert_ne.
  - intros cell c. cbn.
    destruct (decide (self = cell)) as [<-|Hne].
    + rewrite lookup_insert_eq. by intros [= <-].
    + rewrite lookup_insert_ne by done. apply Hinv.
Qed.

Lemma heap_inv_new_TextParagraph h self :
  heap_inv h -> heap_inv (exec (new_TextParagraph self) h).
Proof.
  intros Hinv. apply (heap_inv_frame h); [done|done|done|apply Hinv].
Qed.

Lemma length_range a b : length (range a b) = Z.to_nat (b - a).
Proof. unfold range. by rewrite length_fmap, length_seq. Qed.

Lemma table_inv_init h row_num col_num :
  0 <= row_num -> 0 <= col_num ->
  table_inv h
    {| table_rect := mkRect 0 0 col_num row_num;
       table_parent := None;
       _cells := [];
       _occupied_area := 0;
       _board := (fun y => (fun x => _UNOCCUPIED_CELL) <$> range 0 col_num)
                   <$> range 0 row_num |} [].
Proof.
  intros Hr Hc. split; cbn [table_rect _board _cells _occupied_area
                            left top width height]; try done.
  - rewrite length_fmap, length_range. f_equal. lia.
  - apply Forall_fmap, Forall_forall. intros y _. simpl.
    rewrite length_fmap, length_range. f_equal. lia.
  - constructor.
  - intros row col Hrow Hcol. unfold board_at.
    rewrite list_lookup_fmap.
    destruct (range 0 row_num !! Z.to_nat row) as [y|] eqn:Ey.
    + simpl. rewrite list_lookup_fmap.
      destruct (range 0 col_num !! Z.to_nat col) as [x|] eqn:Ex; [done|].
      apply lookup_ge_None in Ex. rewrite length_range in Ex. lia.
    + apply lookup_ge_None in Ey. rewrite length_range in Ey. lia.
Qed.

Lemma heap_inv_new_Table h self row_num col_num :
  heap_inv h -> valid_call h (new_Table self row_num col_num) = true ->
  heap_inv (exec (new_Table self row_num col_num) h).
Proof.
  intros [Htab Hwf] Hv. simpl in Hv.
  rewrite !andb_true_iff, bool_decide_eq_true, !Z.leb_le in Hv.
  destruct Hv as [[_ Hr] Hc]. split; [|done].
  intros s t. cbn.
  destruct (decide (self = s)) as [<-|Hne].
  - rewrite lookup_insert_eq. intros [= <-]. exists [].
    by apply table_inv_init.
  - rewrite lookup_insert_ne by done. intros Ht.
    destruct (Htab _ _ Ht) as [rs Hinv]. exists rs.
    by apply (table_inv_mono h).
Qed.

Lemma add_cell_outcome_holds h self cell :
  heap_inv h -> add_cell_outcome h self cell (Table.add_cell self cell h).
Proof.
  intros [Htab Hwf].
  destruct (tables h !! self) as [t|] eqn:Ht.
  2: { replace (Table.add_cell self cell h) with (h, @inl Exn nat NoSuchObject).
       - by constructor.
       - unfold Table.add_cell, bind, get_table. by rewrite Ht. }
  destruct (cells h !! cell) as [c|] eqn:Hc.
  2: { replace (Table.add_cell self cell h) with (h, @inl Exn nat NoSuchObject).
       - by apply add_no_cell.
       - unfold Table.add_cell. rewrite (bind_get_table _ _ _ _ Ht).
         unfold bind, get_cell. by rewrite Hc. }
  destruct (Htab _ _ Ht) as [rs Hinv].
  destruct (contains t c) eqn:Hin.
  2: { rewrite (add_cell_not_inside _ _ _ _ _ Ht Hc Hin).
       by apply (add_not_inside _ _ _ t c). }
  destruct (scan_rect (_board t) c) as [[row col]|] eqn:Hscan.
  - rewrite (add_cell_occupied _ _ _ _ _ _ _ _ Ht Hc Hinv Hin Hscan).
    by apply (add_occupied _ _ _ t c rs).
  - destruct (add_cell_success _ _ _ _ _ _ Ht Hc Hinv (Hwf _ _ Hc) Hin Hscan)
      as (t' & rs' & -> & Hinv' & Hperm & Hrect & Hcells).
    by apply (add_done _ _ _ t c rs t' rs').
Qed.

Lemma heap_inv_add_cell h self cell :
  heap_inv h -> heap_inv (exec (do_add_cell self cell) h).
Proof.
  intros Hinv. pose proof (add_cell_outcome_holds h self cell Hinv) as Hout.
  unfold exec, run. destruct Hout; try done. simpl.
  destruct Hinv as [Htab Hwf]. split.
  - intros s ts. cbn. destruct (decide (self = s)) as [<-|Hne].
    + rewrite lookup_insert_eq. intros [= <-]. eauto.
    + rewrite lookup_insert_ne by done. intros Hs.
      destruct (Htab _ _ Hs) as [rs0 Hinv0]. exists rs0.
      apply (table_inv_mono h); [|done].
      intros x r Hx. rewrite rect_of_upd_table.
      by rewrite rect_of_set_parent.
  - intros x cx. cbn. destruct (decide (cell = x)) as [<-|Hne].
    + rewrite lookup_insert_eq. intros [= <-]. simpl. eauto.
    + rewrite lookup_insert_ne by done. apply Hwf.
Qed.

(** ** [append_paragraph] *)

Lemma append_paragraph_run h self paragraph (c : CellObj) p :
  cells h !! self = Some c -> paragraphs h !! paragraph = Some p ->
  Cell.append_paragraph self paragraph h =
    if truthy (paragraph_parent p)
    then (h, inl (ValueError paragraph_has_parent))
    else (upd_cell (upd_paragraph h paragraph (mkParagraph (Some self))) self
            (set_paragraphs c (_paragraphs c ++ [paragraph])),
          inr self).
Proof.
  intros Hc Hp. unfold Cell.append_paragraph.
  rewrite (bind_get_cell _ _ _ _ Hc).
  unfold bind at 1. unfold get_paragraph at 1. rewrite Hp.
  destruct (truthy (paragraph_parent p)); [done|].
  unfold bind at 1. unfold put_paragraph at 1.
  by rewrite (bind_get_cell (upd_paragraph _ _ _) self c) by done.
Qed.

Lemma append_paragraph_missing h self paragraph :
  cells h !! self = None \/ paragraphs h !! paragraph = None ->
  Cell.append_paragraph self paragraph h = (h, inl NoSuchObject).
Proof.
  unfold Cell.append_paragraph, bind, get_cell, get_paragraph.
  intros [E|E].
  - by rewrite E.
  - destruct (cells h !! self); by rewrite ?E.
Qed.

Lemma heap_inv_append_paragraph h self paragraph :
  heap_inv h -> heap_inv (exec (do_append_paragraph self paragraph) h).
Proof.
  intros Hinv. unfold exec, run.
  destruct (cells h !! self) as [c|] eqn:Hc;
    [|by rewrite append_paragraph_missing by auto].
  destruct (paragraphs h !! paragraph) as [p|] eqn:Hp;
    [|by rewrite append_paragraph_missing by auto].
  rewrite (append_paragraph_run _ _ _ _ _ Hc Hp).
  destruct (truthy (paragraph_parent p)); [done|]. simpl.
  apply (heap_inv_frame h); [done|done| |].
  - intros x r. unfold rect_of. cbn.
    destruct (decide (self = x)) as [<-|Hne].
    + rewrite lookup_insert_eq, Hc. done.
    + by rewrite lookup_insert_ne.
  - intros x cx. cbn. destruct (decide (self = x)) as [<-|Hne].
    + rewrite lookup_insert_eq. intros [= <-]. simpl.
      by apply (proj2 Hinv self c).
    + rewrite lookup_insert_ne by done. apply Hinv.
Qed.

(** ** The queries leave the heap as it is *)

Lemma ready_to_move_run h self :
  Table.ready_to_move self h =
    (h, match tables h !! self with
        | Some t => inr (bool_decide (_occupied_area t = area t))
        | None => inl NoSuchObject
        end).
Proof.
  unfold Table.ready_to_move, bind, get_table.
  by destruct (tables h !! self).
Qed.

Lemma ready_true h self (t : TableObj) :
  tables h !! self = Some t ->
  result (Table.ready_to_move self) h = inr true ->
  _occupied_area t = area t.
Proof.
  intros Ht Hready. unfold result in Hready.
  rewrite ready_to_move_run, Ht in Hready.
  injection Hready as Hready. by apply bool_decide_eq_true in Hready.
Qed.

Lemma Table_move_heap h self cell direction :
  run (Table.move self cell direction) h = h.
Proof.
  unfold run, Table.move. unfold bind at 1. rewrite ready_to_move_run.
  destruct (tables h !! self) as [t|] eqn:Ht; [|done].
  destruct (bool_decide _); [|done]. cbn [negb].
  unfold bind at 1, get_cell.
  destruct (cells h !! cell) as [c|]; [|done].
  destruct (bool_decide (parent c ≠ Some self)); [done|].
  destruct (Table.probe c direction) as [x y].
  rewrite (bind_get_table _ _ _ _ Ht).
  destruct (contains_point t x y); [|done].
  unfold bind, lift, ret.
  destruct (getitem (_board t) y) as [|r]; [done|].
  destruct (getitem r x) as [|i]; [done|].
  by destruct (getitem (_cells t) i).
Qed.

Lemma Cell_move_heap h self direction :
  run (Cell.move self direction) h = h.
Proof.
  unfold run, Cell.move, bind, get_cell.
  destruct (cells h !! self) as [c|]; [|done].
  destruct (parent c) as [p|]; [|done].
  apply Table_move_heap.
Qed.

Lemma heap_inv_exec h c :
  heap_inv h -> valid_call h c = true -> heap_inv (exec c h).
Proof.
  intros Hinv Hv. destruct c.
  - by apply heap_inv_new_Cell.
  - by apply heap_inv_new_TextParagraph.
  - by apply heap_inv_new_Table.
  - by apply heap_inv_add_cell.
  - by apply heap_inv_append_paragraph.
  - unfold exec, run. by rewrite ready_to_move_run.
  - unfold exec. by rewrite Table_move_heap.
  - unfold exec. by rewrite Cell_move_heap.
Qed.

Lemma reachable_inv h : reachable h -> heap_inv h.
Proof.
  induction 1 as [|h c _ IH Hv]; [apply heap_inv_empty|].
  by apply heap_inv_exec.
Qed.

Lemma reachable_exec_all cs h :
  reachable h -> valid_calls cs h = true -> reachable (exec_all cs h).
Proof.
  revert h. induction cs as [|c cs IH]; intros h Hr Hv; [done|].
  simpl in *. apply andb_true_iff in Hv as [Hc Hcs].
  apply IH; [|done]. by constructor.
Qed.

(** ** Counting: the occupied area is the number of covered coordinates *)

Lemma sum_upto_ext n f g :
  (forall i, (i < n)%nat -> f i = g i) -> sum_upto n f = sum_upto n g.
Proof.
  induction n as [|n IH]; intros H; simpl; [done|].
  rewrite IH, H by (intros; try apply H; lia). done.
Qed.

Lemma sum_upto_add n f g :
  sum_upto n (fun i => f i + g i) = sum_upto n f + sum_upto n g.
Proof. induction n as [|n IH]; simpl; lia. Qed.

Lemma sum_upto_scale n k g :
  sum_upto n (fun i => k * g i) = k * sum_upto n g.
Proof. induction n as [|n IH]; simpl; lia. Qed.

Lemma sum_upto_const n k : sum_upto n (fun _ => k) = Z.of_nat n * k.
Proof. induction n as [|n IH]; simpl; lia. Qed.

Lemma sum_upto_le n f g :
  (forall i, (i < n)%nat -> f i <= g i) -> sum_upto n f <= sum_upto n g.
Proof.
  induction n as [|n IH]; intros H; simpl; [done|].
  specialize (H n ltac:(lia)) as Hn.
  assert (sum_upto n f <= sum_upto n g) by (apply IH; intros; apply H; lia).
  lia.
Qed.

Lemma sum_upto_eq n f g :
  (forall i, (i < n)%nat -> f i <= g i) ->
  sum_upto n f = sum_upto n g ->
  forall i, (i < n)%nat -> f i = g i.
Proof.
  induction n as [|n IH]; intros H Heq i Hi; [lia|]. simpl in Heq.
  pose proof (H n ltac:(lia)) as Hn.
  assert (sum_upto n f <= sum_upto n g)
    by (apply sum_upto_le; intros; apply H; lia).
  destruct (decide (i = n)) as [->|Hne]; [lia|].
  apply IH; [intros; apply H; lia|lia|lia].
Qed.

Lemma interval_count_upto a b n :
  0 <= a -> a <= b + 1 ->
  sum_upto n (fun i => if (a <=? Z.of_nat i) && (Z.of_nat i <=? b)
                       then 1 else 0)
  = Z.max 0 (Z.min (b + 1) (Z.of_nat n) - a).
Proof.
  intros Ha Hab. induction n as [|n IH]; simpl sum_upto; [lia|].
  rewrite IH.
  destruct (Z.leb_spec a (Z.of_nat n)), (Z.leb_spec (Z.of_nat n) b);
    simpl; lia.
Qed.

Lemma interval_count a b n :
  0 <= a -> a <= b + 1 -> b < Z.of_nat n ->
  sum_upto n (fun i => if (a <=? Z.of_nat i) && (Z.of_nat i <=? b)
                       then 1 else 0)
  = b - a + 1.
Proof. intros. rewrite interval_count_upto by done. lia. Qed.

Lemma grid_count_covers (t r : Rect) rows cols :
  grid_of t rows cols -> Rect_wf r -> contains t r = true ->
  grid_count rows cols (covers r) = area r.
Proof.
  intros Hg [Hw Hh] Hin.
  destruct (contains_inside _ _ _ _ Hg Hin) as (H1 & H2 & H3 & H4).
  unfold grid_count, covers.
  rewrite (sum_upto_ext _ _ (fun i =>
    width r * (if (top r <=? Z.of_nat i) && (Z.of_nat i <=? bottom r)
               then 1 else 0))).
  - rewrite sum_upto_scale, interval_count by (unfold bottom in *; lia).
    unfold area, bottom. lia.
  - intros i _.
    destruct ((top r <=? Z.of_nat i) && (Z.of_nat i <=? bottom r)); simpl.
    + rewrite interval_count by (unfold right in *; lia). unfold right. lia.
    + rewrite sum_upto_const. lia.
Qed.

Lemma covered_true rs row col :
  covered rs row col = true <->
  exists r, r ∈ rs /\ covers r row col = true.
Proof.
  unfold covered. rewrite existsb_exists.
  split; intros (r & Hr & Hc); exists r; by rewrite ?list_elem_of_In in *.
Qed.

Lemma grid_count_covered_cons rows cols r rs :
  Forall (disjoint r) rs ->
  grid_count rows cols (covered (r :: rs))
  = grid_count rows cols (covers r) + grid_count rows cols (covered rs).
Proof.
  intros Hdis. unfold grid_count. rewrite <- sum_upto_add.
  apply sum_upto_ext. intros i _. rewrite <- sum_upto_add.
  apply sum_upto_ext. intros j _. simpl.
  destruct (covers r _ _) eqn:Hc; simpl; [|done].
  destruct (covered rs _ _) eqn:Hcov; [|done]. exfalso.
  apply covered_true in Hcov as (r' & Hr' & Hc').
  rewrite Forall_forall in Hdis. by apply (Hdis r' Hr' (Z.of_nat i) (Z.of_nat j)).
Qed.

Lemma total_area (t : Rect) rows cols rs :
  grid_of t rows cols ->
  Forall Rect_wf rs -> Forall (fun r => contains t r = true) rs ->
  ForallOrdPairs disjoint rs ->
  foldr (fun r a => area r + a) 0 rs = grid_count rows cols (covered rs).
Proof.
  intros Hg Hwf Hin Hdis.
  induction Hdis as [|r rs Hr Hdis IH]; simpl foldr.
  - unfold grid_count. simpl.
    rewrite (sum_upto_ext _ _ (fun _ => 0)); [by rewrite sum_upto_const; lia|].
    intros i _. rewrite sum_upto_const. lia.
  - apply Forall_cons in Hwf as [Hw Hwf]. apply Forall_cons in Hin as [Hi Hin].
    rewrite grid_count_covered_cons by done.
    rewrite (grid_count_covers t) by done. by rewrite IH.
Qed.

Lemma grid_count_le rows cols P :
  grid_count rows cols P <= Z.of_nat rows * Z.of_nat cols.
Proof.
  unfold grid_count.
  rewrite <- (sum_upto_const rows (Z.of_nat cols)).
  apply sum_upto_le. intros i _.
  rewrite <- (Z.mul_1_r (Z.of_nat cols)), <- (sum_upto_const cols 1).
  apply sum_upto_le. intros j _. by destruct (P _ _).
Qed.

Lemma grid_count_full rows cols P :
  grid_count rows cols P = Z.of_nat rows * Z.of_nat cols <->
  forall i j : nat, (i < rows)%nat -> (j < cols)%nat ->
                    P (Z.of_nat i) (Z.of_nat j) = true.
Proof.
  unfold grid_count.
  rewrite <- (sum_upto_const rows (Z.of_nat cols)).
  assert (forall i, sum_upto cols
            (fun c => if P (Z.of_nat i) (Z.of_nat c) then 1 else 0)
          <= Z.of_nat cols) as Hle.
  { intros i. rewrite <- (Z.mul_1_r (Z.of_nat cols)), <- (sum_upto_const cols 1).
    apply sum_upto_le. intros j _. by destruct (P _ _). }
  split.
  - intros Heq i j Hi Hj.
    pose proof (sum_upto_eq _ _ _ (fun i _ => Hle i) Heq i Hi) as Hrow.
    simpl in Hrow.
    rewrite <- (Z.mul_1_r (Z.of_nat cols)), <- (sum_upto_const cols 1) in Hrow.
    assert (forall j, (j < cols)%nat ->
              (if P (Z.of_nat i) (Z.of_nat j) then 1 else 0) <= 1) as Hle1
      by (intros j' _; by destruct (P _ _)).
    pose proof (sum_upto_eq _ _ _ Hle1 Hrow j Hj) as Hij. simpl in Hij.
    by destruct (P _ _).
  - intros Hall. apply sum_upto_ext. intros i Hi.
    rewrite <- (Z.mul_1_r (Z.of_nat cols)), <- (sum_upto_const cols 1).
    apply sum_upto_ext. intros j Hj. by rewrite Hall.
Qed.

(** The table is fully occupied exactly when every coordinate of its grid
    is covered. *)
Lemma occupied_area_full h (t : TableObj) rs :
  table_inv h t rs ->
  _occupied_area t = area t <->
  forall row col, 0 <= row < height t -> 0 <= col < width t ->
                  covered rs row col = true.
Proof.
  intros Hinv. pose proof (inv_grid _ _ _ Hinv) as [Hg _].
  pose proof (inv_width _ _ _ Hinv) as Hw.
  pose proof (inv_height _ _ _ Hinv) as Hh.
  rewrite (inv_area _ _ _ Hinv).
  rewrite (total_area t _ _ rs Hg) by apply Hinv.
  replace (area t) with
    (Z.of_nat (Z.to_nat (height t)) * Z.of_nat (Z.to_nat (width t)))
    by (unfold area; lia).
  rewrite grid_count_full. split.
  - intros H row col Hrow Hcol.
    specialize (H (Z.to_nat row) (Z.to_nat col) ltac:(lia) ltac:(lia)).
    by rewrite !Z2Nat.id in H by lia.
  - intros H i j Hi Hj. apply H; lia.
Qed.

(** ** [move], step by step *)

Lemma move_run h self cell (t : TableObj) (c : CellObj) direction :
  tables h !! self = Some t -> cells h !! cell = Some c ->
  _occupied_area t = area t -> parent c = Some self ->
  Table.move self cell direction h =
    (h, let '(x, y) := Table.probe c direction in
        if contains_point t x y then
          match getitem (_board t) y with
          | inl e => inl e
          | inr r =>
              match getitem r x with
              | inl e => inl e
              | inr i =>
                  match getitem (_cells t) i with
                  | inl e => inl e
                  | inr res => inr (Some res)
                  end
              end
          end
        else inr None).
Proof.
  intros Ht Hc Hready Hparent. unfold Table.move.
  unfold bind at 1. rewrite ready_to_move_run, Ht.
  rewrite bool_decide_eq_true_2 by done. cbn [negb].
  rewrite (bind_get_cell _ _ _ _ Hc).
  rewrite bool_decide_eq_false_2 by (intros H; by apply H).
  destruct (Table.probe c direction) as [x y].
  rewrite (bind_get_table _ _ _ _ Ht).
  destruct (contains_point t x y); [|done].
  unfold bind, lift, ret.
  destruct (getitem (_board t) y) as [|r]; [done|].
  destruct (getitem r x) as [|i]; [done|].
  by destruct (getitem (_cells t) i).
Qed.

Lemma move_foreign h self cell (t : TableObj) (c : CellObj) direction :
  tables h !! self = Some t -> cells h !! cell = Some c ->
  _occupied_area t = area t -> parent c ≠ Some self ->
  Table.move self cell direction h = (h, inl (ValueError parent_not_table)).
Proof.
  intros Ht Hc Hready Hparent. unfold Table.move.
  unfold bind at 1. rewrite ready_to_move_run, Ht.
  rewrite bool_decide_eq_true_2 by done. cbn [negb].
  rewrite (bind_get_cell _ _ _ _ Hc).
  by rewrite bool_decide_eq_true_2 by done.
Qed.

(** In a fully occupied table every coordinate of the grid holds the index
    of the cell that covers it. *)
Lemma lookup_full h (t : TableObj) rs x y :
  table_inv h t rs -> _occupied_area t = area t ->
  contains_point t x y = true ->
  exists (i : nat) r res row,
    board_at (_board t) y x = Some (Z.of_nat i) /\
    rs !! i = Some r /\ covers r y x = true /\
    _cells t !! i = Some res /\ rect_of h res = Some r /\
    getitem (_board t) y = inr row /\
    getitem row x = inr (Z.of_nat i) /\
    getitem (_cells t) (Z.of_nat i) = inr res.
Proof.
  intros Hinv Hready Hin.
  pose proof (inv_grid _ _ _ Hinv) as [Hg Hd].
  pose proof (inv_width _ _ _ Hinv) as Hw.
  pose proof (inv_height _ _ _ Hinv) as Hh.
  assert (0 <= y < height t /\ 0 <= x < width t) as [Hy Hx].
  { unfold contains_point, right, bottom in Hin.
    rewrite !andb_true_iff, !Z.leb_le in Hin.
    rewrite (inv_left _ _ _ Hinv), (inv_top _ _ _ Hinv) in Hin. lia. }
  pose proof (proj1 (occupied_area_full _ _ _ Hinv) Hready y x Hy Hx) as Hcov.
  apply covered_true in Hcov as (r0 & Hr0 & Hc0).
  destruct (owner_cases rs y x) as [Hnone|[i Hi]].
  { apply owner_None in Hnone. rewrite Forall_forall in Hnone.
    specialize (Hnone r0 Hr0). congruence. }
  destruct (owner_Some _ _ _ _ Hi) as (r & Hr & Hc).
  destruct (Forall2_lookup_r _ _ _ _ _ (inv_rects _ _ _ Hinv) Hr)
    as (res & Hres & Hrect).
  destruct (board_at_is_Some _ _ _ y x Hd) as (row & v & Hrow & Hv & _ & Hat);
    [lia..|].
  pose proof (inv_board _ _ _ Hinv y x Hy Hx) as Hb.
  rewrite Hat, Hi in Hb. injection Hb as ->.
  exists i, r, res, row. repeat split; try done.
  - apply getitem_lookup; [lia|done].
  - apply getitem_lookup; [lia|done].
  - apply getitem_lookup; [lia|]. by rewrite Nat2Z.id.
Qed.

(** The coordinate [move] looks at is not one of the cell's own. *)
Lemma probe_outside (c : Rect) direction :
  covers c (Table.probe c direction).2 (Table.probe c direction).1 = false.
Proof.
  unfold covers, right, bottom.
  destruct direction; simpl;
    rewrite !andb_false_iff, !Z.leb_gt; unfold right, bottom; lia.
Qed.

(** ** Sortedness, by index *)

Lemma key_le_lex r1 r2 : key_le (key r1) (key r2) <-> lex_le r1 r2.
Proof.
  unfold key_le, key_lt, key, lex_le. simpl.
  rewrite orb_false_iff, andb_false_iff, !Z.ltb_ge, Z.eqb_neq. lia.
Qed.

Lemma Sorted_lex_lookup rs (i j : nat) r1 r2 :
  Sorted (fun r1 r2 => key_le (key r1) (key r2)) rs ->
  (i < j)%nat -> rs !! i = Some r1 -> rs !! j = Some r2 -> lex_le r1 r2.
Proof.
  intros Hs. apply Sorted_StronglySorted in Hs.
  2: { intros a b c. rewrite !key_le_lex. unfold lex_le. lia. }
  revert i j. induction Hs as [|r rs Hs IH Hall]; intros i j Hij Hi Hj; [done|].
  destruct j as [|j]; [lia|]. simpl in Hj.
  destruct i as [|i]; simpl in Hi.
  - injection Hi as ->. apply key_le_lex.
    rewrite List.Forall_forall in Hall. apply Hall.
    apply list_elem_of_In, list_elem_of_lookup. eauto.
  - apply (IH i j); [lia|done..].
Qed.

(** * The claims *)

(** C1: in every heap reached by calls of the interface (so after every
    sequence of successful [add_cell] calls on a table), the cells of
    [_cells] are in ascending order of (top, left), and at every
    coordinate of the grid the board holds the index in [_cells] of the
    one cell that covers the coordinate, or the unoccupied marker when no
    cell of the table covers it; a cell is registered at exactly the
    coordinates it covers.  The rebuild of [add_cell] does not clear the
    board first. *)
Theorem add_cell_sorted_board h self (t : TableObj) :
  reachable h -> tables h !! self = Some t ->
  exists rs,
    Forall2 (fun cell r => rect_of h cell = Some r) (_cells t) rs /\
    (forall (i j : nat) r1 r2,
        (i < j)%nat -> rs !! i = Some r1 -> rs !! j = Some r2 ->
        top r1 < top r2 \/ (top r1 = top r2 /\ left r1 <= left r2)) /\
    (forall row col,
        0 <= row < height t -> 0 <= col < width t ->
        (board_at (_board t) row col = Some _UNOCCUPIED_CELL /\
         forall r, r ∈ rs -> covers r row col = false) \/
        (exists (i : nat) r,
            board_at (_board t) row col = Some (Z.of_nat i) /\
            rs !! i = Some r /\ covers r row col = true /\
            forall (j : nat) r', rs !! j = Some r' ->
                                 covers r' row col = true -> j = i)) /\
    (forall (i : nat) r row col,
        rs !! i = Some r ->
        covers r row col = true <->
        (0 <= row < height t /\ 0 <= col < width t /\
         board_at (_board t) row col = Some (Z.of_nat i))).
Proof.
  intros Hreach Ht.
  destruct (proj1 (reachable_inv _ Hreach) _ _ Ht) as [rs Hinv].
  pose proof (inv_grid _ _ _ Hinv) as [Hg Hd].
  pose proof (inv_width _ _ _ Hinv) as Hw.
  pose proof (inv_height _ _ _ Hinv) as Hh.
  exists rs. split; [apply Hinv|]. split; [|split].
  - intros i j r1 r2 Hij Hi Hj.
    apply (Sorted_lex_lookup rs i j); [apply Hinv|done..].
  - intros row col Hrow Hcol.
    rewrite (inv_board _ _ _ Hinv) by done.
    destruct (owner_cases rs row col) as [Hnone|[i Hi]].
    + left. split; [by rewrite Hnone|].
      apply owner_None in Hnone. by rewrite Forall_forall in Hnone.
    + right. destruct (owner_Some _ _ _ _ Hi) as (r & Hr & Hc).
      exists i, r. repeat split; [by rewrite Hi|done..|].
      intros j r' Hj Hc'.
      pose proof (owner_unique _ _ _ _ _ (inv_disjoint _ _ _ Hinv) Hj Hc').
      lia.
  - intros i r row col Hi. split.
    + intros Hc.
      assert (contains t r = true) as Hin
        by apply (Forall_lookup_1 _ _ _ _ (inv_inside _ _ _ Hinv) Hi).
      destruct (contains_inside _ _ _ _ Hg Hin) as (H1 & H2 & H3 & H4).
      unfold covers in Hc. rewrite !andb_true_iff, !Z.leb_le in Hc.
      assert (0 <= row < height t /\ 0 <= col < width t) as [Hrow Hcol] by lia.
      repeat split; try lia.
      rewrite (inv_board _ _ _ Hinv) by done. f_equal.
      apply (owner_unique _ _ _ _ r); [apply Hinv|done|].
      unfold covers. rewrite !andb_true_iff, !Z.leb_le. lia.
    + intros (Hrow & Hcol & Hb).
      rewrite (inv_board _ _ _ Hinv) in Hb by done. injection Hb as Hb.
      destruct (owner_Some _ _ _ _ Hb) as (r' & Hr' & Hc). congruence.
Qed.

Lemma add_cell_sorted_board_witness :
  exists rs,
    Forall2 (fun cell r => rect_of merged_table cell = Some r)
            (_cells merged_table_obj) rs /\
    (forall (i j : nat) r1 r2,
        (i < j)%nat -> rs !! i = Some r1 -> rs !! j = Some r2 ->
        top r1 < top r2 \/ (top r1 = top r2 /\ left r1 <= left r2)) /\
    (forall row col,
        0 <= row < height merged_table_obj ->
        0 <= col < width merged_table_obj ->
        (board_at (_board merged_table_obj) row col = Some _UNOCCUPIED_CELL /\
         forall r, r ∈ rs -> covers r row col = false) \/
        (exists (i : nat) r,
            board_at (_board merged_table_obj) row col = Some (Z.of_nat i) /\
            rs !! i = Some r /\ covers r row col = true /\
            forall (j : nat) r', rs !! j = Some r' ->
                                 covers r' row col = true -> j = i)) /\
    (forall (i : nat) r row col,
        rs !! i = Some r ->
        covers r row col = true <->
        (0 <= row < height merged_table_obj /\
         0 <= col < width merged_table_obj /\
         board_at (_board merged_table_obj) row col = Some (Z.of_nat i))).
Proof.
  apply (add_cell_sorted_board merged_table 0%nat merged_table_obj).
  - apply reachable_exec_all; [constructor|vm_compute; reflexivity].
  - vm_compute. reflexivity.
Defined.

(** C2: in a table that is ready to move, [move] on a cell of the table
    looks at (left, top-1) for UP, (left, bottom+1) for DOWN, (left-1, top)
    for LEFT and (right+1, top) for RIGHT; when that coordinate is inside
    the table it returns the cell whose index the board holds there, and
    otherwise it returns [None]. *)
Theorem move_returns_registered_cell
    h self cell (t : TableObj) (c : CellObj) direction x y :
  reachable h ->
  tables h !! self = Some t -> cells h !! cell = Some c ->
  result (Table.ready_to_move self) h = inr true ->
  parent c = Some self ->
  (x, y) = match direction with
           | UP => (left c, top c - 1)
           | DOWN => (left c, bottom c + 1)
           | LEFT => (left c - 1, top c)
           | RIGHT => (right c + 1, top c)
           end ->
  if contains_point t x y then
    exists (i : nat) res,
      board_at (_board t) y x = Some (Z.of_nat i) /\
      _cells t !! i = Some res /\
      Table.move self cell direction h = (h, inr (Some res))
  else Table.move self cell direction h = (h, inr None).
Proof.
  intros Hreach Ht Hc Hready Hparent Hxy.
  apply (ready_true _ _ _ Ht) in Hready.
  rewrite (move_run _ _ _ _ _ _ Ht Hc Hready Hparent).
  replace (Table.probe c direction) with (x, y)
    by (rewrite Hxy; by destruct direction).
  destruct (contains_point t x y) eqn:Hin; [|done].
  destruct (proj1 (reachable_inv _ Hreach) _ _ Ht) as [rs Hinv].
  destruct (lookup_full _ _ _ _ _ Hinv Hready Hin)
    as (i & r & res & row & Hat & _ & _ & Hres & _ & Hrow & Hi & Hget).
  exists i, res. rewrite Hrow, Hi, Hget. done.
Qed.

(** The example of the claim: moving DOWN from the merged first row
    reaches the cell of the second row in column 0. *)
Lemma move_returns_registered_cell_witness :
  Table.move 0 0 DOWN merged_table = (merged_table, inr (Some 1%nat)).
Proof.
  pose proof (move_returns_registered_cell merged_table 0%nat 0%nat
                merged_table_obj (mkCell (mkRect 0 0 2 1) (Some 0%nat) [])
                DOWN 0 1) as H.
  cbv beta iota delta [contains_point merged_table_obj table_rect left top
                       right bottom width height Z.leb Z.add Z.sub Z.opp
                       Z.compare Pos.compare Pos.compare_cont Pos.add
                       Z.pos_sub andb] in H.
  destruct H as (i & res & Hat & Hres & Hmove).
  - apply reachable_exec_all; [constructor|vm_compute; reflexivity].
  - vm_compute. reflexivity.
  - vm_compute. reflexivity.
  - vm_compute. reflexivity.
  - reflexivity.
  - reflexivity.
  - rewrite Hmove. f_equal. f_equal. f_equal.
    assert (i = 1%nat) as ->
      by (unfold board_at in Hat; simpl in Hat; injection Hat; lia).
    simpl in Hres. congruence.
Defined.

(** C3: when [add_cell] raises, the heap is the one before the call: the
    board, the occupied area and the cell sequence of the table are as
    they were, and the parent of the cell is not assigned.  It raises
    because the cell is not inside the table, or because a coordinate it
    covers is occupied. *)
Theorem add_cell_failure_no_change
    h self cell (t : TableObj) (c : CellObj) h' e :
  reachable h ->
  tables h !! self = Some t -> cells h !! cell = Some c ->
  Table.add_cell self cell h = (h', inl e) ->
  h' = h /\
  tables h' !! self = Some t /\ cells h' !! cell = Some c /\
  ((e = ValueError cell_not_inside /\ contains t c = false) \/
   (exists row col,
       e = ValueError (point_occupied row col) /\ contains t c = true /\
       covers c row col = true /\
       board_at (_board t) row col ≠ Some _UNOCCUPIED_CELL)).
Proof.
  intros Hreach Ht Hc Hrun.
  pose proof (add_cell_outcome_holds h self cell (reachable_inv _ Hreach))
    as Hout.
  rewrite Hrun in Hout.
  inversion Hout as [Hnt|Hnc|t0 c0 Ht0 Hc0 Hin|t0 c0 rs row col Ht0 Hc0 Hinv Hin Hscan|];
    subst; try congruence.
  - repeat split; [done..|]. left. split; [done|]. congruence.
  - repeat split; [done..|]. right. exists row, col.
    assert (t0 = t) as -> by congruence.
    assert (c0 = c) as -> by congruence.
    apply scan_Some in Hscan as (i & j & Hi & Hj & Hocc & _).
    apply range_lookup in Hi as [-> Hi]. apply range_lookup in Hj as [-> Hj].
    repeat split; [done| |].
    + unfold covers. rewrite !andb_true_iff, !Z.leb_le. lia.
    + unfold occupied in Hocc. by apply bool_decide_eq_true in Hocc.
Qed.

(** The cell over the whole grid of the diagonal scenario is refused, and
    has no parent afterwards as before. *)
Lemma add_cell_failure_no_change_witness :
  overlap_table = overlap_table /\
  tables overlap_table !! 0%nat = Some overlap_table_obj /\
  cells overlap_table !! 2%nat = Some (mkCell (mkRect 0 0 2 2) None []) /\
  ((ValueError (point_occupied 0 1) = ValueError cell_not_inside /\
    contains overlap_table_obj (mkRect 0 0 2 2) = false) \/
   (exists row col,
       ValueError (point_occupied 0 1) = ValueError (point_occupied row col) /\
       contains overlap_table_obj (mkRect 0 0 2 2) = true /\
       covers (mkRect 0 0 2 2) row col = true /\
       board_at (_board overlap_table_obj) row col ≠ Some _UNOCCUPIED_CELL)).
Proof.
  apply (add_cell_failure_no_change overlap_table 0%nat 2%nat overlap_table_obj
           (mkCell (mkRect 0 0 2 2) None []) overlap_table
           (ValueError (point_occupied 0 1))).
  - apply reachable_exec_all; [constructor|vm_compute; reflexivity].
  - vm_compute. reflexivity.
  - vm_compute. reflexivity.
  - vm_compute. reflexivity.
Defined.

(** C6: the coordinate named by the error of the overlap check is covered
    by the cell, is occupied, and every coordinate of the cell before it in
    row-major order (an earlier row, or the same row and an earlier column)
    is unoccupied. *)
Theorem add_cell_reports_first_occupied
    h self cell (t : TableObj) (c : CellObj) h' row col :
  reachable h ->
  tables h !! self = Some t -> cells h !! cell = Some c ->
  Table.add_cell self cell h = (h', inl (ValueError (point_occupied row col))) ->
  covers c row col = true /\
  board_at (_board t) row col ≠ Some _UNOCCUPIED_CELL /\
  forall row' col',
    covers c row' col' = true ->
    row' < row \/ (row' = row /\ col' < col) ->
    board_at (_board t) row' col' = Some _UNOCCUPIED_CELL.
Proof.
  intros Hreach Ht Hc Hrun.
  pose proof (add_cell_outcome_holds h self cell (reachable_inv _ Hreach))
    as Hout.
  rewrite Hrun in Hout.
  inversion Hout as [| | |t0 c0 rs row0 col0 Ht0 Hc0 Hinv Hin Hscan|]; subst.
  assert (t0 = t) as -> by congruence.
  assert (c0 = c) as -> by congruence.
  apply scan_Some in Hscan as (i & j & Hi & Hj & Hocc & Hfirst).
  apply range_lookup in Hi as [-> Hi]. apply range_lookup in Hj as [-> Hj].
  split; [|split].
  - unfold covers. rewrite !andb_true_iff, !Z.leb_le. lia.
  - unfold occupied in Hocc. by apply bool_decide_eq_true in Hocc.
  - intros row' col' Hcov Hbefore.
    unfold covers in Hcov. rewrite !andb_true_iff, !Z.leb_le in Hcov.
    specialize (Hfirst (Z.to_nat (row' - top c)) (Z.to_nat (col' - left c))
                       row' col').
    unfold occupied in Hfirst. rewrite bool_decide_eq_false in Hfirst.
    apply dec_stable, Hfirst.
    + apply range_lookup. lia.
    + apply range_lookup. lia.
    + lia.
Qed.

Lemma add_cell_reports_first_occupied_witness :
  covers (mkRect 0 0 2 2) 0 1 = true /\
  board_at (_board overlap_table_obj) 0 1 ≠ Some _UNOCCUPIED_CELL /\
  forall row' col',
    covers (mkRect 0 0 2 2) row' col' = true ->
    row' < 0 \/ (row' = 0 /\ col' < 1) ->
    board_at (_board overlap_table_obj) row' col' = Some _UNOCCUPIED_CELL.
Proof.
  apply (add_cell_reports_first_occupied overlap_table 0%nat 2%nat
           overlap_table_obj (mkCell (mkRect 0 0 2 2) None [])
           overlap_table 0 1).
  - apply reachable_exec_all; [constructor|vm_compute; reflexivity].
  - vm_compute. reflexivity.
  - vm_compute. reflexivity.
  - vm_compute. reflexivity.
Defined.

(** C7: in a table that is ready to move, [move] raises exactly when the
    parent of the cell is not the table.  The heap is the same after the
    call in either case, and the error does not depend on the board: it is
    raised whatever the board holds. *)
Theorem move_raises_iff_foreign
    h self cell (t : TableObj) (c : CellObj) direction :
  reachable h ->
  tables h !! self = Some t -> cells h !! cell = Some c ->
  result (Table.ready_to_move self) h = inr true ->
  ((exists e, result (Table.move self cell direction) h = inl e) <->
   parent c ≠ Some self) /\
  run (Table.move self cell direction) h = h /\
  (parent c ≠ Some self ->
   forall b,
     Table.move self cell direction (upd_table h self (set_board t b))
     = (upd_table h self (set_board t b), inl (ValueError parent_not_table))).
Proof.
  intros Hreach Ht Hc Hready.
  apply (ready_true _ _ _ Ht) in Hready.
  split; [|split].
  - split.
    + intros [e He] Hparent. unfold result in He.
      rewrite (move_run _ _ _ _ _ _ Ht Hc Hready Hparent) in He. simpl in He.
      destruct (Table.probe c direction) as [x y].
      destruct (contains_point t x y) eqn:Hin; [|done].
      destruct (proj1 (reachable_inv _ Hreach) _ _ Ht) as [rs Hinv].
      destruct (lookup_full _ _ _ _ _ Hinv Hready Hin)
        as (i & r & res & row & _ & _ & _ & _ & _ & Hrow & Hi & Hget).
      by rewrite Hrow, Hi, Hget in He.
    + intros Hparent. exists (ValueError parent_not_table). unfold result.
      by rewrite (move_foreign _ _ _ _ _ _ Ht Hc Hready Hparent).
  - apply Table_move_heap.
  - intros Hparent b.
    by apply (move_foreign _ _ _ (set_board t b) c);
      [apply upd_table_lookup|..].
Qed.

Lemma move_raises_iff_foreign_witness :
  ((exists e, result (Table.move 0 3 UP) foreign_heap = inl e) <->
   None ≠ Some 0%nat) /\
  run (Table.move 0 3 UP) foreign_heap = foreign_heap /\
  (None ≠ Some 0%nat ->
   forall b,
     Table.move 0 3 UP (upd_table foreign_heap 0 (set_board merged_table_obj b))
     = (upd_table foreign_heap 0 (set_board merged_table_obj b),
        inl (ValueError parent_not_table))).
Proof.
  apply (move_raises_iff_foreign foreign_heap 0%nat 3%nat merged_table_obj
           (mkCell (mkRect 0 0 1 1) None []) UP).
  - apply reachable_exec_all; [constructor|vm_compute; reflexivity].
  - vm_compute. reflexivity.
  - vm_compute. reflexivity.
  - vm_compute. reflexivity.
Defined.

(** C8: [append_paragraph] raises exactly when the paragraph has a parent
    already, whichever cell it is called on; otherwise the paragraph gets
    the cell as parent, is appended at the end of the paragraphs of the
    cell, and the cell is returned. *)
Theorem append_paragraph_ownership h self paragraph (c : CellObj) p :
  cells h !! self = Some c -> paragraphs h !! paragraph = Some p ->
  ((exists e, result (Cell.append_paragraph self paragraph) h = inl e) <->
   paragraph_parent p ≠ None) /\
  (paragraph_parent p ≠ None ->
   Cell.append_paragraph self paragraph h
   = (h, inl (ValueError paragraph_has_parent))) /\
  (paragraph_parent p = None ->
   Cell.append_paragraph self paragraph h
   = (upd_cell (upd_paragraph h paragraph (mkParagraph (Some self))) self
        (set_paragraphs c (_paragraphs c ++ [paragraph])),
      inr self)).
Proof.
  intros Hc Hp. unfold result.
  rewrite (append_paragraph_run _ _ _ _ _ Hc Hp).
  destruct (paragraph_parent p) as [q|]; simpl.
  - split; [|split]; [|done|done]. split; [done|]. eauto.
  - split; [|split]; [|done|done]. split; [|done]. by intros [e ?].
Qed.

Lemma append_paragraph_ownership_witness :
  ((exists e, result (Cell.append_paragraph 1 0) paragraph_heap = inl e) <->
   Some 0%nat ≠ None) /\
  (Some 0%nat ≠ None ->
   Cell.append_paragraph 1 0 paragraph_heap
   = (paragraph_heap, inl (ValueError paragraph_has_parent))) /\
  (Some 0%nat = None ->
   Cell.append_paragraph 1 0 paragraph_heap
   = (upd_cell (upd_paragraph paragraph_heap 0 (mkParagraph (Some 1%nat)))
        1 (set_paragraphs (mkCell (mkRect 1 0 1 1) None []) ([] ++ [0%nat])),
      inr 1%nat)).
Proof.
  apply (append_paragraph_ownership paragraph_heap 1%nat 0%nat
           (mkCell (mkRect 1 0 1 1) None []) (mkParagraph (Some 0%nat))).
  - vm_compute. reflexivity.
  - vm_compute. reflexivity.
Defined.

(** C9: in a table that is ready to move, at every coordinate inside the
    table the board holds an index that is not the unoccupied marker and
    is within [_cells]; the three lookups of [move] succeed without
    negative indexing, and the cell found is in [_cells] and covers the
    coordinate. *)
Theorem move_lookup_in_range h self (t : TableObj) x y :
  reachable h -> tables h !! self = Some t ->
  result (Table.ready_to_move self) h = inr true ->
  contains_point t x y = true ->
  exists (i : nat) row res r,
    0 <= y /\ 0 <= x /\
    getitem (_board t) y = inr row /\
    getitem row x = inr (Z.of_nat i) /\
    Z.of_nat i ≠ _UNOCCUPIED_CELL /\
    (i < length (_cells t))%nat /\
    getitem (_cells t) (Z.of_nat i) = inr res /\
    _cells t !! i = Some res /\
    rect_of h res = Some r /\ covers r y x = true.
Proof.
  intros Hreach Ht Hready Hin.
  apply (ready_true _ _ _ Ht) in Hready.
  destruct (proj1 (reachable_inv _ Hreach) _ _ Ht) as [rs Hinv].
  destruct (lookup_full _ _ _ _ _ Hinv Hready Hin)
    as (i & r & res & row & _ & _ & Hc & Hres & Hrect & Hrow & Hi & Hget).
  exists i, row, res, r.
  assert (0 <= y /\ 0 <= x) as [Hy Hx].
  { unfold contains_point in Hin. rewrite !andb_true_iff, !Z.leb_le in Hin.
    rewrite (inv_left _ _ _ Hinv), (inv_top _ _ _ Hinv) in Hin. lia. }
  repeat split; try done.
  - unfold _UNOCCUPIED_CELL. lia.
  - by apply lookup_lt_Some in Hres.
Qed.

Lemma move_lookup_in_range_witness :
  exists (i : nat) row res r,
    0 <= 1 /\ 0 <= 0 /\
    getitem (_board merged_table_obj) 1 = inr row /\
    getitem row 0 = inr (Z.of_nat i) /\
    Z.of_nat i ≠ _UNOCCUPIED_CELL /\
    (i < length (_cells merged_table_obj))%nat /\
    getitem (_cells merged_table_obj) (Z.of_nat i) = inr res /\
    _cells merged_table_obj !! i = Some res /\
    rect_of merged_table res = Some r /\ covers r 1 0 = true.
Proof.
  apply (move_lookup_in_range merged_table 0%nat merged_table_obj 0 1).
  - apply reachable_exec_all; [constructor|vm_compute; reflexivity].
  - vm_compute. reflexivity.
  - vm_compute. reflexivity.
  - vm_compute. reflexivity.
Defined.

(** C10: in a table that is ready to move, [move] on a cell of the table
    does not return that cell: the coordinate it looks at is outside the
    rectangle of the cell, and the result is [None] or another cell. *)
Theorem move_not_self h self cell (t : TableObj) (c : CellObj) direction :
  reachable h ->
  tables h !! self = Some t -> cells h !! cell = Some c ->
  result (Table.ready_to_move self) h = inr true ->
  parent c = Some self ->
  covers c (Table.probe c direction).2 (Table.probe c direction).1 = false /\
  (result (Table.move self cell direction) h = inr None \/
   exists res, result (Table.move self cell direction) h = inr (Some res) /\
               res ≠ cell).
Proof.
  intros Hreach Ht Hc Hready Hparent.
  split; [apply probe_outside|].
  apply (ready_true _ _ _ Ht) in Hready.
  unfold result. rewrite (move_run _ _ _ _ _ _ Ht Hc Hready Hparent). simpl.
  pose proof (probe_outside c direction) as Hout.
  destruct (Table.probe c direction) as [x y]. simpl in Hout.
  destruct (contains_point t x y) eqn:Hin; [|by left].
  destruct (proj1 (reachable_inv _ Hreach) _ _ Ht) as [rs Hinv].
  destruct (lookup_full _ _ _ _ _ Hinv Hready Hin)
    as (i & r & res & row & _ & _ & Hcov & _ & Hrect & Hrow & Hi & Hget).
  right. exists res. rewrite Hrow, Hi, Hget. split; [done|].
  intros ->. unfold rect_of in Hrect. rewrite Hc in Hrect.
  injection Hrect as <-. congruence.
Qed.

Lemma move_not_self_witness :
  covers (mkRect 0 0 2 1) (Table.probe (mkRect 0 0 2 1) DOWN).2
         (Table.probe (mkRect 0 0 2 1) DOWN).1 = false /\
  (result (Table.move 0 0 DOWN) merged_table = inr None \/
   exists res, result (Table.move 0 0 DOWN) merged_table = inr (Some res) /\
               res ≠ 0%nat).
Proof.
  apply (move_not_self merged_table 0%nat 0%nat merged_table_obj
           (mkCell (mkRect 0 0 2 1) (Some 0%nat) []) DOWN).
  - apply reachable_exec_all; [constructor|vm_compute; reflexivity].
  - vm_compute. reflexivity.
  - vm_compute. reflexivity.
  - vm_compute. reflexivity.
  - reflexivity.
Defined.

(** C5: [ready_to_move] returns whether the occupied area equals the area
    of the table, which holds exactly when every coordinate of the grid is
    covered by a cell of the table; a table just constructed with
    non-negative [row_num] and [col_num] is ready exactly when
    [row_num * col_num] is 0. *)
Theorem ready_to_move_full_coverage
    h self (t : TableObj) new row_num col_num :
  reachable h -> tables h !! self = Some t ->
  0 <= row_num -> 0 <= col_num ->
  result (Table.ready_to_move self) h
    = inr (bool_decide (_occupied_area t = area t)) /\
  (exists rs,
      Forall2 (fun cell r => rect_of h cell = Some r) (_cells t) rs /\
      (_occupied_area t = area t <->
       forall row col, 0 <= row < height t -> 0 <= col < width t ->
                       exists r, r ∈ rs /\ covers r row col = true)) /\
  result (Table.__init__ new row_num col_num;; Table.ready_to_move new) h
    = inr (bool_decide (row_num * col_num = 0)).
Proof.
  intros Hreach Ht Hr Hc. split; [|split].
  - unfold result. by rewrite ready_to_move_run, Ht.
  - destruct (proj1 (reachable_inv _ Hreach) _ _ Ht) as [rs Hinv].
    exists rs. split; [apply Hinv|].
    rewrite (occupied_area_full _ _ _ Hinv).
    split; intros H row col Hrow Hcol; apply covered_true; by apply H.
  - unfold result, Table.__init__. rewrite bind_put_table.
    rewrite ready_to_move_run, upd_table_lookup. simpl. f_equal.
    apply bool_decide_ext. unfold area. simpl. lia.
Qed.

Lemma ready_to_move_full_coverage_witness :
  result (Table.ready_to_move 0) merged_table
    = inr (bool_decide (_occupied_area merged_table_obj
                        = area merged_table_obj)) /\
  (exists rs,
      Forall2 (fun cell r => rect_of merged_table cell = Some r)
              (_cells merged_table_obj) rs /\
      (_occupied_area merged_table_obj = area merged_table_obj <->
       forall row col,
         0 <= row < height merged_table_obj ->
         0 <= col < width merged_table_obj ->
         exists r, r ∈ rs /\ covers r row col = true)) /\
  result (Table.__init__ 1 2 3;; Table.ready_to_move 1) merged_table
    = inr (bool_decide (2 * 3 = 0)).
Proof.
  apply (ready_to_move_full_coverage merged_table 0%nat merged_table_obj
           1%nat 2 3).
  - apply reachable_exec_all; [constructor|vm_compute; reflexivity].
  - vm_compute. reflexivity.
  - lia.
  - lia.
Defined.

(** C4: the claim is that the parent of a cell is set once, by the
    [add_cell] that inserts it, and never changes.  [add_cell] does not
    look at the parent of the cell it is given: a cell inserted into table
    0 is accepted by [add_cell] of table 1, which assigns its parent again;
    the cell stays in [_cells] of table 0, whose [move] then refuses it. *)
Theorem add_cell_reassigns_parent :
  reachable reparent_heap /\
  (parent <$> cells reparent_heap !! 0%nat) = Some (Some 0%nat) /\
  result (Table.add_cell 1 0) reparent_heap = inr 1%nat /\
  (parent <$> cells (run (Table.add_cell 1 0) reparent_heap) !! 0%nat)
    = Some (Some 1%nat) /\
  (_cells <$> tables (run (Table.add_cell 1 0) reparent_heap) !! 0%nat)
    = Some [0%nat] /\
  result (Table.move 0 0 UP) (run (Table.add_cell 1 0) reparent_heap)
    = inl (ValueError parent_not_table).
Proof.
  split.
  - apply reachable_exec_all; [constructor|vm_compute; reflexivity].
  - vm_compute. repeat split; reflexivity.
Qed.

(** * Further properties of the code *)

(** ** One call at a time *)

Lemma exec_effect h c :
  heap_inv h -> valid_call h c = true -> effect h (exec c h).
Proof.
  intros Hinv Hv. destruct c as [self rect|self|self row_num col_num
    |self cell|self paragraph|self|self cell d|self d].
  - simpl in Hv. rewrite !andb_true_iff, bool_decide_eq_true, !Z.leb_le in Hv.
    destruct Hv as [[Hfresh Hw] Hh]. by apply effect_new_Cell.
  - simpl in Hv. rewrite bool_decide_eq_true in Hv.
    by apply effect_new_TextParagraph.
  - simpl in Hv. rewrite !andb_true_iff, bool_decide_eq_true, !Z.leb_le in Hv.
    destruct Hv as [[Hfresh Hr] Hc].
    apply effect_new_Table; [done|done|by apply table_inv_init].
  - pose proof (add_cell_outcome_holds h self cell Hinv) as Hout.
    unfold exec, run. destruct Hout; try apply effect_none. simpl.
    by apply (effect_add_cell _ _ _ t c rs t' rs').
  - unfold exec, run.
    destruct (cells h !! self) as [c|] eqn:Hc;
      [|rewrite append_paragraph_missing by auto; apply effect_none].
    destruct (paragraphs h !! paragraph) as [p|] eqn:Hp;
      [|rewrite append_paragraph_missing by auto; apply effect_none].
    rewrite (append_paragraph_run _ _ _ _ _ Hc Hp).
    destruct (paragraph_parent p) eqn:Hpp; simpl; [apply effect_none|].
    by apply (effect_append_paragraph _ _ _ c p).
  - unfold exec, run. rewrite ready_to_move_run. apply effect_none.
  - unfold exec. rewrite Table_move_heap. apply effect_none.
  - unfold exec. rewrite Cell_move_heap. apply effect_none.
Qed.

(** ** Ownership is kept *)

Lemma own_inv_empty : own_inv empty_heap.
Proof.
  split; intros *; simpl; rewrite lookup_empty; done.
Qed.

Lemma own_inv_effect h h' : own_inv h -> effect h h' -> own_inv h'.
Proof.
  intros [P1 P2 P3 P4] Heff.
  destruct Heff as [|self rect Hfresh Hwf|self Hfresh|self t Hfresh Hnil Hinv
    |self cell t c rs t' rs' Ht Hc Hinv Hin Hscan Hinv' Hperm Hrect Hcells
    |self q0 c p Hc Hp Hpp].
  - by split.
  - split; cbn.
    + intros x cx p. destruct (decide (self = x)) as [<-|Hne].
      * rewrite lookup_insert_eq. by intros [= <-].
      * rewrite lookup_insert_ne by done. apply P1.
    + intros x cx q. destruct (decide (self = x)) as [<-|Hne].
      * rewrite lookup_insert_eq. intros [= <-]. simpl. by intros ?%elem_of_nil.
      * rewrite lookup_insert_ne by done. apply P2.
    + intros x cx. destruct (decide (self = x)) as [<-|Hne].
      * rewrite lookup_insert_eq. intros [= <-]. constructor.
      * rewrite lookup_insert_ne by done. apply P3.
    + intros q po x Hq Hpo. destruct (P4 _ _ _ Hq Hpo) as (cx & Hx & Hel).
      exists cx. split; [|done]. rewrite lookup_insert_ne; [done|].
      intros <-. congruence.
  - split; cbn.
    + apply P1.
    + intros x cx q Hx Hel. pose proof (P2 _ _ _ Hx Hel) as Hq.
      rewrite lookup_insert_ne; [done|]. intros <-. congruence.
    + apply P3.
    + intros q po x. destruct (decide (self = q)) as [<-|Hne].
      * rewrite lookup_insert_eq. by intros [= <-].
      * rewrite lookup_insert_ne by done. apply P4.
  - split; cbn; [|done..].
    intros x cx p Hx Hpar. destruct (P1 _ _ _ Hx Hpar) as (t0 & Ht0 & Hel).
    exists t0. split; [|done]. rewrite lookup_insert_ne; [done|].
    intros <-. congruence.
  - assert (forall x, x ∈ _cells t -> x ∈ _cells t') as Hsub.
    { intros x Hx. rewrite Hcells. apply elem_of_app. by left. }
    assert (cell ∈ _cells t') as Hnew.
    { rewrite Hcells. apply elem_of_app. right. by apply list_elem_of_singleton. }
    split; cbn.
    + intros x cx p. destruct (decide (cell = x)) as [<-|Hne].
      * rewrite lookup_insert_eq. intros [= <-]. simpl. intros [= <-].
        exists t'. by rewrite lookup_insert_eq.
      * rewrite lookup_insert_ne by done. intros Hx Hpar.
        destruct (P1 _ _ _ Hx Hpar) as (t0 & Ht0 & Hel).
        destruct (decide (self = p)) as [<-|Hnp].
        -- exists t'. rewrite lookup_insert_eq. split; [done|].
           apply Hsub. congruence.
        -- exists t0. by rewrite lookup_insert_ne.
    + intros x cx q. destruct (decide (cell = x)) as [<-|Hne].
      * rewrite lookup_insert_eq. intros [= <-]. simpl. by apply P2.
      * rewrite lookup_insert_ne by done. apply P2.
    + intros x cx. destruct (decide (cell = x)) as [<-|Hne].
      * rewrite lookup_insert_eq. intros [= <-]. simpl. by apply (P3 cell).
      * rewrite lookup_insert_ne by done. apply P3.
    + intros q po x Hq Hpo. destruct (P4 _ _ _ Hq Hpo) as (cx & Hx & Hel).
      destruct (decide (cell = x)) as [<-|Hne].
      * exists (set_parent c (Some self)). rewrite lookup_insert_eq.
        split; [done|]. simpl. congruence.
      * exists cx. by rewrite lookup_insert_ne.
  - assert (forall x (cx : CellObj), cells h !! x = Some cx ->
              q0 ∉ _paragraphs cx) as Hnot.
    { intros x cx Hx Hel. pose proof (P2 _ _ _ Hx Hel) as Hq.
      rewrite Hp in Hq. injection Hq as ->. done. }
    split; cbn.
    + intros x cx p'. destruct (decide (self = x)) as [<-|Hne].
      * rewrite lookup_insert_eq. intros [= <-]. simpl. by apply P1.
      * rewrite lookup_insert_ne by done. apply P1.
    + intros x cx q. destruct (decide (self = x)) as [<-|Hne].
      * rewrite lookup_insert_eq. intros [= <-]. simpl.
        intros [Hel|Hel%list_elem_of_singleton]%elem_of_app.
        -- rewrite lookup_insert_ne; [by apply (P2 self c)|].
           intros <-. by apply (Hnot self c).
        -- subst q. by rewrite lookup_insert_eq.
      * rewrite lookup_insert_ne by done. intros Hx Hel.
        rewrite lookup_insert_ne; [by apply (P2 x cx)|].
        intros <-. by apply (Hnot x cx).
    + intros x cx. destruct (decide (self = x)) as [<-|Hne].
      * rewrite lookup_insert_eq. intros [= <-]. simpl.
        apply NoDup_app. split; [by apply (P3 self)|]. split.
        -- intros q Hel Hq%list_elem_of_singleton. subst q.
           by apply (Hnot self c).
        -- apply NoDup_singleton.
      * rewrite lookup_insert_ne by done. apply P3.
    + intros q po x. destruct (decide (q0 = q)) as [<-|Hne].
      * rewrite lookup_insert_eq. intros [= <-]. simpl. intros [= <-].
        exists (set_paragraphs c (_paragraphs c ++ [q0])).
        rewrite lookup_insert_eq. split; [done|]. simpl.
        apply elem_of_app. right. by apply list_elem_of_singleton.
      * rewrite lookup_insert_ne by done. intros Hq Hpo.
        destruct (P4 _ _ _ Hq Hpo) as (cx & Hx & Hel).
        destruct (decide (self = x)) as [<-|Hnx].
        -- exists (set_paragraphs c (_paragraphs c ++ [q0])).
           rewrite lookup_insert_eq. split; [done|]. simpl.
           apply elem_of_app. left. congruence.
        -- exists cx. by rewrite lookup_insert_ne.
Qed.

Lemma reachable_own h : reachable h -> own_inv h.
Proof.
  induction 1 as [|h c Hr IH Hv]; [apply own_inv_empty|].
  apply (own_inv_effect h); [done|].
  apply exec_effect; [by apply reachable_inv|done].
Qed.

(** ** When [add_cell] succeeds *)

Lemma covers_spec r row col :
  covers r row col = true <->
  top r <= row <= bottom r /\ left r <= col <= right r.
Proof. unfold covers. rewrite !andb_true_iff, !Z.leb_le. lia. Qed.

(** A coordinate of the grid is occupied on the board exactly when a cell
    of the table covers it. *)
Lemma occupied_covered h (t : TableObj) rs row col :
  table_inv h t rs ->
  0 <= row < height t -> 0 <= col < width t ->
  occupied (_board t) row col = covered rs row col.
Proof.
  intros Hinv Hrow Hcol. unfold occupied.
  rewrite (inv_board _ _ _ Hinv) by done.
  destruct (covered rs row col) eqn:Hcov.
  - apply bool_decide_eq_true. intros [= Hnone%owner_None].
    apply covered_true in Hcov as (r & Hr & Hc).
    rewrite Forall_forall in Hnone. specialize (Hnone r Hr). congruence.
  - apply bool_decide_eq_false. intros Hne. apply Hne. f_equal.
    apply owner_None, Forall_forall. intros r Hr.
    destruct (covers r row col) eqn:Hc; [|done].
    assert (covered rs row col = true) by (apply covered_true; eauto).
    congruence.
Qed.

Lemma scan_rect_None_iff h (t : TableObj) rs (c : Rect) :
  table_inv h t rs -> contains t c = true ->
  scan_rect (_board t) c = None <-> Forall (fun r => disjoint r c) rs.
Proof.
  intros Hinv Hin. split; [by apply (scan_disjoint h)|].
  intros Hdis. destruct (scan_rect (_board t) c) as [[row col]|] eqn:Hscan;
    [exfalso|done].
  pose proof (inv_grid _ _ _ Hinv) as [Hg _].
  pose proof (inv_width _ _ _ Hinv) as Hw.
  pose proof (inv_height _ _ _ Hinv) as Hh.
  destruct (contains_inside _ _ _ _ Hg Hin) as (H1 & H2 & H3 & H4).
  apply scan_Some in Hscan as (i & j & Hi & Hj & Hocc & _).
  apply range_lookup in Hi as [-> Hi]. apply range_lookup in Hj as [-> Hj].
  rewrite (occupied_covered _ _ _ _ _ Hinv) in Hocc by lia.
  apply covered_true in Hocc as (r & Hr & Hc).
  rewrite Forall_forall in Hdis.
  apply (Hdis r Hr (top c + Z.of_nat i) (left c + Z.of_nat j)).
  split; [done|]. apply covers_spec. lia.
Qed.

(** X1: [add_cell] succeeds exactly when the cell is inside the table and
    shares no coordinate with a cell of the table. *)
Theorem add_cell_succeeds_iff h self cell (t : TableObj) (c : CellObj) :
  reachable h ->
  tables h !! self = Some t -> cells h !! cell = Some c ->
  (exists h', Table.add_cell self cell h = (h', inr self)) <->
  contains t c = true /\
  forall other (co : CellObj),
    other ∈ _cells t -> cells h !! other = Some co -> disjoint co c.
Proof.
  intros Hreach Ht Hc.
  pose proof (reachable_inv _ Hreach) as [Htab Hwf].
  destruct (Htab _ _ Ht) as [rs Hinv]. split.
  - intros [h' Hrun].
    destruct (contains t c) eqn:Hin;
      [|by rewrite (add_cell_not_inside _ _ _ _ _ Ht Hc Hin) in Hrun].
    split; [done|].
    destruct (scan_rect (_board t) c) as [[row col]|] eqn:Hscan;
      [by rewrite (add_cell_occupied _ _ _ _ _ _ _ _ Ht Hc Hinv Hin Hscan)
         in Hrun|].
    apply (scan_rect_None_iff _ _ _ _ Hinv Hin) in Hscan.
    intros other co [i Hi]%list_elem_of_lookup Hco.
    destruct (Forall2_lookup_l _ _ _ _ _ (inv_rects _ _ _ Hinv) Hi)
      as (r & Hr & Hrect).
    unfold rect_of in Hrect. rewrite Hco in Hrect. injection Hrect as <-.
    by apply (Forall_lookup_1 _ _ _ _ Hscan Hr).
  - intros [Hin Hdis].
    assert (scan_rect (_board t) c = None) as Hscan.
    { apply (scan_rect_None_iff _ _ _ _ Hinv Hin), Forall_lookup.
      intros i r Hr.
      destruct (Forall2_lookup_r _ _ _ _ _ (inv_rects _ _ _ Hinv) Hr)
        as (other & Hi & Hrect).
      destruct (rect_of_Some _ _ _ Hrect) as (co & Hco & <-).
      apply (Hdis other co); [|done]. apply list_elem_of_lookup. eauto. }
    destruct (add_cell_success _ _ _ _ _ _ Ht Hc Hinv (Hwf _ _ Hc) Hin Hscan)
      as (t' & rs' & Hrun & _). eauto.
Qed.

Lemma add_cell_succeeds_iff_witness :
  (exists h', Table.add_cell 0 1 merged_before = (h', inr 0%nat)) <->
  contains merged_before_obj (mkRect 0 1 1 1) = true /\
  forall other (co : CellObj),
    other ∈ _cells merged_before_obj ->
    cells merged_before !! other = Some co ->
    disjoint co (mkRect 0 1 1 1).
Proof.
  apply (add_cell_succeeds_iff merged_before 0%nat 1%nat merged_before_obj
           (mkCell (mkRect 0 1 1 1) None [])).
  - apply reachable_exec_all; [constructor|vm_compute; reflexivity].
  - vm_compute. reflexivity.
  - vm_compute. reflexivity.
Defined.

Lemma sum_area_perm rs rs' :
  rs ≡ₚ rs' ->
  foldr (fun r a => area r + a) 0 rs = foldr (fun r a => area r + a) 0 rs'.
Proof. induction 1; simpl; lia. Qed.

Lemma sum_area_snoc rs r :
  foldr (fun r a => area r + a) 0 (rs ++ [r])
  = foldr (fun r a => area r + a) 0 rs + area r.
Proof. induction rs as [|r0 rs IH]; simpl; lia. Qed.

(** X2: a successful [add_cell] makes the table the parent of the cell,
    adds the cell to [_cells] (which holds the cells of before and the new
    one), raises the occupied area by the area of the cell, and leaves the
    rectangle of the table as it was. *)
Theorem add_cell_commits h self cell (t : TableObj) (c : CellObj) h' res :
  reachable h ->
  tables h !! self = Some t -> cells h !! cell = Some c ->
  Table.add_cell self cell h = (h', inr res) ->
  res = self /\
  cells h' !! cell = Some (set_parent c (Some self)) /\
  exists t' : TableObj,
    tables h' !! self = Some t' /\
    _cells t' ≡ₚ _cells t ++ [cell] /\
    length (_cells t') = S (length (_cells t)) /\
    _occupied_area t' = _occupied_area t + area c /\
    table_rect t' = table_rect t.
Proof.
  intros Hreach Ht Hc Hrun.
  pose proof (add_cell_outcome_holds h self cell (reachable_inv _ Hreach))
    as Hout.
  rewrite Hrun in Hout.
  inversion Hout as [| | | |t0 c0 rs t' rs' Ht0 Hc0 Hinv Hin Hscan Hinv' Hperm
                             Hrect Hcells]; subst.
  assert (t0 = t) as -> by congruence.
  assert (c0 = c) as -> by congruence.
  split; [done|]. split.
  - cbn. by rewrite lookup_insert_eq.
  - exists t'. split; [apply upd_table_lookup|]. split; [done|].
    split; [by rewrite Hcells, length_app, Nat.add_comm|]. split; [|done].
    rewrite (inv_area _ _ _ Hinv'), (inv_area _ _ _ Hinv).
    by rewrite (sum_area_perm _ _ Hperm), sum_area_snoc.
Qed.

Lemma add_cell_commits_witness :
  0%nat = 0%nat /\
  cells merged_table !! 1%nat
    = Some (set_parent (mkCell (mkRect 0 1 1 1) None []) (Some 0%nat)) /\
  exists t' : TableObj,
    tables merged_table !! 0%nat = Some t' /\
    _cells t' ≡ₚ _cells merged_before_obj ++ [1%nat] /\
    length (_cells t') = S (length (_cells merged_before_obj)) /\
    _occupied_area t'
      = _occupied_area merged_before_obj + area (mkRect 0 1 1 1) /\
    table_rect t' = table_rect merged_before_obj.
Proof.
  apply (add_cell_commits merged_before 0%nat 1%nat merged_before_obj
           (mkCell (mkRect 0 1 1 1) None []) merged_table 0%nat).
  - apply reachable_exec_all; [constructor|vm_compute; reflexivity].
  - vm_compute. reflexivity.
  - vm_compute. reflexivity.
  - vm_compute. reflexivity.
Defined.

(** X3: [add_cell] touches the table it is called on and the parent of the
    cell it is given, and nothing else: the other tables, the other cells,
    the paragraphs, the rectangle and the paragraphs of the cell are as
    before, whether it returns or raises. *)
Theorem add_cell_frame h self cell h' res :
  reachable h ->
  Table.add_cell self cell h = (h', res) ->
  (forall other, other ≠ self -> tables h' !! other = tables h !! other) /\
  (forall other, other ≠ cell -> cells h' !! other = cells h !! other) /\
  paragraphs h' = paragraphs h /\
  (cell_rect <$> cells h' !! cell) = (cell_rect <$> cells h !! cell) /\
  (_paragraphs <$> cells h' !! cell) = (_paragraphs <$> cells h !! cell).
Proof.
  intros Hreach Hrun.
  pose proof (add_cell_outcome_holds h self cell (reachable_inv _ Hreach))
    as Hout.
  rewrite Hrun in Hout.
  inversion Hout as [| | | |t c rs t' rs' Ht Hc Hinv Hin Hscan Hinv' Hperm
                             Hrect Hcells]; subst; try done.
  cbn. repeat split.
  - intros other Hne. by rewrite lookup_insert_ne.
  - intros other Hne. by rewrite lookup_insert_ne.
  - by rewrite lookup_insert_eq, Hc.
  - by rewrite lookup_insert_eq, Hc.
Qed.

Lemma add_cell_frame_witness :
  (forall other, other ≠ 1%nat ->
     tables (run (Table.add_cell 1 0) reparent_heap) !! other
     = tables reparent_heap !! other) /\
  (forall other, other ≠ 0%nat ->
     cells (run (Table.add_cell 1 0) reparent_heap) !! other
     = cells reparent_heap !! other) /\
  paragraphs (run (Table.add_cell 1 0) reparent_heap)
    = paragraphs reparent_heap /\
  (cell_rect <$> cells (run (Table.add_cell 1 0) reparent_heap) !! 0%nat)
    = (cell_rect <$> cells reparent_heap !! 0%nat) /\
  (_paragraphs <$> cells (run (Table.add_cell 1 0) reparent_heap) !! 0%nat)
    = (_paragraphs <$> cells reparent_heap !! 0%nat).
Proof.
  apply (add_cell_frame reparent_heap 1%nat 0%nat _
           (result (Table.add_cell 1 0) reparent_heap)).
  - apply reachable_exec_all; [constructor|vm_compute; reflexivity].
  - unfold run, result. by destruct (Table.add_cell 1 0 reparent_heap).
Defined.

Lemma range_first a b : a < b -> exists l, range a b = a :: l.
Proof.
  intros Hab. destruct (range a b) as [|x l] eqn:E.
  - assert (a ∈ range a b) as Hel by (apply elem_of_range; lia).
    rewrite E in Hel. by apply elem_of_nil in Hel.
  - exists l. f_equal.
    assert (range a b !! 0%nat = Some x) as Hx by by rewrite E.
    apply range_lookup in Hx as [-> _]. lia.
Qed.

(** X4: a cell of positive width and height that is in [_cells] of a table
    cannot be inserted into it again: [add_cell] raises the overlap error
    with the top-left coordinate of the cell, and changes nothing. *)
Theorem add_cell_twice h self cell (t : TableObj) (c : CellObj) :
  reachable h ->
  tables h !! self = Some t -> cells h !! cell = Some c ->
  cell ∈ _cells t -> 0 < width c -> 0 < height c ->
  Table.add_cell self cell h
  = (h, inl (ValueError (point_occupied (top c) (left c)))).
Proof.
  intros Hreach Ht Hc [j Hj]%list_elem_of_lookup Hw Hh.
  destruct (proj1 (reachable_inv _ Hreach) _ _ Ht) as [rs Hinv].
  pose proof (inv_grid _ _ _ Hinv) as [Hg _].
  destruct (Forall2_lookup_l _ _ _ _ _ (inv_rects _ _ _ Hinv) Hj)
    as (r & Hr & Hrect).
  unfold rect_of in Hrect. rewrite Hc in Hrect. injection Hrect as <-.
  assert (contains t c = true) as Hin
    by apply (Forall_lookup_1 _ _ _ _ (inv_inside _ _ _ Hinv) Hr).
  destruct (contains_inside _ _ _ _ Hg Hin) as (H1 & H2 & H3 & H4).
  apply (add_cell_occupied h self cell t c rs); [done..|].
  unfold scan_rect.
  destruct (range_first (top c) (bottom c + 1)) as [rows ->];
    [unfold bottom; lia|].
  destruct (range_first (left c) (right c + 1)) as [cols ->];
    [unfold right; lia|].
  cbn [scan find].
  rewrite (occupied_covered _ _ _ _ _ Hinv)
    by (pose proof (inv_width _ _ _ Hinv); pose proof (inv_height _ _ _ Hinv);
        unfold right, bottom in *; lia).
  assert (covered rs (top c) (left c) = true) as ->; [|done].
  apply covered_true. exists c. split.
  - apply list_elem_of_lookup. eauto.
  - apply covers_spec. unfold right, bottom. lia.
Qed.

Lemma add_cell_twice_witness :
  Table.add_cell 0 1 merged_table
  = (merged_table,
     inl (ValueError (point_occupied (top (mkRect 0 1 1 1))
                                     (left (mkRect 0 1 1 1))))).
Proof.
  apply (add_cell_twice merged_table 0%nat 1%nat merged_table_obj
           (mkCell (mkRect 0 1 1 1) (Some 0%nat) [])).
  - apply reachable_exec_all; [constructor|vm_compute; reflexivity].
  - vm_compute. reflexivity.
  - vm_compute. reflexivity.
  - simpl. apply list_elem_of_lookup. by exists 1%nat.
  - simpl. lia.
  - simpl. lia.
Defined.

(** X5: a table that is ready to move accepts no further cell of positive
    width and height: [add_cell] raises a [ValueError] and the heap is as
    before. *)
Theorem full_table_refuses h self cell (t : TableObj) (c : CellObj) :
  reachable h ->
  tables h !! self = Some t -> cells h !! cell = Some c ->
  result (Table.ready_to_move self) h = inr true ->
  0 < width c -> 0 < height c ->
  exists msg, Table.add_cell self cell h = (h, inl (ValueError msg)).
Proof.
  intros Hreach Ht Hc Hready Hw Hh.
  apply (ready_true _ _ _ Ht) in Hready.
  destruct (proj1 (reachable_inv _ Hreach) _ _ Ht) as [rs Hinv].
  pose proof (inv_grid _ _ _ Hinv) as [Hg _].
  destruct (contains t c) eqn:Hin;
    [|rewrite (add_cell_not_inside _ _ _ _ _ Ht Hc Hin); eauto].
  destruct (scan_rect (_board t) c) as [[row col]|] eqn:Hscan;
    [rewrite (add_cell_occupied _ _ _ _ _ _ _ _ Ht Hc Hinv Hin Hscan); eauto|].
  exfalso. apply (scan_rect_None_iff _ _ _ _ Hinv Hin) in Hscan.
  destruct (contains_inside _ _ _ _ Hg Hin) as (H1 & H2 & H3 & H4).
  pose proof (inv_width _ _ _ Hinv). pose proof (inv_height _ _ _ Hinv).
  assert (covered rs (top c) (left c) = true) as Hcov.
  { apply (occupied_area_full _ _ _ Hinv); [done|..];
      unfold right, bottom in *; lia. }
  apply covered_true in Hcov as (r & Hr & Hcr).
  rewrite Forall_forall in Hscan.
  apply (Hscan r Hr (top c) (left c)). split; [done|].
  apply covers_spec. unfold right, bottom. lia.
Qed.

Lemma full_table_refuses_witness :
  exists msg,
    Table.add_cell 0 3 foreign_heap = (foreign_heap, inl (ValueError msg)).
Proof.
  apply (full_table_refuses foreign_heap 0%nat 3%nat merged_table_obj
           (mkCell (mkRect 0 0 1 1) None [])).
  - apply reachable_exec_all; [constructor|vm_compute; reflexivity].
  - vm_compute. reflexivity.
  - vm_compute. reflexivity.
  - vm_compute. reflexivity.
  - simpl. lia.
  - simpl. lia.
Defined.

(** ** The occupied area *)

Lemma sum_upto_nonneg n f :
  (forall i, (i < n)%nat -> 0 <= f i) -> 0 <= sum_upto n f.
Proof.
  induction n as [|n IH]; intros H; simpl; [done|].
  specialize (H n ltac:(lia)) as Hn.
  assert (0 <= sum_upto n f) by (apply IH; intros; apply H; lia). lia.
Qed.

Lemma table_inv_area_count h (t : TableObj) rs :
  table_inv h t rs ->
  _occupied_area t
  = grid_count (Z.to_nat (height t)) (Z.to_nat (width t))
               (occupied (_board t)).
Proof.
  intros Hinv. pose proof (inv_grid _ _ _ Hinv) as [Hg _].
  pose proof (inv_width _ _ _ Hinv). pose proof (inv_height _ _ _ Hinv).
  rewrite (inv_area _ _ _ Hinv).
  rewrite (total_area t _ _ rs Hg) by apply Hinv.
  unfold grid_count. apply sum_upto_ext. intros i Hi.
  apply sum_upto_ext. intros j Hj.
  by rewrite (occupied_covered _ _ _ _ _ Hinv) by lia.
Qed.

Lemma table_inv_area_bounds h (t : TableObj) rs :
  table_inv h t rs -> 0 <= _occupied_area t <= area t.
Proof.
  intros Hinv. rewrite (table_inv_area_count _ _ _ Hinv).
  pose proof (inv_width _ _ _ Hinv). pose proof (inv_height _ _ _ Hinv).
  split.
  - apply sum_upto_nonneg. intros i _. apply sum_upto_nonneg. intros j _.
    by destruct (occupied _ _ _).
  - etransitivity; [apply grid_count_le|]. unfold area. lia.
Qed.

(** X6: the occupied area of a table is the number of entries of its board
    that are not the unoccupied marker; it is never negative and never
    more than the area of the table. *)
Theorem occupied_area_counts_board h self (t : TableObj) :
  reachable h -> tables h !! self = Some t ->
  _occupied_area t
  = grid_count (Z.to_nat (height t)) (Z.to_nat (width t))
               (fun row col =>
                  bool_decide (board_at (_board t) row col
                               ≠ Some _UNOCCUPIED_CELL)) /\
  0 <= _occupied_area t <= area t.
Proof.
  intros Hreach Ht.
  destruct (proj1 (reachable_inv _ Hreach) _ _ Ht) as [rs Hinv].
  split; [apply (table_inv_area_count _ _ _ Hinv)|].
  apply (table_inv_area_bounds _ _ _ Hinv).
Qed.

Lemma occupied_area_counts_board_witness :
  _occupied_area overlap_table_obj
  = grid_count (Z.to_nat (height overlap_table_obj))
               (Z.to_nat (width overlap_table_obj))
               (fun row col =>
                  bool_decide (board_at (_board overlap_table_obj) row col
                               ≠ Some _UNOCCUPIED_CELL)) /\
  0 <= _occupied_area overlap_table_obj <= area overlap_table_obj.
Proof.
  apply (occupied_area_counts_board overlap_table 0%nat overlap_table_obj).
  - apply reachable_exec_all; [constructor|vm_compute; reflexivity].
  - vm_compute. reflexivity.
Defined.

(** ** What no call undoes *)

Lemma effect_rect_of h h' x r :
  effect h h' -> rect_of h x = Some r -> rect_of h' x = Some r.
Proof.
  intros Heff. unfold rect_of.
  destruct Heff as [|self rect Hfresh Hwf|self Hfresh|self t Hfresh Hnil Hinv
    |self cell t c rs t' rs' Ht Hc Hinv Hin Hscan Hinv' Hperm Hrect Hcells
    |self q0 c p Hc Hp Hpp]; cbn; try done.
  - destruct (decide (self = x)) as [<-|Hne]; [by rewrite Hfresh|].
    by rewrite lookup_insert_ne.
  - destruct (decide (cell = x)) as [<-|Hne].
    + by rewrite lookup_insert_eq, Hc.
    + by rewrite lookup_insert_ne.
  - destruct (decide (self = x)) as [<-|Hne].
    + by rewrite lookup_insert_eq, Hc.
    + by rewrite lookup_insert_ne.
Qed.

Lemma effect_table h h' self (t : TableObj) :
  heap_inv h -> effect h h' -> tables h !! self = Some t ->
  exists t' : TableObj,
    tables h' !! self = Some t' /\
    table_rect t' = table_rect t /\
    (forall x, x ∈ _cells t -> x ∈ _cells t') /\
    _occupied_area t <= _occupied_area t' <= area t.
Proof.
  intros [Htab Hwf] Heff Ht.
  destruct (Htab _ _ Ht) as [rs0 Hinv0].
  pose proof (table_inv_area_bounds _ _ _ Hinv0) as Hb.
  destruct Heff as [|self0 rect Hfresh _|self0 Hfresh|self0 t0 Hfresh Hnil Hinv
    |self0 cell t0 c rs t' rs' Ht0 Hc Hinv Hin Hscan Hinv' Hperm Hrect Hcells
    |self0 q0 c p Hc Hp Hpp]; cbn;
    try (exists t; repeat split; (done || lia)).
  - exists t. rewrite lookup_insert_ne by (intros <-; congruence).
    repeat split; (done || lia).
  - destruct (decide (self0 = self)) as [->|Hne].
    + assert (t0 = t) as -> by congruence.
      exists t'. rewrite lookup_insert_eq. split; [done|]. split; [done|].
      split.
      * intros x Hx. rewrite Hcells. apply elem_of_app. by left.
      * pose proof (table_inv_area_bounds _ _ _ Hinv') as Hb'.
        rewrite (inv_area _ _ _ Hinv'), (sum_area_perm _ _ Hperm),
          sum_area_snoc, <- (inv_area _ _ _ Hinv).
        rewrite (inv_area _ _ _ Hinv'), (sum_area_perm _ _ Hperm),
          sum_area_snoc, <- (inv_area _ _ _ Hinv) in Hb'.
        destruct (Hwf _ _ Hc) as [Hw Hh].
        assert (0 <= area c) by (unfold area; lia).
        unfold area in *. rewrite Hrect in Hb'. lia.
    + exists t. rewrite lookup_insert_ne by done.
      repeat split; (done || lia).
Qed.

(** X7: no call of the interface resizes a table, removes a cell from it,
    lowers its occupied area or changes the rectangle of a cell. *)
Theorem call_keeps_table h self (t : TableObj) call :
  reachable h -> valid_call h call = true ->
  tables h !! self = Some t ->
  (exists t' : TableObj,
      tables (exec call h) !! self = Some t' /\
      table_rect t' = table_rect t /\
      (forall x, x ∈ _cells t -> x ∈ _cells t') /\
      _occupied_area t <= _occupied_area t') /\
  (forall x r, rect_of h x = Some r -> rect_of (exec call h) x = Some r).
Proof.
  intros Hreach Hv Ht.
  pose proof (exec_effect _ _ (reachable_inv _ Hreach) Hv) as Heff.
  split.
  - destruct (effect_table _ _ _ _ (reachable_inv _ Hreach) Heff Ht)
      as (t' & Ht' & Hrect & Hsub & Hocc).
    exists t'. repeat split; (done || lia).
  - intros x r. by apply effect_rect_of.
Qed.

Lemma call_keeps_table_witness :
  (exists t' : TableObj,
      tables (exec (do_add_cell 0 1) merged_before) !! 0%nat = Some t' /\
      table_rect t' = table_rect merged_before_obj /\
      (forall x, x ∈ _cells merged_before_obj -> x ∈ _cells t') /\
      _occupied_area merged_before_obj <= _occupied_area t') /\
  (forall x r, rect_of merged_before x = Some r ->
               rect_of (exec (do_add_cell 0 1) merged_before) x = Some r).
Proof.
  apply (call_keeps_table merged_before 0%nat merged_before_obj
           (do_add_cell 0 1)).
  - apply reachable_exec_all; [constructor|vm_compute; reflexivity].
  - reflexivity.
  - vm_compute. reflexivity.
Defined.



(** ** Parents and lists agree *)

(** X9: the parent of a cell is a table that has the cell in [_cells]. *)
Theorem parent_lists_cell h cell (c : CellObj) p :
  reachable h -> cells h !! cell = Some c -> parent c = Some p ->
  exists t : TableObj, tables h !! p = Some t /\ cell ∈ _cells t.
Proof. intros Hreach. apply (own_cell_parent _ (reachable_own _ Hreach)). Qed.

Lemma parent_lists_cell_witness :
  exists t : TableObj,
    tables (run (Table.add_cell 1 0) reparent_heap) !! 1%nat = Some t /\
    0%nat ∈ _cells t.
Proof.
  apply (parent_lists_cell (run (Table.add_cell 1 0) reparent_heap) 0%nat
           (mkCell (mkRect 0 0 1 1) (Some 1%nat) []) 1%nat).
  - apply (reachable_step reparent_heap (do_add_cell 1 0));
      [apply reachable_exec_all; [constructor|vm_compute; reflexivity]
      |reflexivity].
  - vm_compute. reflexivity.
  - reflexivity.
Defined.

(** X10: a paragraph in the paragraphs of a cell has that cell as parent,
    occurs there once, and is in the paragraphs of no other cell. *)
Theorem paragraph_one_owner h cell (c : CellObj) q :
  reachable h -> cells h !! cell = Some c -> q ∈ _paragraphs c ->
  paragraphs h !! q = Some (mkParagraph (Some cell)) /\
  NoDup (_paragraphs c) /\
  forall cell' (c' : CellObj),
    cells h !! cell' = Some c' -> q ∈ _paragraphs c' -> cell' = cell.
Proof.
  intros Hreach Hc Hq. pose proof (reachable_own _ Hreach) as Hown.
  pose proof (own_paragraphs _ Hown _ _ _ Hc Hq) as Hpar.
  split; [done|]. split; [by apply (own_NoDup _ Hown cell)|].
  intros cell' c' Hc' Hq'.
  pose proof (own_paragraphs _ Hown _ _ _ Hc' Hq') as Hpar'.
  rewrite Hpar in Hpar'. by injection Hpar'.
Qed.

Lemma paragraph_one_owner_witness :
  paragraphs paragraph_heap !! 0%nat = Some (mkParagraph (Some 0%nat)) /\
  NoDup (_paragraphs (mkCell (mkRect 0 0 1 1) None [0%nat])) /\
  forall cell' (c' : CellObj),
    cells paragraph_heap !! cell' = Some c' -> 0%nat ∈ _paragraphs c' ->
    cell' = 0%nat.
Proof.
  apply (paragraph_one_owner paragraph_heap 0%nat
           (mkCell (mkRect 0 0 1 1) None [0%nat]) 0%nat).
  - apply reachable_exec_all; [constructor|vm_compute; reflexivity].
  - vm_compute. reflexivity.
  - simpl. apply list_elem_of_singleton. reflexivity.
Defined.

(** X11: the parent of a paragraph is a cell that has the paragraph in its
    paragraphs. *)
Theorem parent_lists_paragraph h q po cell :
  reachable h -> paragraphs h !! q = Some po ->
  paragraph_parent po = Some cell ->
  exists c : CellObj, cells h !! cell = Some c /\ q ∈ _paragraphs c.
Proof.
  intros Hreach. apply (own_paragraph_parent _ (reachable_own _ Hreach)).
Qed.

Lemma parent_lists_paragraph_witness :
  exists c : CellObj,
    cells paragraph_heap !! 0%nat = Some c /\ 0%nat ∈ _paragraphs c.
Proof.
  apply (parent_lists_paragraph paragraph_heap 0%nat
           (mkParagraph (Some 0%nat)) 0%nat).
  - apply reachable_exec_all; [constructor|vm_compute; reflexivity].
  - vm_compute. reflexivity.
  - reflexivity.
Defined.

(** ** [Cell.move] *)

(** X12: [Cell.move] asks the parent of the cell.  It raises the assertion
    error when the cell has no parent or the parent is not ready to move;
    otherwise it returns what [Table.move] of the parent returns, without
    an error.  The heap is as before in each case. *)
Theorem Cell_move_delegates h self (c : CellObj) direction :
  reachable h -> cells h !! self = Some c ->
  run (Cell.move self direction) h = h /\
  match parent c with
  | None => result (Cell.move self direction) h = inl AssertionError
  | Some p =>
      exists t : TableObj,
        tables h !! p = Some t /\
        Cell.move self direction h = Table.move p self direction h /\
        if bool_decide (_occupied_area t = area t)
        then exists res, result (Cell.move self direction) h = inr res
        else result (Cell.move self direction) h = inl AssertionError
  end.
Proof.
  intros Hreach Hc. split; [apply Cell_move_heap|].
  unfold result, Cell.move. rewrite (bind_get_cell _ _ _ _ Hc).
  destruct (parent c) as [p|] eqn:Hp; [|done].
  destruct (own_cell_parent _ (reachable_own _ Hreach) _ _ _ Hc Hp)
    as (t & Ht & _).
  exists t. split; [done|]. split; [done|].
  case_bool_decide as Hready.
  - rewrite (move_run _ _ _ _ _ _ Ht Hc Hready Hp). simpl.
    destruct (Table.probe c direction) as [x y].
    destruct (contains_point t x y) eqn:Hin; [|eauto].
    destruct (proj1 (reachable_inv _ Hreach) _ _ Ht) as [rs Hinv].
    destruct (lookup_full _ _ _ _ _ Hinv Hready Hin)
      as (i & r & res & row & _ & _ & _ & _ & _ & Hrow & Hi & Hget).
    rewrite Hrow, Hi, Hget. eauto.
  - unfold Table.move. unfold bind at 1. rewrite ready_to_move_run, Ht.
    by rewrite bool_decide_eq_false_2.
Qed.

Lemma Cell_move_delegates_witness :
  run (Cell.move 3 UP) square_table = square_table /\
  exists t : TableObj,
    tables square_table !! 0%nat = Some t /\
    Cell.move 3 UP square_table = Table.move 0 3 UP square_table /\
    if bool_decide (_occupied_area t = area t)
    then exists res, result (Cell.move 3 UP) square_table = inr res
    else result (Cell.move 3 UP) square_table = inl AssertionError.
Proof.
  apply (Cell_move_delegates square_table 3%nat
           (mkCell (mkRect 1 1 1 1) (Some 0%nat) []) UP).
  - apply reachable_exec_all; [constructor|vm_compute; reflexivity].
  - vm_compute. reflexivity.
Defined.

(** ** Where [move] arrives *)

Lemma ForallOrdPairs_lookup {A} (R : A -> A -> Prop) l (i j : nat) x y :
  (forall a b, R a b -> R b a) ->
  ForallOrdPairs R l -> i ≠ j -> l !! i = Some x -> l !! j = Some y -> R x y.
Proof.
  intros Hsym Hl. revert i j.
  induction Hl as [|a l Ha Hl IH]; intros i j Hij Hi Hj; [done|].
  destruct i as [|i], j as [|j]; simpl in *; try done.
  - injection Hi as ->. apply (Forall_lookup_1 _ _ _ _ Ha Hj).
  - injection Hj as ->. apply Hsym, (Forall_lookup_1 _ _ _ _ Ha Hi).
  - apply (IH i j); [lia|done..].
Qed.

(** A cell whose parent is the table is one of its rectangles. *)
Lemma own_cell_index h self cell (t : TableObj) (c : CellObj) rs :
  own_inv h -> table_inv h t rs ->
  tables h !! self = Some t -> cells h !! cell = Some c ->
  parent c = Some self ->
  exists j : nat, _cells t !! j = Some cell /\ rs !! j = Some (cell_rect c) /\
                  contains t c = true.
Proof.
  intros Hown Hinv Ht Hc Hp.
  destruct (own_cell_parent _ Hown _ _ _ Hc Hp) as (t0 & Ht0 & Hel).
  assert (t0 = t) as -> by congruence.
  apply list_elem_of_lookup in Hel as [j Hj].
  destruct (Forall2_lookup_l _ _ _ _ _ (inv_rects _ _ _ Hinv) Hj)
    as (r & Hr & Hrect).
  unfold rect_of in Hrect. rewrite Hc in Hrect. injection Hrect as <-.
  exists j. repeat split; [done..|].
  apply (Forall_lookup_1 _ _ _ _ (inv_inside _ _ _ Hinv) Hr).
Qed.

(** The cell [move] returns, with its index and rectangle. *)
Lemma move_Some h self cell (t : TableObj) (c : CellObj) rs direction h' res :
  table_inv h t rs ->
  tables h !! self = Some t -> cells h !! cell = Some c ->
  _occupied_area t = area t -> parent c = Some self ->
  Table.move self cell direction h = (h', inr (Some res)) ->
  exists (i : nat) r,
    _cells t !! i = Some res /\ rs !! i = Some r /\ rect_of h res = Some r /\
    owner rs (Table.probe c direction).2 (Table.probe c direction).1
      = Z.of_nat i /\
    covers r (Table.probe c direction).2 (Table.probe c direction).1 = true.
Proof.
  intros Hinv Ht Hc Hready Hp Hrun.
  rewrite (move_run _ _ _ _ _ _ Ht Hc Hready Hp) in Hrun.
  destruct (Table.probe c direction) as [x y]. simpl.
  destruct (contains_point t x y) eqn:Hin; [|by injection Hrun].
  destruct (lookup_full _ _ _ _ _ Hinv Hready Hin)
    as (i & r & res' & row & Hat & Hr & Hcov & Hres & Hrect & Hrow & Hi & Hget).
  rewrite Hrow, Hi, Hget in Hrun. injection Hrun as _ <-.
  exists i, r. repeat split; try done.
  apply (owner_unique _ _ _ _ r); [apply Hinv|done..].
Qed.

Lemma move_next_to
    h self cell (t : TableObj) (c : CellObj) direction h' res :
  reachable h ->
  tables h !! self = Some t -> cells h !! cell = Some c ->
  _occupied_area t = area t ->
  parent c = Some self ->
  0 < width c -> 0 < height c ->
  Table.move self cell direction h = (h', inr (Some res)) ->
  exists cr : CellObj,
    cells h !! res = Some cr /\ res ∈ _cells t /\
    match direction with
    | UP => bottom cr = top c - 1 /\ left cr <= left c <= right cr
    | DOWN => top cr = bottom c + 1 /\ left cr <= left c <= right cr
    | LEFT => right cr = left c - 1 /\ top cr <= top c <= bottom cr
    | RIGHT => left cr = right c + 1 /\ top cr <= top c <= bottom cr
    end.
Proof.
  intros Hreach Ht Hc Hready Hp Hw Hh Hrun.
  destruct (proj1 (reachable_inv _ Hreach) _ _ Ht) as [rs Hinv].
  destruct (own_cell_index _ _ _ _ _ _ (reachable_own _ Hreach) Hinv Ht Hc Hp)
    as (j & Hj & Hrj & _).
  destruct (move_Some _ _ _ _ _ _ _ _ _ Hinv Ht Hc Hready Hp Hrun)
    as (i & r & Hi & Hri & Hrect & _ & Hcov).
  destruct (rect_of_Some _ _ _ Hrect) as (cr & Hcr & <-).
  exists cr. split; [done|]. split; [apply list_elem_of_lookup; eauto|].
  assert (i ≠ j) as Hij.
  { intros ->. pose proof (probe_outside c direction). congruence. }
  pose proof (ForallOrdPairs_lookup _ _ _ _ _ _ disjoint_sym
                (inv_disjoint _ _ _ Hinv) Hij Hri Hrj) as Hdis.
  apply covers_spec in Hcov.
  destruct direction; simpl in Hcov; unfold right, bottom in *.
  - destruct (decide (top cr + height cr - 1 <= top c - 1)) as [Hle|Hgt];
      [clear - Hcov Hle; lia|].
    exfalso. apply (Hdis (top c) (left c)).
    rewrite !covers_spec. unfold right, bottom. clear - Hcov Hgt Hw Hh. lia.
  - destruct (decide (top c + height c - 1 + 1 <= top cr)) as [Hle|Hgt];
      [clear - Hcov Hle; lia|].
    exfalso. apply (Hdis (top c + height c - 1) (left c)).
    rewrite !covers_spec. unfold right, bottom. clear - Hcov Hgt Hw Hh. lia.
  - destruct (decide (left cr + width cr - 1 <= left c - 1)) as [Hle|Hgt];
      [clear - Hcov Hle; lia|].
    exfalso. apply (Hdis (top c) (left c)).
    rewrite !covers_spec. unfold right, bottom. clear - Hcov Hgt Hw Hh. lia.
  - destruct (decide (left c + width c - 1 + 1 <= left cr)) as [Hle|Hgt];
      [clear - Hcov Hle; lia|].
    exfalso. apply (Hdis (top c) (left c + width c - 1)).
    rewrite !covers_spec. unfold right, bottom. clear - Hcov Hgt Hw Hh. lia.
Qed.

(** X13: the cell that [move] returns for a cell of positive width and
    height lies against the side the move leaves through: it begins right
    behind that side and spans the row (LEFT, RIGHT) or the column (UP,
    DOWN) of the top-left corner of the cell. *)
Theorem move_arrives_next_to
    h self cell (t : TableObj) (c : CellObj) direction h' res :
  reachable h ->
  tables h !! self = Some t -> cells h !! cell = Some c ->
  result (Table.ready_to_move self) h = inr true ->
  parent c = Some self ->
  0 < width c -> 0 < height c ->
  Table.move self cell direction h = (h', inr (Some res)) ->
  exists cr : CellObj,
    cells h !! res = Some cr /\ res ∈ _cells t /\
    match direction with
    | UP => bottom cr = top c - 1 /\ left cr <= left c <= right cr
    | DOWN => top cr = bottom c + 1 /\ left cr <= left c <= right cr
    | LEFT => right cr = left c - 1 /\ top cr <= top c <= bottom cr
    | RIGHT => left cr = right c + 1 /\ top cr <= top c <= bottom cr
    end.
Proof.
  intros Hreach Ht Hc Hready. apply (ready_true _ _ _ Ht) in Hready.
  by apply move_next_to.
Qed.

Lemma move_arrives_next_to_witness :
  exists cr : CellObj,
    cells merged_table !! 1%nat = Some cr /\
    1%nat ∈ _cells merged_table_obj /\
    top cr = bottom (mkRect 0 0 2 1) + 1 /\
    left cr <= left (mkRect 0 0 2 1) <= right cr.
Proof.
  apply (move_arrives_next_to merged_table 0%nat 0%nat merged_table_obj
           (mkCell (mkRect 0 0 2 1) (Some 0%nat) []) DOWN merged_table 1%nat).
  - apply reachable_exec_all; [constructor|vm_compute; reflexivity].
  - vm_compute. reflexivity.
  - vm_compute. reflexivity.
  - vm_compute. reflexivity.
  - reflexivity.
  - simpl. lia.
  - simpl. lia.
  - vm_compute. reflexivity.
Defined.

(** X14: for a cell of positive width and height, [move] returns [None]
    exactly when the cell touches the edge of the table on the side of the
    move: top 0 for UP, the last row for DOWN, left 0 for LEFT, the last
    column for RIGHT. *)
Theorem move_None_iff_at_edge
    h self cell (t : TableObj) (c : CellObj) direction :
  reachable h ->
  tables h !! self = Some t -> cells h !! cell = Some c ->
  result (Table.ready_to_move self) h = inr true ->
  parent c = Some self ->
  0 < width c -> 0 < height c ->
  result (Table.move self cell direction) h = inr None <->
  match direction with
  | UP => top c = 0
  | DOWN => bottom c = height t - 1
  | LEFT => left c = 0
  | RIGHT => right c = width t - 1
  end.
Proof.
  intros Hreach Ht Hc Hready Hp Hw Hh.
  apply (ready_true _ _ _ Ht) in Hready.
  destruct (proj1 (reachable_inv _ Hreach) _ _ Ht) as [rs Hinv].
  destruct (own_cell_index _ _ _ _ _ _ (reachable_own _ Hreach) Hinv Ht Hc Hp)
    as (j & _ & _ & Hin).
  pose proof (inv_grid _ _ _ Hinv) as [Hg _].
  destruct (contains_inside _ _ _ _ Hg Hin) as (H1 & H2 & H3 & H4).
  pose proof (inv_width _ _ _ Hinv). pose proof (inv_height _ _ _ Hinv).
  unfold result. rewrite (move_run _ _ _ _ _ _ Ht Hc Hready Hp). simpl.
  destruct (Table.probe c direction) as [x y] eqn:Hxy.
  destruct (contains_point t x y) eqn:Hpt.
  - destruct (lookup_full _ _ _ _ _ Hinv Hready Hpt)
      as (i & r & res & row & _ & _ & _ & _ & _ & Hrow & Hi & Hget).
    rewrite Hrow, Hi, Hget. split; [done|]. intros Hedge. exfalso.
    unfold contains_point, right, bottom in Hpt.
    rewrite !andb_true_iff, !Z.leb_le in Hpt.
    rewrite (inv_left _ _ _ Hinv), (inv_top _ _ _ Hinv) in Hpt.
    destruct direction; simpl in Hxy, Hedge; injection Hxy as <- <-;
      unfold right, bottom in *; lia.
  - split; [intros _|done].
    unfold contains_point, right, bottom in Hpt.
    rewrite !andb_false_iff, !Z.leb_gt in Hpt.
    rewrite (inv_left _ _ _ Hinv), (inv_top _ _ _ Hinv) in Hpt.
    destruct direction; simpl in Hxy |- *; injection Hxy as <- <-;
      unfold right, bottom in *; lia.
Qed.

Lemma move_None_iff_at_edge_witness :
  result (Table.move 0 0 UP) merged_table = inr None <->
  top (mkRect 0 0 2 1) = 0.
Proof.
  apply (move_None_iff_at_edge merged_table 0%nat 0%nat merged_table_obj
           (mkCell (mkRect 0 0 2 1) (Some 0%nat) []) UP).
  - apply reachable_exec_all; [constructor|vm_compute; reflexivity].
  - vm_compute. reflexivity.
  - vm_compute. reflexivity.
  - vm_compute. reflexivity.
  - reflexivity.
  - simpl. lia.
  - simpl. lia.
Defined.

Lemma contains_covers_point (t c : Rect) row col :
  contains t c = true -> covers c row col = true ->
  contains_point t col row = true.
Proof.
  unfold contains, contains_point. rewrite covers_spec.
  rewrite !andb_true_iff, !Z.leb_le. lia.
Qed.

(** [move] returns the cell of the table that covers the coordinate it
    looks at. *)
Lemma move_to_cover h self a b (t : TableObj) (ca cb : CellObj) direction :
  reachable h ->
  tables h !! self = Some t ->
  cells h !! a = Some ca -> cells h !! b = Some cb ->
  _occupied_area t = area t ->
  parent ca = Some self -> parent cb = Some self ->
  covers cb (Table.probe ca direction).2 (Table.probe ca direction).1 = true ->
  Table.move self a direction h = (h, inr (Some b)).
Proof.
  intros Hreach Ht Ha Hb Hready Hpa Hpb Hcov.
  destruct (proj1 (reachable_inv _ Hreach) _ _ Ht) as [rs Hinv].
  destruct (own_cell_index _ _ _ _ _ _ (reachable_own _ Hreach) Hinv Ht Hb Hpb)
    as (j & Hj & Hrj & Hin).
  rewrite (move_run _ _ _ _ _ _ Ht Ha Hready Hpa).
  destruct (Table.probe ca direction) as [x y]. simpl in Hcov.
  rewrite (contains_covers_point _ _ _ _ Hin Hcov).
  pose proof (contains_covers_point _ _ _ _ Hin Hcov) as Hpt.
  destruct (lookup_full _ _ _ _ _ Hinv Hready Hpt)
    as (i & r & res & row & Hat & Hr & Hc & Hres & _ & Hrow & Hi & Hget).
  rewrite Hrow, Hi, Hget.
  pose proof (owner_unique _ _ _ _ _ (inv_disjoint _ _ _ Hinv) Hr Hc) as Ho1.
  pose proof (owner_unique _ _ _ _ _ (inv_disjoint _ _ _ Hinv) Hrj Hcov) as Ho2.
  assert (i = j) as -> by lia. congruence.
Qed.

(** X15: the way back.  When [move] from a cell of positive width and
    height returns a cell of the same table whose top (for LEFT and RIGHT)
    or left (for UP and DOWN) is the one of the cell left, [move] from the
    cell returned in the opposite direction returns the first cell. *)
Theorem move_there_and_back
    h self cell (t : TableObj) (c : CellObj) direction h' res (cr : CellObj) :
  reachable h ->
  tables h !! self = Some t -> cells h !! cell = Some c ->
  result (Table.ready_to_move self) h = inr true ->
  parent c = Some self ->
  0 < width c -> 0 < height c ->
  Table.move self cell direction h = (h', inr (Some res)) ->
  cells h !! res = Some cr -> parent cr = Some self ->
  match direction with
  | UP | DOWN => left cr = left c
  | LEFT | RIGHT => top cr = top c
  end ->
  Table.move self res (opposite direction) h = (h, inr (Some cell)).
Proof.
  intros Hreach Ht Hc Hready Hp Hw Hh Hrun Hcr Hpr Haligned.
  apply (ready_true _ _ _ Ht) in Hready.
  destruct (move_next_to _ _ _ _ _ _ _ _ Hreach Ht Hc Hready Hp Hw Hh Hrun)
    as (cr' & Hcr' & _ & Hnext).
  assert (cr' = cr) as -> by congruence.
  apply (move_to_cover _ _ _ _ t cr c); try done.
  apply covers_spec.
  destruct direction; simpl in *; unfold right, bottom in *; lia.
Qed.

Lemma move_there_and_back_witness :
  Table.move 0 2 (opposite DOWN) square_table = (square_table, inr (Some 0%nat)).
Proof.
  apply (move_there_and_back square_table 0%nat 0%nat
           (mkTable (mkRect 0 0 2 2) None [0; 1; 2; 3]%nat [[0; 1]; [2; 3]] 4)
           (mkCell (mkRect 0 0 1 1) (Some 0%nat) []) DOWN square_table 2%nat
           (mkCell (mkRect 0 1 1 1) (Some 0%nat) [])).
  - apply reachable_exec_all; [constructor|vm_compute; reflexivity].
  - vm_compute. reflexivity.
  - vm_compute. reflexivity.
  - vm_compute. reflexivity.
  - reflexivity.
  - simpl. lia.
  - simpl. lia.
  - vm_compute. reflexivity.
  - vm_compute. reflexivity.
  - reflexivity.
  - reflexivity.
Defined.

(** ** The order of the cells *)

(** X16: cells of positive width and height are in [_cells] in strictly
    ascending order of (top, left): no two of them have the same top-left
    corner, and none occurs twice. *)
Theorem positive_cells_strictly_sorted
    h self (t : TableObj) (i j : nat) a b (ca cb : CellObj) :
  reachable h -> tables h !! self = Some t ->
  _cells t !! i = Some a -> _cells t !! j = Some b -> (i < j)%nat ->
  cells h !! a = Some ca -> cells h !! b = Some cb ->
  0 < width ca -> 0 < height ca -> 0 < width cb -> 0 < height cb ->
  (top ca < top cb \/ (top ca = top cb /\ left ca < left cb)) /\ a ≠ b.
Proof.
  intros Hreach Ht Hi Hj Hij Ha Hb Hwa Hha Hwb Hhb.
  destruct (proj1 (reachable_inv _ Hreach) _ _ Ht) as [rs Hinv].
  destruct (Forall2_lookup_l _ _ _ _ _ (inv_rects _ _ _ Hinv) Hi)
    as (ra & Hra & Hrecta).
  destruct (Forall2_lookup_l _ _ _ _ _ (inv_rects _ _ _ Hinv) Hj)
    as (rb & Hrb & Hrectb).
  unfold rect_of in Hrecta, Hrectb. rewrite Ha in Hrecta. rewrite Hb in Hrectb.
  injection Hrecta as <-. injection Hrectb as <-.
  pose proof (Sorted_lex_lookup _ _ _ _ _ (inv_sorted _ _ _ Hinv) Hij Hra Hrb)
    as Hle.
  assert (i ≠ j) as Hne by lia.
  pose proof (ForallOrdPairs_lookup _ _ _ _ _ _ disjoint_sym
                (inv_disjoint _ _ _ Hinv) Hne Hra Hrb) as Hdis.
  assert (top ca < top cb \/ (top ca = top cb /\ left ca < left cb)) as Hlt.
  { unfold lex_le in Hle.
    destruct (decide (top ca = top cb /\ left ca = left cb)) as [[Et El]|Hk];
      [|lia].
    exfalso. apply (Hdis (top ca) (left ca)). rewrite !covers_spec.
    unfold right, bottom. lia. }
  split; [done|]. intros ->. assert (ca = cb) as -> by congruence. lia.
Qed.

Lemma positive_cells_strictly_sorted_witness :
  (top (mkRect 0 0 2 1) < top (mkRect 1 1 1 1) \/
   (top (mkRect 0 0 2 1) = top (mkRect 1 1 1 1) /\
    left (mkRect 0 0 2 1) < left (mkRect 1 1 1 1))) /\ 0%nat ≠ 2%nat.
Proof.
  apply (positive_cells_strictly_sorted merged_table 0%nat merged_table_obj
           0%nat 2%nat 0%nat 2%nat
           (mkCell (mkRect 0 0 2 1) (Some 0%nat) [])
           (mkCell (mkRect 1 1 1 1) (Some 0%nat) [])).
  - apply reachable_exec_all; [constructor|vm_compute; reflexivity].
  - vm_compute. reflexivity.
  - reflexivity.
  - reflexivity.
  - lia.
  - vm_compute. reflexivity.
  - vm_compute. reflexivity.
  - simpl. lia.
  - simpl. lia.
  - simpl. lia.
  - simpl. lia.
Defined.

(** ** [to_dict] *)

Lemma map_M_paragraphs h (P : nat -> PyVal) qs :
  Forall (fun q => is_Some (paragraphs h !! q)) qs ->
  map_M (fun p => _ ← get_paragraph p; ret (P p)) qs h = (h, inr (P <$> qs)).
Proof.
  induction 1 as [|q qs [po Hq] _ IH]; [done|].
  cbn [map_M]. unfold bind at 1. unfold bind at 1.
  unfold get_paragraph at 1. rewrite Hq. unfold ret at 1.
  unfold bind at 1. by rewrite IH.
Qed.

Lemma Cell_to_dict_run h R P self (c : CellObj) :
  own_inv h -> cells h !! self = Some c ->
  Cell_to_dict R P self h = (h, inr (cell_record R P c)).
Proof.
  intros Hown Hc. unfold Cell_to_dict.
  rewrite (bind_get_cell _ _ _ _ Hc).
  assert (Forall (fun q => is_Some (paragraphs h !! q)) (_paragraphs c))
    as Hqs.
  { apply Forall_forall. intros q Hq.
    by rewrite (own_paragraphs _ Hown _ _ _ Hc Hq). }
  by rewrite (bind_inr _ _ _ _ _ (map_M_paragraphs h P _ Hqs)).
Qed.

Lemma map_M_cells h R P cs (objs : list CellObj) :
  own_inv h ->
  Forall2 (fun cell c => cells h !! cell = Some c) cs objs ->
  map_M (Cell_to_dict R P) cs h = (h, inr (cell_record R P <$> objs)).
Proof.
  intros Hown. induction 1 as [|cell c cs objs Hc _ IH]; [done|].
  cbn [map_M]. unfold bind at 1.
  rewrite (Cell_to_dict_run _ _ _ _ _ Hown Hc).
  unfold bind at 1. by rewrite IH.
Qed.

Lemma rects_objects h cs rs :
  Forall2 (fun cell r => rect_of h cell = Some r) cs rs ->
  exists objs : list CellObj,
    Forall2 (fun cell c => cells h !! cell = Some c) cs objs /\
    cell_rect <$> objs = rs.
Proof.
  induction 1 as [|cell r cs rs Hr _ (objs & Hobjs & Heq)]; [by exists []|].
  destruct (rect_of_Some _ _ _ Hr) as (c & Hc & <-).
  exists (c :: objs). split; [by constructor|]. simpl. by f_equal.
Qed.

(** X17: [Table.to_dict] returns without an error and leaves the heap as
    it is; its "cells" entry holds the record of each cell of [_cells],
    one per cell and in the order of [_cells], which is ascending in
    (top, left); the record of a cell lists its paragraphs in the order
    of [_paragraphs]. *)
Theorem Table_to_dict_sorted_records h R P self (t : TableObj) :
  reachable h -> tables h !! self = Some t ->
  exists objs : list CellObj,
    Forall2 (fun cell c => cells h !! cell = Some c) (_cells t) objs /\
    Table_to_dict R P self h
    = (h, inr (PyDict [("type", PyStr "table");
                       ("cells", PyList (cell_record R P <$> objs))]%string)) /\
    forall (i j : nat) (c1 c2 : CellObj),
      (i < j)%nat -> objs !! i = Some c1 -> objs !! j = Some c2 ->
      top c1 < top c2 \/ (top c1 = top c2 /\ left c1 <= left c2).
Proof.
  intros Hreach Ht.
  destruct (proj1 (reachable_inv _ Hreach) _ _ Ht) as [rs Hinv].
  destruct (rects_objects _ _ _ (inv_rects _ _ _ Hinv))
    as (objs & Hobjs & Hrs).
  exists objs. split; [done|]. split.
  - unfold Table_to_dict. rewrite (bind_get_table _ _ _ _ Ht).
    by rewrite (bind_inr _ _ _ _ _
                  (map_M_cells _ R P _ _ (reachable_own _ Hreach) Hobjs)).
  - intros i j c1 c2 Hij Hi Hj.
    apply (Sorted_lex_lookup rs i j); [apply Hinv|done|..];
      rewrite <- Hrs, list_lookup_fmap; [by rewrite Hi|by rewrite Hj].
Qed.

Lemma Table_to_dict_sorted_records_witness :
  exists objs : list CellObj,
    Forall2 (fun cell c => cells merged_table !! cell = Some c)
            (_cells merged_table_obj) objs /\
    Table_to_dict (fun _ => PyStr "rect") (fun _ => PyStr "paragraph") 0
                  merged_table
    = (merged_table,
       inr (PyDict [("type", PyStr "table");
                    ("cells",
                     PyList (cell_record (fun _ => PyStr "rect")
                                         (fun _ => PyStr "paragraph")
                               <$> objs))]%string)) /\
    forall (i j : nat) (c1 c2 : CellObj),
      (i < j)%nat -> objs !! i = Some c1 -> objs !! j = Some c2 ->
      top c1 < top c2 \/ (top c1 = top c2 /\ left c1 <= left c2).
Proof.
  apply (Table_to_dict_sorted_records merged_table
           (fun _ => PyStr "rect") (fun _ => PyStr "paragraph")
           0%nat merged_table_obj).
  - apply reachable_exec_all; [constructor|vm_compute; reflexivity].
  - vm_compute. reflexivity.
Defined.

(** ** The order of insertion *)

Lemma key_lt_spec a b :
  key_lt a b = true <-> a.1 < b.1 \/ (a.1 = b.1 /\ a.2 < b.2).
Proof.
  unfold key_lt.
  rewrite orb_true_iff, andb_true_iff, !Z.ltb_lt, Z.eqb_eq. done.
Qed.

Lemma key_lt_false a b :
  key_lt a b = false <-> b.1 < a.1 \/ (a.1 = b.1 /\ b.2 <= a.2).
Proof.
  rewrite <- not_true_iff_false, key_lt_spec. lia.
Qed.

Section InsertLast.
Context {A : Type}.
Implicit Types (x y : (Z * Z) * A) (l : list ((Z * Z) * A)).

Lemma insert_by_key_head x l :
  Sorted (fun a b => key_le a.1 b.1) (x :: l) -> insert_by_key x l = x :: l.
Proof.
  intros Hs. destruct l as [|y l]; [done|]. simpl.
  apply Sorted_inv in Hs as [_ Hhd]. apply HdRel_inv in Hhd.
  unfold key_le in Hhd. by rewrite Hhd.
Qed.

Lemma sort_by_key_sorted_id l :
  Sorted (fun a b => key_le a.1 b.1) l -> sort_by_key l = l.
Proof.
  induction l as [|x l IH]; intros Hs; [done|]. simpl.
  rewrite IH by (by apply Sorted_inv in Hs as [? _]).
  by apply insert_by_key_head.
Qed.

Lemma insert_last_nonempty x l : exists y l', insert_last x l = y :: l' /\
  (y = x \/ exists l0, l = y :: l0).
Proof.
  destruct l as [|y l]; simpl; [eauto|].
  destruct (key_lt x.1 y.1); eauto 6.
Qed.

Lemma sort_by_key_snoc x l :
  Sorted (fun a b => key_le a.1 b.1) l ->
  sort_by_key (l ++ [x]) = insert_last x l.
Proof.
  induction l as [|y l IH]; intros Hs; [done|].
  apply Sorted_inv in Hs as [Hl Hhd].
  cbn [app sort_by_key insert_last]. rewrite (IH Hl).
  destruct (key_lt x.1 y.1) eqn:Exy.
  - assert (insert_last x l = x :: l) as ->.
    { destruct l as [|z l]; [done|]. simpl.
      apply HdRel_inv in Hhd. unfold key_le in Hhd.
      assert (key_lt x.1 z.1 = true) as ->; [|done].
      apply key_lt_spec. apply key_lt_spec in Exy. apply key_lt_false in Hhd.
      lia. }
    simpl. rewrite Exy. f_equal. apply insert_by_key_head. by constructor.
  - destruct (insert_last_nonempty x l) as (z & l' & Eq & Hz). rewrite Eq.
    simpl. assert (key_lt z.1 y.1 = false) as ->; [|done].
    destruct Hz as [->|[l0 ->]]; [|apply HdRel_inv in Hhd; exact Hhd].
    apply key_lt_false. apply key_lt_false in Exy. lia.
Qed.

Lemma insert_last_comm x y l :
  x.1 ≠ y.1 ->
  insert_last x (insert_last y l) = insert_last y (insert_last x l).
Proof.
  intros Hne.
  assert (key_lt x.1 y.1 = negb (key_lt y.1 x.1)) as Hxy.
  { destruct (key_lt y.1 x.1) eqn:E; simpl.
    - apply key_lt_false. apply key_lt_spec in E. lia.
    - apply key_lt_spec. apply key_lt_false in E.
      destruct x.1 as [x1 x2], y.1 as [y1 y2]. simpl in *.
      assert (x1 ≠ y1 \/ x2 ≠ y2) by (destruct (decide (x1 = y1));
        [right; congruence|by left]). lia. }
  induction l as [|z l IH]; simpl.
  - rewrite Hxy. by destruct (key_lt y.1 x.1).
  - destruct (key_lt y.1 z.1) eqn:Eyz, (key_lt x.1 z.1) eqn:Exz; simpl;
      rewrite ?Eyz, ?Exz, ?Hxy.
    + by destruct (key_lt y.1 x.1).
    + assert (key_lt y.1 x.1 = true) as ->; [|done].
      apply key_lt_spec. apply key_lt_spec in Eyz. apply key_lt_false in Exz.
      lia.
    + assert (key_lt y.1 x.1 = false) as ->; [|done].
      apply key_lt_false. apply key_lt_spec in Exz. apply key_lt_false in Eyz.
      lia.
    + by rewrite IH.
Qed.

End InsertLast.

Lemma insert_last_Forall {A} (P : (Z * Z) * A -> Prop) x l :
  P x -> Forall P l -> Forall P (insert_last x l).
Proof.
  intros Hx. induction 1 as [|y l Hy Hl IH]; simpl; [by constructor|].
  destruct (key_lt x.1 y.1); repeat constructor; done.
Qed.

Lemma zip_keyed h cs rs :
  Forall2 (fun cell r => rect_of h cell = Some r) cs rs ->
  zip (key <$> rs) cs = keyed h <$> cs.
Proof.
  induction 1 as [|cell r cs rs Hr _ IH]; [done|]. simpl. f_equal.
  - unfold keyed, cell_key. by rewrite Hr.
  - apply IH.
Qed.

Lemma Sorted_keyed h cs rs :
  Forall2 (fun cell r => rect_of h cell = Some r) cs rs ->
  Sorted (fun r1 r2 => key_le (key r1) (key r2)) rs ->
  Sorted (fun a b : (Z * Z) * nat => key_le a.1 b.1) (keyed h <$> cs).
Proof.
  induction 1 as [|cell r cs rs Hr Hrs IH]; intros Hs; [constructor|].
  apply Sorted_inv in Hs as [Hs Hhd]. simpl. constructor; [by apply IH|].
  destruct Hrs as [|cell' r' cs rs Hr' _]; simpl; constructor.
  apply HdRel_inv in Hhd. unfold keyed, cell_key. simpl. by rewrite Hr, Hr'.
Qed.

Lemma keyed_snd h (l : list ((Z * Z) * nat)) :
  Forall (fun p => p = keyed h p.2) l -> keyed h <$> l.*2 = l.
Proof.
  induction 1 as [|p l Hp _ IH]; [done|].
  rewrite !fmap_cons. f_equal; [by symmetry|apply IH].
Qed.

Lemma keyed_Forall h cs :
  Forall (fun p => p = keyed h p.2) (keyed h <$> cs).
Proof. apply Forall_fmap, Forall_forall. by intros. Qed.

Lemma rects_unique h cs rs1 rs2 :
  Forall2 (fun cell r => rect_of h cell = Some r) cs rs1 ->
  Forall2 (fun cell r => rect_of h cell = Some r) cs rs2 ->
  rs1 = rs2.
Proof.
  intros H. revert rs2.
  induction H as [|cell r cs rs Hr _ IH]; intros rs2 H2.
  - by apply Forall2_nil_inv_l in H2.
  - apply Forall2_cons_inv_l in H2 as (r' & rs' & Hr' & H2 & ->).
    f_equal; [congruence|by apply IH].
Qed.

(** Two boards of the same size with the same entries are the same. *)
Lemma board_ext b1 b2 rows cols :
  board_dims b1 rows cols -> board_dims b2 rows cols ->
  (forall row col, 0 <= row < Z.of_nat rows -> 0 <= col < Z.of_nat cols ->
                   board_at b1 row col = board_at b2 row col) ->
  b1 = b2.
Proof.
  intros [Hl1 Hc1] [Hl2 Hc2] Hat. apply list_eq. intros i.
  destruct (decide (i < rows)%nat) as [Hi|Hi].
  2: { rewrite !lookup_ge_None_2 by lia. done. }
  destruct (lookup_lt_is_Some_2 b1 i) as [r1 Hr1]; [lia|].
  destruct (lookup_lt_is_Some_2 b2 i) as [r2 Hr2]; [lia|].
  rewrite Hr1, Hr2. f_equal.
  pose proof (Forall_lookup_1 _ _ _ _ Hc1 Hr1) as Hlen1.
  pose proof (Forall_lookup_1 _ _ _ _ Hc2 Hr2) as Hlen2. simpl in *.
  apply list_eq. intros j.
  destruct (decide (j < cols)%nat) as [Hj|Hj].
  2: { rewrite !lookup_ge_None_2 by lia. done. }
  specialize (Hat (Z.of_nat i) (Z.of_nat j) ltac:(lia) ltac:(lia)).
  unfold board_at in Hat. by rewrite !Nat2Z.id, Hr1, Hr2 in Hat.
Qed.

Lemma keyed_ext h h' (cs : list nat) :
  (forall x, rect_of h' x = rect_of h x) -> keyed h' <$> cs = keyed h <$> cs.
Proof.
  intros Heq. apply list_fmap_ext. intros _ x _.
  unfold keyed, cell_key. by rewrite Heq.
Qed.

(** [add_cell_success] with the fields of the new table that the sort
    decides. *)
Lemma add_cell_success_shape h self cell (t : TableObj) (c : CellObj) rs :
  tables h !! self = Some t -> cells h !! cell = Some c ->
  table_inv h t rs -> Rect_wf c ->
  contains t c = true -> scan_rect (_board t) c = None ->
  exists t' rs',
    Table.add_cell self cell h
    = (upd_table (upd_cell h cell (set_parent c (Some self))) self t',
       inr self) /\
    table_inv (upd_table (upd_cell h cell (set_parent c (Some self))) self t')
              t' rs' /\
    rs' ≡ₚ rs ++ [cell_rect c] /\
    table_rect t' = table_rect t /\
    table_parent t' = table_parent t /\
    _cells t' = (insert_last (keyed h cell) (keyed h <$> _cells t)).*2.
Proof.
  intros Ht Hc Hinv Hwf Hin Hscan.
  pose proof (inv_grid _ _ _ Hinv) as [Hg Hd].
  set (h1 := upd_cell h cell (set_parent c (Some self))).
  assert (forall x, rect_of h1 x = rect_of h x) as Hsame
    by (intros x; by apply rect_of_set_parent).
  assert (Forall2 (fun cell r => rect_of h1 cell = Some r)
                  (_cells t ++ [cell]) (rs ++ [cell_rect c])) as Hrs1.
  { apply Forall2_app.
    - eapply Forall2_impl; [exact (inv_rects _ _ _ Hinv)|].
      intros x r Hx. by rewrite Hsame.
    - constructor; [|constructor]. rewrite Hsame. unfold rect_of.
      by rewrite Hc. }
  destruct (sorted_rects _ _ _ Hrs1) as (rs' & Hrs' & Hperm & Hsorted).
  set (sorted := (sort_by_key (zip (key <$> rs ++ [cell_rect c])
                                   (_cells t ++ [cell]))).*2) in *.
  assert (Forall (fun r => contains t r = true) rs') as Hin'.
  { rewrite Hperm. apply Forall_app. split; [exact (inv_inside _ _ _ Hinv)|].
    by constructor. }
  assert (ForallOrdPairs disjoint rs') as Hdis'.
  { apply (ForallOrdPairs_perm _ (rs ++ [cell_rect c]));
      [apply disjoint_sym|done|].
    apply ForallOrdPairs_snoc; [exact (inv_disjoint _ _ _ Hinv)|].
    by apply (scan_disjoint h t). }
  exists (mkTable (table_rect t) (table_parent t) sorted
                  (fill_all (_board t) 0 rs')
                  (0 + foldr (fun r a => area r + a) 0 rs')), rs'.
  split; [|split; [|split; [|split; [|split]]]].
  - unfold Table.add_cell.
    rewrite (bind_get_table _ _ _ _ Ht), (bind_get_cell _ _ _ _ Hc).
    rewrite Hin. cbn [negb].
    pose proof (add_cell_check _ _ _ _ _ Ht Hinv Hin) as E.
    rewrite Hscan in E. rewrite (bind_inr _ _ _ _ _ E). clear E.
    rewrite bind_put_cell. fold h1.
    rewrite (bind_get_table h1 self t) by done.
    rewrite bind_put_table.
    rewrite (bind_get_table _ _ _ _ (upd_table_lookup _ _ _)).
    cbn [_cells set_cells].
    rewrite (bind_inr _ _ _ _ _
               (list_sort_run (upd_table h1 self _) _ _ Hrs1)). fold sorted.
    rewrite bind_put_table, upd_table_upd_table.
    rewrite (bind_get_table _ _ _ _ (upd_table_lookup _ _ _)).
    rewrite bind_put_table, upd_table_upd_table.
    rewrite (bind_get_table _ _ _ _ (upd_table_lookup _ _ _)).
    pose proof (fill_all_loop self _ _ h1 sorted rs' Hrs' 0%nat
                  (upd_table h1 self
                     (set_occupied_area
                        (set_cells (set_cells t (_cells t ++ [cell])) sorted) 0))
                  _ eq_refl (upd_table_lookup _ _ _) Hd Hg Hin') as E.
    cbn [Nat.add] in E. unfold enumerate.
    rewrite (bind_inr _ _ _ _ _ E). by rewrite upd_table_upd_table.
  - split; cbn [table_rect _board _cells _occupied_area];
      try apply Hinv.
    + apply (fill_all_dims _ _ _ _ _ Hd).
    + apply (fill_all_dims _ _ _ _ _ Hd).
    + done.
    + rewrite Hperm. apply Forall_app. split; [apply Hinv|by constructor].
    + done.
    + done.
    + done.
    + intros row col Hrow Hcol.
      rewrite (board_at_fill_all _ _ t rs' row col Hg Hin' Hdis') by (lia || done).
      unfold owner.
      destruct (list_find _ rs') as [[i r]|] eqn:E; [done|].
      rewrite (inv_board _ _ _ Hinv) by done. f_equal.
      apply owner_None. apply list_find_None in E.
      rewrite Hperm in E. apply Forall_app in E as [E _].
      eapply Forall_impl; [exact E|]. intros r. apply not_true_is_false.
    + lia.
  - done.
  - done.
  - done.
  - cbn [_cells]. unfold sorted.
    rewrite (zip_keyed _ _ _ Hrs1), (keyed_ext h h1) by done.
    rewrite fmap_app. simpl. rewrite sort_by_key_snoc; [done|].
    apply (Sorted_keyed h _ rs); [apply Hinv|apply Hinv].
Qed.

Lemma add_cell_inr h self cell (t : TableObj) (c : CellObj) rs h' res :
  tables h !! self = Some t -> cells h !! cell = Some c ->
  table_inv h t rs ->
  Table.add_cell self cell h = (h', inr res) ->
  contains t c = true /\ scan_rect (_board t) c = None.
Proof.
  intros Ht Hc Hinv Hrun.
  destruct (contains t c) eqn:Hin;
    [|by rewrite (add_cell_not_inside _ _ _ _ _ Ht Hc Hin) in Hrun].
  split; [done|].
  destruct (scan_rect (_board t) c) as [[row col]|] eqn:Hscan; [|done].
  by rewrite (add_cell_occupied _ _ _ _ _ _ _ _ Ht Hc Hinv Hin Hscan) in Hrun.
Qed.

Lemma table_eq (t1 t2 : TableObj) :
  table_rect t1 = table_rect t2 -> table_parent t1 = table_parent t2 ->
  _cells t1 = _cells t2 -> _board t1 = _board t2 ->
  _occupied_area t1 = _occupied_area t2 -> t1 = t2.
Proof. destruct t1, t2. simpl. congruence. Qed.

Lemma rect_of_inserted h self cell (c : CellObj) t' x :
  cells h !! cell = Some c ->
  rect_of (upd_table (upd_cell h cell (set_parent c (Some self))) self t') x
  = rect_of h x.
Proof. intros Hc. rewrite rect_of_upd_table. by apply rect_of_set_parent. Qed.

(** Two tables with rectangles of the same cells hold the same board and
    the same occupied area. *)
Lemma table_inv_determines h1 h2 (t1 t2 : TableObj) rs1 rs2 :
  table_inv h1 t1 rs1 -> table_inv h2 t2 rs2 ->
  (forall x, rect_of h1 x = rect_of h2 x) ->
  table_rect t1 = table_rect t2 -> _cells t1 = _cells t2 ->
  _board t1 = _board t2 /\ _occupied_area t1 = _occupied_area t2.
Proof.
  intros Hinv1 Hinv2 Hsame Hrect Hcells.
  assert (rs1 = rs2) as ->.
  { apply (rects_unique h2 (_cells t2)); [|apply Hinv2].
    rewrite <- Hcells. eapply Forall2_impl; [exact (inv_rects _ _ _ Hinv1)|].
    intros x r Hx. by rewrite <- Hsame. }
  split; [|by rewrite (inv_area _ _ _ Hinv1), (inv_area _ _ _ Hinv2)].
  pose proof (inv_grid _ _ _ Hinv1) as [_ Hd1].
  pose proof (inv_grid _ _ _ Hinv2) as [_ Hd2].
  pose proof (inv_width _ _ _ Hinv1). pose proof (inv_height _ _ _ Hinv1).
  rewrite <- Hrect in Hd2.
  apply (board_ext _ _ _ _ Hd1 Hd2). intros row col Hrow Hcol.
  rewrite (inv_board _ _ _ Hinv1), (inv_board _ _ _ Hinv2);
    [done|rewrite <- Hrect; lia..|lia|lia].
Qed.

(** X18: the order of two insertions does not matter.  When [add_cell]
    accepts a cell and then another with a different top-left corner, it
    accepts them in the other order too, and the heap at the end is the
    same: the same board, the same [_cells], the same parents. *)
Theorem add_cell_order
    h self a b (t : TableObj) (ca cb : CellObj) h1 h2 res1 res2 :
  reachable h ->
  tables h !! self = Some t ->
  cells h !! a = Some ca -> cells h !! b = Some cb ->
  (top ca, left ca) ≠ (top cb, left cb) ->
  Table.add_cell self a h = (h1, inr res1) ->
  Table.add_cell self b h1 = (h2, inr res2) ->
  exists h1',
    Table.add_cell self b h = (h1', inr self) /\
    Table.add_cell self a h1' = (h2, inr self).
Proof.
  intros Hreach Ht Ha Hb Hkey Hrun1 Hrun2.
  pose proof (reachable_inv _ Hreach) as [Htab Hwf].
  destruct (Htab _ _ Ht) as [rs Hinv].
  assert (a ≠ b) as Hab by (intros ->; apply Hkey; congruence).
  (* a, then b *)
  destruct (add_cell_inr _ _ _ _ _ _ _ _ Ht Ha Hinv Hrun1) as [Hina Hsa].
  destruct (add_cell_success_shape _ _ _ _ _ _ Ht Ha Hinv (Hwf _ _ Ha) Hina Hsa)
    as (ta & rsa & Ea & Hinva & Hpa & Hra & Hparenta & Hcellsa).
  rewrite Ea in Hrun1. injection Hrun1 as <- _.
  set (ha := upd_table (upd_cell h a (set_parent ca (Some self))) self ta) in *.
  assert (tables ha !! self = Some ta) as Hta by apply upd_table_lookup.
  assert (cells ha !! b = Some cb) as Hb1
    by (cbn; by rewrite lookup_insert_ne).
  destruct (add_cell_inr _ _ _ _ _ _ _ _ Hta Hb1 Hinva Hrun2) as [Hinb Hsb].
  destruct (add_cell_success_shape _ _ _ _ _ _ Hta Hb1 Hinva (Hwf _ _ Hb)
              Hinb Hsb)
    as (tab & rsab & Eab & Hinvab & Hpab & Hrab & Hparentab & Hcellsab).
  rewrite Eab in Hrun2. injection Hrun2 as <- _.
  (* what the two successes say about the rectangles *)
  apply (scan_rect_None_iff _ _ _ _ Hinv Hina) in Hsa.
  apply (scan_rect_None_iff _ _ _ _ Hinva Hinb) in Hsb.
  rewrite Hpa in Hsb. apply Forall_app in Hsb as [Hsb Hdab].
  apply Forall_cons in Hdab as [Hdab _].
  (* b first *)
  assert (contains t cb = true) as Hinb0
    by (unfold contains in *; by rewrite <- Hra).
  assert (scan_rect (_board t) cb = None) as Hsb0
    by by apply (scan_rect_None_iff _ _ _ _ Hinv Hinb0).
  destruct (add_cell_success_shape _ _ _ _ _ _ Ht Hb Hinv (Hwf _ _ Hb)
              Hinb0 Hsb0)
    as (tb & rsb & Eb & Hinvb & Hpb & Hrb & Hparentb & Hcellsb).
  set (hb := upd_table (upd_cell h b (set_parent cb (Some self))) self tb) in *.
  exists hb. split; [done|].
  assert (tables hb !! self = Some tb) as Htb by apply upd_table_lookup.
  assert (cells hb !! a = Some ca) as Ha1
    by (cbn; by rewrite lookup_insert_ne).
  assert (contains tb ca = true) as Hina1
    by (unfold contains in *; by rewrite Hrb).
  assert (scan_rect (_board tb) ca = None) as Hsa1.
  { apply (scan_rect_None_iff _ _ _ _ Hinvb Hina1). rewrite Hpb.
    apply Forall_app. split; [done|]. constructor; [|constructor].
    by apply disjoint_sym. }
  destruct (add_cell_success_shape _ _ _ _ _ _ Htb Ha1 Hinvb (Hwf _ _ Ha)
              Hina1 Hsa1)
    as (tba & rsba & Eba & Hinvba & Hpba & Hrba & Hparentba & Hcellsba).
  rewrite Eba. f_equal.
  (* the two heaps at the end *)
  assert (forall x, rect_of ha x = rect_of h x) as Hsame_a
    by (intros x; by apply rect_of_inserted).
  assert (forall x, rect_of hb x = rect_of h x) as Hsame_b
    by (intros x; by apply rect_of_inserted).
  assert (cell_key h a ≠ cell_key h b) as Hkeys.
  { unfold cell_key, rect_of. by rewrite Ha, Hb. }
  assert (_cells tba = _cells tab) as Hcells.
  { rewrite Hcellsba, Hcellsab, Hcellsa, Hcellsb.
    rewrite !(keyed_ext h ha), !(keyed_ext h hb) by done.
    rewrite !keyed_snd
      by (apply insert_last_Forall; [done|apply keyed_Forall]).
    replace (keyed hb a) with (keyed h a)
      by (unfold keyed, cell_key; by rewrite Hsame_b).
    replace (keyed ha b) with (keyed h b)
      by (unfold keyed, cell_key; by rewrite Hsame_a).
    by rewrite insert_last_comm. }
  assert (tba = tab) as ->.
  { destruct (table_inv_determines _ _ _ _ _ _ Hinvba Hinvab) as [Hboard Harea];
      [|congruence|done|].
    - intros x. rewrite (rect_of_inserted hb) by done.
      rewrite (rect_of_inserted ha) by done. by rewrite Hsame_a, Hsame_b.
    - apply table_eq; congruence. }
  unfold ha, hb, upd_table, upd_cell. simpl. f_equal.
  - by apply insert_insert_ne.
  - by rewrite !insert_insert_eq.
Qed.

Lemma add_cell_order_witness :
  exists h1',
    Table.add_cell 0 1 merged_start = (h1', inr 0%nat) /\
    Table.add_cell 0 0 h1' = (merged_table, inr 0%nat).
Proof.
  apply (add_cell_order merged_start 0%nat 0%nat 1%nat
           (mkTable (mkRect 0 0 2 2) None [2%nat] [[-1; -1]; [-1; 0]] 1)
           (mkCell (mkRect 0 0 2 1) None []) (mkCell (mkRect 0 1 1 1) None [])
           merged_before merged_table 0%nat 0%nat).
  - apply reachable_exec_all; [constructor|vm_compute; reflexivity].
  - vm_compute. reflexivity.
  - vm_compute. reflexivity.
  - vm_compute. reflexivity.
  - simpl. congruence.
  - vm_compute. reflexivity.
  - vm_compute. reflexivity.
Defined.

(** ** Paragraphs stay *)

(** X19: no call of the interface removes or reorders the paragraphs of a
    cell (the list of before is a prefix of the list of after), and the
    parent of a paragraph, once it is a cell, is that cell after every
    call. *)
Theorem call_keeps_paragraphs h call :
  reachable h -> valid_call h call = true ->
  (forall cell (c : CellObj),
      cells h !! cell = Some c ->
      exists c' : CellObj,
        cells (exec call h) !! cell = Some c' /\
        _paragraphs c `prefix_of` _paragraphs c') /\
  (forall q po cell,
      paragraphs h !! q = Some po -> paragraph_parent po = Some cell ->
      paragraphs (exec call h) !! q = Some po).
Proof.
  intros Hreach Hv.
  pose proof (exec_effect _ _ (reachable_inv _ Hreach) Hv) as Heff.
  destruct Heff as [|self rect Hfresh Hwf|self Hfresh|self t Hfresh Hnil Hinv
    |self cell0 t c0 rs t' rs' Ht Hc0 Hinv Hin Hscan Hinv' Hperm Hrect Hcells
    |self q0 c0 p Hc0 Hp Hpp]; cbn; (split; [intros cell c Hc|intros q po cell Hq Hpo]);
    try done; try (exists c; by split).
  - exists c. split; [|done]. rewrite lookup_insert_ne; [done|].
    intros <-. congruence.
  - rewrite lookup_insert_ne; [done|]. intros <-. congruence.
  - destruct (decide (cell0 = cell)) as [<-|Hne].
    + exists (set_parent c0 (Some self)). rewrite lookup_insert_eq.
      split; [done|]. simpl. by assert (c0 = c) as -> by congruence.
    + exists c. by rewrite lookup_insert_ne.
  - destruct (decide (self = cell)) as [<-|Hne].
    + exists (set_paragraphs c0 (_paragraphs c0 ++ [q0])).
      rewrite lookup_insert_eq. split; [done|]. simpl.
      assert (c0 = c) as -> by congruence. by apply prefix_app_r.
    + exists c. by rewrite lookup_insert_ne.
  - rewrite lookup_insert_ne; [done|]. intros <-.
    rewrite Hp in Hq. injection Hq as <-. congruence.
Qed.

Lemma call_keeps_paragraphs_witness :
  (forall cell (c : CellObj),
      cells paragraph_heap !! cell = Some c ->
      exists c' : CellObj,
        cells (exec (do_append_paragraph 1 0) paragraph_heap) !! cell
        = Some c' /\
        _paragraphs c `prefix_of` _paragraphs c') /\
  (forall q po cell,
      paragraphs paragraph_heap !! q = Some po ->
      paragraph_parent po = Some cell ->
      paragraphs (exec (do_append_paragraph 1 0) paragraph_heap) !! q
      = Some po).
Proof.
  apply (call_keeps_paragraphs paragraph_heap (do_append_paragraph 1 0)).
  - apply reachable_exec_all; [constructor|vm_compute; reflexivity].
  - reflexivity.
Defined.
